(** * Aura voice assistant: the real-time audio session core

    A shallow embedding of [src/App.tsx] (scheduler, session message
    handler, capture callback, session lifecycle) and of
    [src/utils/gmail-service.ts] (the mail collaborator), followed by the
    properties of the specification that concern them.

    Conventions of the embedding.
    - JavaScript strings are [string]: sequences of code units, here
      restricted to the Latin-1 range (what [atob] produces).
    - Times on the audio clock are doubles.  A finite double is a
      rational ([Q]); the sum of two doubles is the rational sum rounded
      to the nearest double ([fl], IEEE 754 binary64, ties to even).
      Infinities and NaN are not modelled: a time of [2^1024] seconds or
      more does not occur.
    - A handler is a computation in the monad [M]: it reads and updates the
      [Store] (React state, refs, [localStorage], the Gmail token), appends
      every call it makes on an object of the platform to [trace], and can
      end with an exception.  A store update made before a [throw] stays.
    - What the platform answers is read from a [World]: the clock, the
      outcome of every call on a device, the transport or the network.
      Such a call can throw, and so can [localStorage.setItem]; [crypto],
      [console] and the React setters are taken to succeed.
    - A text of [localStorage] is known by what [JSON.parse] makes of it.
    - A React setter called with a value takes effect where it is called:
      no handler reads the state it sets.  The updater passed to
      [setMemories] writes [localStorage]; it is queued where it is passed
      and runs at the next render ([render]).
    - Handlers run to completion one after the other: the interleaving of
      two handlers at an [await] is not modelled. *)

From Stdlib Require Import ZArith QArith Qminmax Qround Qpower Lia Lqa.
From Stdlib Require Import Bool List String Ascii DecimalString.
Import ListNotations.

Local Close Scope Q_scope.
Local Open Scope nat_scope.
Local Open Scope string_scope.
Local Open Scope list_scope.

(** ** JavaScript values *)

Module Js.

(** Values that travel as JSON (tool-call arguments, tool results, Gmail
    responses, stored records).  Numbers are integers here. *)
#[warnings="-register-all"]
Inductive JSON : Type :=
| JNull
| JBool (b : bool)
| JNum (n : Z)
| JStr (s : string)
| JArr (items : list JSON)
| JObj (fields : list (string * JSON)).

(** [undefined] is the absence of a value. *)
Definition Value := option JSON.

Fixpoint lookup {A : Type} (k : string) (o : list (string * A)) : option A :=
  match o with
  | [] => None
  | (k', v) :: r => if String.eqb k k' then Some v else lookup k r
  end.

(** [o[k] = v]: an existing property keeps its place, a new one goes last. *)
Fixpoint obj_set {A : Type} (k : string) (v : A) (o : list (string * A))
  : list (string * A) :=
  match o with
  | [] => [(k, v)]
  | (k', v') :: r =>
      if String.eqb k k' then (k, v) :: r else (k', v') :: obj_set k v r
  end.

(** [{...o, ...extra}] *)
Definition obj_spread {A : Type} (o extra : list (string * A)) :=
  fold_left (fun acc kv => obj_set (fst kv) (snd kv) acc) extra o.

(** ToBoolean *)
Definition truthy (v : Value) : bool :=
  match v with
  | None => false
  | Some JNull => false
  | Some (JBool b) => b
  | Some (JNum n) => negb (Z.eqb n 0%Z)
  | Some (JStr s) => negb (String.eqb s "")
  | Some (JArr _) => true
  | Some (JObj _) => true
  end.

(** [a || b] *)
Definition or_else (a : Value) (b : JSON) : JSON :=
  match a with
  | Some v => if truthy a then v else b
  | None => b
  end.

Definition string_of_Z (n : Z) : string :=
  NilZero.string_of_int (Z.to_int n).

Definition string_of_nat (n : nat) : string := string_of_Z (Z.of_nat n).

(** ToString of a JSON value, as a template literal does it. *)
Fixpoint to_string (v : JSON) : string :=
  match v with
  | JNull => "null"
  | JBool true => "true"
  | JBool false => "false"
  | JNum n => string_of_Z n
  | JStr s => s
  | JArr items =>
      let elem x := match x with JNull => "" | _ => to_string x end in
      (fix join (l : list JSON) : string :=
         match l with
         | [] => ""
         | [x] => elem x
         | x :: r => (elem x ++ "," ++ join r)%string
         end) items
  | JObj _ => "[object Object]"
  end.

Definition template (v : Value) : string :=
  match v with
  | None => "undefined"
  | Some j => to_string j
  end.

(** *** Strings *)

Definition code (c : ascii) : nat := nat_of_ascii c.

(** WhiteSpace and LineTerminator code units below 256. *)
Definition is_space (c : ascii) : bool :=
  let n := code c in
  ((9 <=? n) && (n <=? 13) || (n =? 32) || (n =? 160))%nat.

Definition is_line_terminator (c : ascii) : bool :=
  let n := code c in ((n =? 10) || (n =? 13))%nat.

Fixpoint drop_spaces (l : list ascii) : list ascii :=
  match l with
  | [] => []
  | c :: r => if is_space c then drop_spaces r else l
  end.

(** [String.prototype.trim] *)
Definition trim (s : string) : string :=
  string_of_list_ascii
    (rev (drop_spaces (rev (drop_spaces (list_ascii_of_string s))))).

Definition lower_char (c : ascii) : ascii :=
  let n := code c in
  if ((65 <=? n) && (n <=? 90)
      || (192 <=? n) && (n <=? 222) && negb (n =? 215))%nat
  then ascii_of_nat (n + 32) else c.

(** [String.prototype.toLowerCase] *)
Definition toLowerCase (s : string) : string :=
  string_of_list_ascii (map lower_char (list_ascii_of_string s)).

(** [s.replace(/x/g, y)] for single characters. *)
Definition replace_all (x y : ascii) (s : string) : string :=
  string_of_list_ascii
    (map (fun c => if Ascii.eqb c x then y else c) (list_ascii_of_string s)).

(** The rest of the line after its last [>], if it has one. *)
Fixpoint after_last_gt (l : list ascii) : option (list ascii) :=
  match l with
  | [] => None
  | c :: r =>
      if is_line_terminator c then None
      else match after_last_gt r with
           | Some rest => Some rest
           | None => if Ascii.eqb c ">"%char then Some r else None
           end
  end.

Fixpoint strip_angle (l : list ascii) : list ascii :=
  match l with
  | [] => []
  | c :: r =>
      if Ascii.eqb c "<"%char
      then match after_last_gt r with
           | Some rest => rest
           | None => c :: strip_angle r
           end
      else c :: strip_angle r
  end.

(** [s.replace(/<.*>/, '')]: the first match is removed; [.] stops at a
    line terminator and [*] is greedy. *)
Definition remove_angle (s : string) : string :=
  string_of_list_ascii (strip_angle (list_ascii_of_string s)).

(** [s.includes(sub)] for a non-empty [sub]. *)
Definition includes (sub s : string) : bool :=
  match index 0 sub s with Some _ => true | None => false end.

Definition chars (s : string) : list JSON :=
  map (fun c => JStr (String c "")) (list_ascii_of_string s).

(** *** Doubles *)

(** Rounding to the nearest integer, ties to the even one. *)
Definition rne (q : Q) : Z :=
  let f := Qfloor q in
  match Qcompare (q - inject_Z f)%Q (1 # 2)%Q with
  | Lt => f
  | Gt => (f + 1)%Z
  | Eq => if Z.even f then f else (f + 1)%Z
  end.

(** The binade of a positive rational [n/d]: the [k] with
    [2^k <= n/d < 2^(k+1)]. *)
Definition binade (n d : positive) : Z :=
  let k := (Z.log2 (Z.pos n) - Z.log2 (Z.pos d))%Z in
  if Qle_bool (2 ^ k)%Q (Z.pos n # d)%Q then k else (k - 1)%Z.

(** The exponent of the last place of a binary64 number of that size: 53
    significant bits, and no exponent below that of the subnormals. *)
Definition expo (n d : positive) : Z := Z.max (binade n d - 52) (-1074).

Definition round_to (e : Z) (q : Q) : Q :=
  (inject_Z (rne (q / 2 ^ e)) * 2 ^ e)%Q.

(** The double nearest to a rational.  From [2^1024] on the nearest double
    is an infinity, which is not a rational: there [fl] is the rounding
    with an exponent that has no upper bound. *)
Definition fl (q : Q) : Q :=
  match Qnum q with
  | Z0 => 0%Q
  | Z.pos n | Z.neg n => round_to (expo n (Qden q)) q
  end.

(** A double: a rational that the rounding leaves where it is. *)
Definition isDouble (q : Q) : Prop := (fl q == q)%Q.

(** *** Texts of [localStorage] *)

(** A stored text, by what [JSON.parse] makes of it. *)
Inductive Text : Type :=
| TextOf (v : JSON)  (* [JSON.stringify(v)], or another text that parses to [v] *)
| EmptyText          (* the empty string, which is falsy *)
| NotJson.           (* a text on which [JSON.parse] throws *)

End Js.

Import Js.

Arguments fl : simpl never.

(** ** The platform: devices, transport, network *)

(** [types.ts] *)
Inductive SessionStatus : Type := IDLE | CONNECTING | CONNECTED | ERROR.

(** An [AudioBuffer]: [duration] is the double [length / sampleRate], in
    seconds. *)
Record AudioBuffer : Type := mkBuffer {
  buf_length : N;
  buf_sampleRate : positive
}.

Definition duration (b : AudioBuffer) : Q :=
  fl (Z.of_N (buf_length b) # buf_sampleRate b).

(** An [AudioBufferSourceNode] created by the message handler. *)
Record SourceNode : Type := mkSource {
  node_id : nat;
  node_buffer : AudioBuffer
}.

(** One tick of captured samples, and its wire form ([createBlob]). *)
Definition AudioFrame := list Q.

Record WireAudioBlob : Type := mkBlob {
  blob_mimeType : string;
  blob_data : string
}.

(** The session handle the transport resolves to. *)
Record Session : Type := mkSession { session_id : nat }.

Record MediaStream : Type := mkStream { tracks : list nat }.

(** [audioNodesRef.current] *)
Record AudioNodes : Type := mkNodes {
  nodes_source : nat;
  nodes_processor : nat
}.

(** [audioContextRef.current] *)
Record AudioContexts : Type := mkContexts {
  ctx_input : nat;
  ctx_output : nat
}.

(** A request of the Gmail service: the URL with its query parameters, and
    the bearer token. *)
Inductive Request : Type :=
| ListMessages (q : string) (maxResults : string) (token : string)
| GetMessage (id : string) (token : string).

(** Calls on objects of the platform, in the order they are made; the
    transitions of the session status are recorded with them. *)
Inductive Effect : Type :=
| E_setStatus (s : SessionStatus)
| E_createBufferSource (node : nat)
| E_createMediaStreamSource (node : nat)
| E_createScriptProcessor (node : nat)
| E_connect (node target : nat)
| E_connectDestination (node : nat)
| E_sourceStart (node : nat) (when : Q)
| E_sourceStop (node : nat)
| E_sendToolResponse (s : nat) (id name : string) (result : JSON)
| E_sendRealtimeInput (s : nat) (media : WireAudioBlob)
| E_sessionClose (s : nat)
| E_trackStop (track : nat)
| E_disconnect (node : nat)
| E_getUserMedia
| E_newAudioContext (sampleRate : Z)
| E_liveConnect (apiKey : string)
| E_fetch (r : Request)
| E_consoleError (msg : string).

Inductive Exn : Type :=
| Error (msg : string)
| TypeError
| SyntaxError
| QuotaExceededError
| Raised (by_call : Effect)
| Rejected (what : string).

(** What the platform answers during one run of a handler. *)
Record World : Type := mkWorld {
  (** [ctx.currentTime] of the output context, as the message handler
      reads it: before it awaits the decoding of the payload *)
  currentTime : Q;
  (** [Date.now()] *)
  dateNow : Z;
  (** [crypto.randomUUID()], by the number of identifiers drawn so far *)
  randomUUID : nat -> string;
  (** whether a call on a platform object throws *)
  throws : Effect -> bool;
  (** [decodeAudioData(decode(data), ctx, 24000, 1)] of [utils/audio],
      which is not among the sources: [None] when it rejects *)
  decodeAudioData : string -> option AudioBuffer;
  (** [createBlob] of [utils/audio], not among the sources *)
  createBlob : AudioFrame -> WireAudioBlob;
  (** [atob]: [None] when it throws *)
  atob : string -> option string;
  (** [fetch(...)] followed by [.json()]: [None] when either rejects *)
  fetchJson : Request -> option JSON;
  (** [import.meta.env.VITE_API_KEY] *)
  VITE_API_KEY : option string;
  (** [navigator.mediaDevices.getUserMedia]: [None] when it rejects *)
  getUserMedia : option MediaStream;
  (** what [ai.live.connect] resolves to: [None] when it rejects *)
  liveConnect : option Session;
  (** [ctx.currentTime] once the decoding has been awaited, when
      [source.start] is called; the handler does not read the clock again *)
  currentTimeAtStart : Q;
  (** whether [localStorage.setItem] throws for a key (the quota is
      exceeded, or the storage is not available) *)
  setItemThrows : string -> bool
}.

(** ** The mail collaborator's records *)

(** [Email] of [gmail-service.ts].  The fields copied from a response are
    whatever the response holds; [body] is always a string. *)
Record Email : Type := mkEmail {
  email_id : Value;
  email_from : Value;
  email_subject : Value;
  email_snippet : Value;
  email_body : string;
  email_date : Value;
  email_isUnread : bool
}.

(** ** The store *)

Definition MEMORY_KEY := "friend_assistant_memories".
Definition TASKS_KEY := "aura_tasks".
Definition DRAFTS_KEY := "aura_drafts".
Definition PLACEHOLDER_KEY := "your_google_gemini_api_key_here".

(** [localStorage]: the text stored under each key. *)
Definition Storage := list (string * Text).

Record Store : Type := mkStore {
  (* React state; [memories], [tasks] and [drafts] are what was parsed
     from [localStorage], arrays when this program wrote them *)
  status : SessionStatus;
  isSpeaking : bool;
  memories : JSON;
  currentInput : string;
  currentOutput : string;
  tasks : JSON;
  drafts : JSON;
  emails : list Email;
  (* refs *)
  audioContextRef : option AudioContexts;
  nextStartTimeRef : Q;
  sourcesRef : list SourceNode;
  sessionRef : option Session;
  streamRef : option MediaStream;
  audioNodesRef : option AudioNodes;
  (* outside the component *)
  localStorage : Storage;
  accessToken : option string;
  (* bookkeeping of the embedding *)
  fresh : nat;
  trace : list Effect;
  (* React's queue for [memories]: the [content] of each updater passed to
     [setMemories] since the last render *)
  pendingMemories : list Value
}.

Definition initialStore : Store :=
  mkStore IDLE false (JArr []) "" "" (JArr []) (JArr []) []
          None 0%Q [] None None None
          [] None 0 [] [].

Definition set_status v (s : Store) : Store :=
  mkStore v (isSpeaking s) (memories s) (currentInput s) (currentOutput s)
    (tasks s) (drafts s) (emails s) (audioContextRef s) (nextStartTimeRef s)
    (sourcesRef s) (sessionRef s) (streamRef s) (audioNodesRef s)
    (localStorage s) (accessToken s) (fresh s) (trace s)
    (pendingMemories s).
Definition set_isSpeaking v (s : Store) : Store :=
  mkStore (status s) v (memories s) (currentInput s) (currentOutput s)
    (tasks s) (drafts s) (emails s) (audioContextRef s) (nextStartTimeRef s)
    (sourcesRef s) (sessionRef s) (streamRef s) (audioNodesRef s)
    (localStorage s) (accessToken s) (fresh s) (trace s)
    (pendingMemories s).
Definition set_memories v (s : Store) : Store :=
  mkStore (status s) (isSpeaking s) v (currentInput s) (currentOutput s)
    (tasks s) (drafts s) (emails s) (audioContextRef s) (nextStartTimeRef s)
    (sourcesRef s) (sessionRef s) (streamRef s) (audioNodesRef s)
    (localStorage s) (accessToken s) (fresh s) (trace s)
    (pendingMemories s).
Definition set_currentInput v (s : Store) : Store :=
  mkStore (status s) (isSpeaking s) (memories s) v (currentOutput s)
    (tasks s) (drafts s) (emails s) (audioContextRef s) (nextStartTimeRef s)
    (sourcesRef s) (sessionRef s) (streamRef s) (audioNodesRef s)
    (localStorage s) (accessToken s) (fresh s) (trace s)
    (pendingMemories s).
Definition set_currentOutput v (s : Store) : Store :=
  mkStore (status s) (isSpeaking s) (memories s) (currentInput s) v
    (tasks s) (drafts s) (emails s) (audioContextRef s) (nextStartTimeRef s)
    (sourcesRef s) (sessionRef s) (streamRef s) (audioNodesRef s)
    (localStorage s) (accessToken s) (fresh s) (trace s)
    (pendingMemories s).
Definition set_tasks v (s : Store) : Store :=
  mkStore (status s) (isSpeaking s) (memories s) (currentInput s)
    (currentOutput s) v (drafts s) (emails s) (audioContextRef s)
    (nextStartTimeRef s) (sourcesRef s) (sessionRef s) (streamRef s)
    (audioNodesRef s) (localStorage s) (accessToken s) (fresh s) (trace s)
    (pendingMemories s).
Definition set_drafts v (s : Store) : Store :=
  mkStore (status s) (isSpeaking s) (memories s) (currentInput s)
    (currentOutput s) (tasks s) v (emails s) (audioContextRef s)
    (nextStartTimeRef s) (sourcesRef s) (sessionRef s) (streamRef s)
    (audioNodesRef s) (localStorage s) (accessToken s) (fresh s) (trace s)
    (pendingMemories s).
Definition set_emails v (s : Store) : Store :=
  mkStore (status s) (isSpeaking s) (memories s) (currentInput s)
    (currentOutput s) (tasks s) (drafts s) v (audioContextRef s)
    (nextStartTimeRef s) (sourcesRef s) (sessionRef s) (streamRef s)
    (audioNodesRef s) (localStorage s) (accessToken s) (fresh s) (trace s)
    (pendingMemories s).
Definition set_audioContextRef v (s : Store) : Store :=
  mkStore (status s) (isSpeaking s) (memories s) (currentInput s)
    (currentOutput s) (tasks s) (drafts s) (emails s) v
    (nextStartTimeRef s) (sourcesRef s) (sessionRef s) (streamRef s)
    (audioNodesRef s) (localStorage s) (accessToken s) (fresh s) (trace s)
    (pendingMemories s).
Definition set_nextStartTimeRef v (s : Store) : Store :=
  mkStore (status s) (isSpeaking s) (memories s) (currentInput s)
    (currentOutput s) (tasks s) (drafts s) (emails s) (audioContextRef s)
    v (sourcesRef s) (sessionRef s) (streamRef s)
    (audioNodesRef s) (localStorage s) (accessToken s) (fresh s) (trace s)
    (pendingMemories s).
Definition set_sourcesRef v (s : Store) : Store :=
  mkStore (status s) (isSpeaking s) (memories s) (currentInput s)
    (currentOutput s) (tasks s) (drafts s) (emails s) (audioContextRef s)
    (nextStartTimeRef s) v (sessionRef s) (streamRef s)
    (audioNodesRef s) (localStorage s) (accessToken s) (fresh s) (trace s)
    (pendingMemories s).
Definition set_sessionRef v (s : Store) : Store :=
  mkStore (status s) (isSpeaking s) (memories s) (currentInput s)
    (currentOutput s) (tasks s) (drafts s) (emails s) (audioContextRef s)
    (nextStartTimeRef s) (sourcesRef s) v (streamRef s)
    (audioNodesRef s) (localStorage s) (accessToken s) (fresh s) (trace s)
    (pendingMemories s).
Definition set_streamRef v (s : Store) : Store :=
  mkStore (status s) (isSpeaking s) (memories s) (currentInput s)
    (currentOutput s) (tasks s) (drafts s) (emails s) (audioContextRef s)
    (nextStartTimeRef s) (sourcesRef s) (sessionRef s) v
    (audioNodesRef s) (localStorage s) (accessToken s) (fresh s) (trace s)
    (pendingMemories s).
Definition set_audioNodesRef v (s : Store) : Store :=
  mkStore (status s) (isSpeaking s) (memories s) (currentInput s)
    (currentOutput s) (tasks s) (drafts s) (emails s) (audioContextRef s)
    (nextStartTimeRef s) (sourcesRef s) (sessionRef s) (streamRef s)
    v (localStorage s) (accessToken s) (fresh s) (trace s)
    (pendingMemories s).
Definition set_localStorage v (s : Store) : Store :=
  mkStore (status s) (isSpeaking s) (memories s) (currentInput s)
    (currentOutput s) (tasks s) (drafts s) (emails s) (audioContextRef s)
    (nextStartTimeRef s) (sourcesRef s) (sessionRef s) (streamRef s)
    (audioNodesRef s) v (accessToken s) (fresh s) (trace s)
    (pendingMemories s).
Definition set_accessToken v (s : Store) : Store :=
  mkStore (status s) (isSpeaking s) (memories s) (currentInput s)
    (currentOutput s) (tasks s) (drafts s) (emails s) (audioContextRef s)
    (nextStartTimeRef s) (sourcesRef s) (sessionRef s) (streamRef s)
    (audioNodesRef s) (localStorage s) v (fresh s) (trace s)
    (pendingMemories s).
Definition set_fresh v (s : Store) : Store :=
  mkStore (status s) (isSpeaking s) (memories s) (currentInput s)
    (currentOutput s) (tasks s) (drafts s) (emails s) (audioContextRef s)
    (nextStartTimeRef s) (sourcesRef s) (sessionRef s) (streamRef s)
    (audioNodesRef s) (localStorage s) (accessToken s) v (trace s)
    (pendingMemories s).
Definition set_trace v (s : Store) : Store :=
  mkStore (status s) (isSpeaking s) (memories s) (currentInput s)
    (currentOutput s) (tasks s) (drafts s) (emails s) (audioContextRef s)
    (nextStartTimeRef s) (sourcesRef s) (sessionRef s) (streamRef s)
    (audioNodesRef s) (localStorage s) (accessToken s) (fresh s) v
    (pendingMemories s).
Definition set_pendingMemories v (s : Store) : Store :=
  mkStore (status s) (isSpeaking s) (memories s) (currentInput s)
    (currentOutput s) (tasks s) (drafts s) (emails s) (audioContextRef s)
    (nextStartTimeRef s) (sourcesRef s) (sessionRef s) (streamRef s)
    (audioNodesRef s) (localStorage s) (accessToken s) (fresh s) (trace s) v.

(** ** The monad of handlers: state, trace and exceptions *)

Inductive Result (A : Type) : Type :=
| Ok (a : A)
| Throw (e : Exn).
Arguments Ok {A} a.
Arguments Throw {A} e.

Definition M (A : Type) : Type := Store -> Result A * Store.

Definition ret {A} (a : A) : M A := fun s => (Ok a, s).

Definition bind {A B} (m : M A) (k : A -> M B) : M B :=
  fun s =>
    match m s with
    | (Ok a, s') => k a s'
    | (Throw e, s') => (Throw e, s')
    end.

Definition throw {A} (e : Exn) : M A := fun s => (Throw e, s).

(** [try { m } catch (e) { h e }] *)
Definition tryCatch {A} (m : M A) (h : Exn -> M A) : M A :=
  fun s =>
    match m s with
    | (Ok a, s') => (Ok a, s')
    | (Throw e, s') => h e s'
    end.

Definition gets {A} (f : Store -> A) : M A := fun s => (Ok (f s), s).

Definition modify (f : Store -> Store) : M unit := fun s => (Ok tt, f s).

Definition emit (e : Effect) : M unit :=
  modify (fun s => set_trace (trace s ++ [e]) s).

Declare Scope monad_scope.
Delimit Scope monad_scope with monad.
Notation "x <- m ;; k" := (bind m (fun x => k))
  (at level 61, m at next level, right associativity) : monad_scope.
Notation "m ;; k" := (bind m (fun _ => k))
  (at level 61, right associativity) : monad_scope.
Local Open Scope monad_scope.

(** A call on a platform object: recorded, then it returns or throws as the
    world decides. *)
Definition call (w : World) (e : Effect) : M unit :=
  emit e ;;
  if throws w e then throw (Raised e) else ret tt.

(** [for (const x of l) { f x }] *)
Fixpoint forEach {A} (f : A -> M unit) (l : list A) : M unit :=
  match l with
  | [] => ret tt
  | x :: r => f x ;; forEach f r
  end.

(** Lifting a result that needs no store. *)
Definition liftR {A} (r : Result A) : M A := fun s => (r, s).

(** [o.k] on a value: a [TypeError] on [null] and [undefined]. *)
Definition member (o : Value) (k : string) : Result Value :=
  match o with
  | None => Throw TypeError
  | Some JNull => Throw TypeError
  | Some (JObj fields) => Ok (lookup k fields)
  | Some _ => Ok None
  end.

Definition andThen {A B} (r : Result A) (k : A -> Result B) : Result B :=
  match r with
  | Ok a => k a
  | Throw e => Throw e
  end.

(** ** [gmail-service.ts] *)

Module Gmail.

Definition newline : string := String (ascii_of_nat 10) "".

Definition setAccessToken (token : string) : M unit :=
  modify (set_accessToken (Some token)).

(** [await (await fetch(url, {headers})).json()] *)
Definition fetch (w : World) (r : Request) : M JSON :=
  emit (E_fetch r) ;;
  match fetchJson w r with
  | Some j => ret j
  | None => throw (Rejected "fetch")
  end.

(** [headers.find(h => h.name.toLowerCase() === name.toLowerCase())] *)
Fixpoint findHeader (name : string) (hs : list JSON) : Result (option JSON) :=
  match hs with
  | [] => Ok None
  | h :: r =>
      andThen (member (Some h) "name") (fun n =>
      match n with
      | Some (JStr n) =>
          if String.eqb (toLowerCase n) (toLowerCase name)
          then Ok (Some h) else findHeader name r
      | _ => Throw TypeError
      end)
  end.

Definition getHeader (headers : Value) (name : string) : Result Value :=
  match headers with
  | Some (JArr hs) =>
      andThen (findHeader name hs) (fun header =>
      match header with
      | Some h => member (Some h) "value"
      | None => Ok (Some (JStr ""))
      end)
  | _ => Throw TypeError
  end.

(** [atob(data.replace(/-/g, '+').replace(/_/g, '/'))] on a truthy
    [data]: only a string has [replace]. *)
Definition decodeBody (w : World) (data : Value) : Result string :=
  match data with
  | Some (JStr s) =>
      match atob w (replace_all "_" "/" (replace_all "-" "+" s)) with
      | Some b => Ok b
      | None => Throw (Error "InvalidCharacterError")
      end
  | _ => Throw TypeError
  end.

(** [parts.find(part => part.mimeType === 'text/plain')] *)
Fixpoint findTextPart (ps : list JSON) : Result (option JSON) :=
  match ps with
  | [] => Ok None
  | p :: r =>
      andThen (member (Some p) "mimeType") (fun m =>
      match m with
      | Some (JStr t) =>
          if String.eqb t "text/plain" then Ok (Some p) else findTextPart r
      | _ => findTextPart r
      end)
  end.

Definition extractBody (w : World) (payload : Value) : Result string :=
  andThen (member payload "body") (fun pbody =>
  andThen (member pbody "data") (fun data =>
  if truthy data then decodeBody w data
  else
    andThen (member payload "parts") (fun parts =>
    if truthy parts then
      match parts with
      | Some (JArr ps) =>
          andThen (findTextPart ps) (fun textPart =>
          match textPart with
          | Some tp =>
              andThen (member (Some tp) "body") (fun tb =>
              andThen (member tb "data") (fun td =>
              if truthy td then decodeBody w td else Ok ""))
          | None => Ok ""
          end)
      | _ => Throw TypeError
      end
    else Ok ""))).

(** [message.labelIds?.includes('UNREAD') || false] *)
Definition isUnreadOf (labelIds : Value) : Result bool :=
  match labelIds with
  | None => Ok false
  | Some JNull => Ok false
  | Some (JArr l) =>
      Ok (existsb (fun x => match x with
                            | JStr s => String.eqb s "UNREAD"
                            | _ => false
                            end) l)
  | Some (JStr s) => Ok (includes "UNREAD" s)
  | Some _ => Throw TypeError
  end.

Definition parseEmail (w : World) (message : JSON) : Result Email :=
  andThen (member (Some message) "payload") (fun payload =>
  andThen (member payload "headers") (fun headers =>
  andThen (extractBody w payload) (fun body =>
  andThen (member (Some message) "id") (fun id =>
  andThen (getHeader headers "From") (fun from =>
  andThen (getHeader headers "Subject") (fun subject =>
  andThen (member (Some message) "snippet") (fun snippet =>
  andThen (getHeader headers "Date") (fun date =>
  andThen (member (Some message) "labelIds") (fun labelIds =>
  andThen (isUnreadOf labelIds) (fun unread =>
  Ok (mkEmail id from subject snippet
              (substring 0 500 body) (* Limit body length *)
              date unread))))))))))).

(** [for (const message of listData.messages)]: an array gives its items,
    a string its characters, anything else is not iterable. *)
Definition iterate (v : Value) : Result (list JSON) :=
  match v with
  | Some (JArr l) => Ok l
  | Some (JStr s) => Ok (chars s)
  | _ => Throw TypeError
  end.

(** The loop that fetches the full details of each listed message. *)
Fixpoint fetchDetails (w : World) (token : string) (messages : list JSON)
  : M (list Email) :=
  match messages with
  | [] => ret []
  | message :: r =>
      id <- liftR (member (Some message) "id") ;;
      detail <- fetch w (GetMessage (template id) token) ;;
      email <- liftR (parseEmail w detail) ;;
      rest <- fetchDetails w token r ;;
      ret (email :: rest)
  end.

(** The default value of a parameter: used for [undefined] only. *)
Definition orDefault (v : Value) (d : JSON) : JSON :=
  match v with
  | Some j => j
  | None => d
  end.

(** The body both list operations share: the list request, the test of
    [listData.messages], the detail loop; [catch] logs and rethrows. *)
Definition listEmails (w : World) (q : string) (maxResults : Value)
  (logged : string) : M (list Email) :=
  tok <- gets accessToken ;;
  match tok with
  | None => throw (Error "Not authenticated with Gmail")
  | Some token =>
      if String.eqb token "" then throw (Error "Not authenticated with Gmail")
      else
        tryCatch
          (listData <- fetch w (ListMessages q
                                 (to_string (orDefault maxResults (JNum 10)))
                                 token) ;;
           messages <- liftR (member (Some listData) "messages") ;;
           if negb (truthy messages) then ret []
           else
             items <- liftR (iterate messages) ;;
             fetchDetails w token items)
          (fun error => emit (E_consoleError logged) ;; throw error)
  end.

(** [getUnreadEmails(maxResults = 10)] *)
Definition getUnreadEmails (w : World) (maxResults : Value) : M (list Email) :=
  listEmails w "is:unread" maxResults "Error fetching emails:".

(** [searchEmails(query, maxResults = 10)]; the query stands for its
    URI-encoded form. *)
Definition searchEmails (w : World) (query : Value) (maxResults : Value)
  : M (list Email) :=
  listEmails w (template query) maxResults "Error searching emails:".

(** One line of the summary; [index] counts from 0. *)
Definition summaryLine (index : nat) (email : Email) : Result string :=
  match email_from email with
  | Some (JStr f) =>
      Ok (string_of_nat (index + 1) ++ ". From " ++ trim (remove_angle f)
          ++ ": " ++ template (email_subject email))%string
  | _ => Throw TypeError
  end.

Fixpoint summaryLines (index : nat) (l : list Email) : Result (list string) :=
  match l with
  | [] => Ok []
  | e :: r =>
      andThen (summaryLine index e) (fun line =>
      andThen (summaryLines (S index) r) (fun lines =>
      Ok (line :: lines)))
  end.

Definition summarizeEmails (l : list Email) : Result string :=
  if Nat.eqb (List.length l) 0 then Ok "You have no unread emails."
  else
    andThen (summaryLines 0 l) (fun lines =>
    Ok ("You have " ++ string_of_nat (List.length l) ++ " unread email"
        ++ (if Nat.ltb 1 (List.length l) then "s" else "") ++ ":" ++ newline
        ++ String.concat newline lines)%string).

End Gmail.

(** ** [App.tsx] *)

Module App.

(** *** Messages of the transport ([LiveServerMessage]) *)

(** Every field of a message is optional in the declarations of the
    transport's SDK. *)
Record Blob : Type := mkInline { data : option string }.
Record Part : Type := mkPart { inlineData : option Blob }.
Record Content : Type := mkContent { parts : option (list Part) }.
Record Transcription : Type := mkText { text : string }.

Record ServerContent : Type := mkServerContent {
  inputTranscription : option Transcription;
  outputTranscription : option Transcription;
  turnComplete : bool;
  interrupted : bool;
  modelTurn : option Content
}.

Record FunctionCall : Type := mkCall {
  fc_id : string;
  fc_name : string;
  fc_args : option (list (string * JSON))
}.

Record ToolCall : Type := mkToolCall {
  functionCalls : option (list FunctionCall)
}.

Record LiveServerMessage : Type := mkMessage {
  serverContent : option ServerContent;
  toolCall : option ToolCall
}.

(** [a?.f] *)
Definition opt {A B} (a : option A) (f : A -> option B) : option B :=
  match a with
  | Some x => f x
  | None => None
  end.

(** [message.serverContent?.modelTurn?.parts[0]?.inlineData?.data]: the
    chain ends with [undefined] where [serverContent] or [modelTurn] is
    missing; [parts[0]] has no [?.], so that a model turn without [parts]
    is a [TypeError]. *)
Definition audioDataOf (message : LiveServerMessage) : Result (option string) :=
  match opt (serverContent message) modelTurn with
  | None => Ok None
  | Some turn =>
      match parts turn with
      | None => Throw TypeError
      | Some ps => Ok (opt (opt (hd_error ps) inlineData) data)
      end
  end.

(** [fc.args.k]: a [TypeError] when the call came without [args]. *)
Definition arg (fc : FunctionCall) (k : string) : Result Value :=
  match fc_args fc with
  | Some args => Ok (lookup k args)
  | None => Throw TypeError
  end.

(** [...fc.args] in an object literal: nothing for [undefined]. *)
Definition spreadArgs (fc : FunctionCall) : list (string * JSON) :=
  match fc_args fc with
  | Some args => args
  | None => []
  end.

(** *** React setters and small helpers *)

Definition setStatus (v : SessionStatus) : M unit :=
  emit (E_setStatus v) ;; modify (set_status v).

Definition setIsSpeaking (v : bool) : M unit := modify (set_isSpeaking v).

Definition when (b : bool) (m : M unit) : M unit := if b then m else ret tt.

(** [crypto.randomUUID()] *)
Definition freshUUID (w : World) : M string :=
  n <- gets fresh ;;
  modify (set_fresh (S n)) ;;
  ret (randomUUID w n).

(** The identity of a newly created platform object. *)
Definition freshId : M nat :=
  n <- gets fresh ;;
  modify (set_fresh (S n)) ;;
  ret n.

(** [JSON.parse(text)] *)
Definition parse (text : Text) : Result JSON :=
  match text with
  | TextOf v => Ok v
  | EmptyText | NotJson => Throw SyntaxError
  end.

(** [JSON.parse(localStorage.getItem(key) || '[]')]: a missing key and the
    empty text give the empty array. *)
Definition getItems (key : string) : M JSON :=
  ls <- gets localStorage ;;
  match lookup key ls with
  | None | Some EmptyText => ret (JArr [])
  | Some text => liftR (parse text)
  end.

(** [items.push(x)], which only an array has. *)
Definition push (items : JSON) (x : JSON) : Result (list JSON) :=
  match items with
  | JArr l => Ok (l ++ [x])
  | _ => Throw TypeError
  end.

(** [localStorage.setItem(key, JSON.stringify(v))] *)
Definition setItem (w : World) (key : string) (v : JSON) : M unit :=
  if setItemThrows w key then throw QuotaExceededError
  else modify (fun s =>
                 set_localStorage (obj_set key (TextOf v) (localStorage s)) s).

(** An object literal as it is serialised: a property whose value is
    [undefined] is left out. *)
Fixpoint object (fields : list (string * Value)) : list (string * JSON) :=
  match fields with
  | [] => []
  | (k, Some v) :: r => (k, v) :: object r
  | (_, None) :: r => object r
  end.

(** [Set.prototype.add] and [delete], by node identity; the set keeps the
    order of insertion. *)
Definition hasNode (n : nat) (l : list SourceNode) : bool :=
  existsb (fun x => Nat.eqb (node_id x) n) l.

Definition addNode (x : SourceNode) (l : list SourceNode) : list SourceNode :=
  if hasNode (node_id x) l then l else l ++ [x].

Definition deleteNode (n : nat) (l : list SourceNode) : list SourceNode :=
  filter (fun x => negb (Nat.eqb (node_id x) n)) l.

(** *** The output timeline scheduler *)

Definition stopAllAudio (w : World) : M unit :=
  sources <- gets sourcesRef ;;
  forEach (fun source =>
             tryCatch (call w (E_sourceStop (node_id source)))
                      (fun _ => ret tt))
          sources ;;
  modify (set_sourcesRef []) ;;
  modify (set_nextStartTimeRef 0%Q).

(** [source.onended] *)
Definition onended (node : nat) : M unit :=
  modify (fun s => set_sourcesRef (deleteNode node (sourcesRef s)) s) ;;
  sources <- gets sourcesRef ;;
  when (Nat.eqb (List.length sources) 0) (setIsSpeaking false).

(** Step 3 of the message handler, for a truthy [audioData] and a present
    [audioContextRef.current]. *)
Definition playAudio (w : World) (audioData : string) : M unit :=
  setIsSpeaking true ;;
  (* Math.max(nextStartTimeRef.current, ctx.currentTime) *)
  modify (fun s =>
            set_nextStartTimeRef (Qmax (nextStartTimeRef s) (currentTime w)) s) ;;
  tryCatch
    (buffer <- match decodeAudioData w audioData with
               | Some b => ret b
               | None => throw (Rejected "decodeAudioData")
               end ;;
     node <- freshId ;;
     call w (E_createBufferSource node) ;;
     call w (E_connectDestination node) ;;
     startTime <- gets nextStartTimeRef ;;
     call w (E_sourceStart node startTime) ;;
     (* nextStartTimeRef.current += buffer.duration *)
     modify (fun s =>
               set_nextStartTimeRef
                 (fl (nextStartTimeRef s + duration buffer)) s) ;;
     modify (fun s => set_sourcesRef (addNode (mkSource node buffer)
                                              (sourcesRef s)) s))
    (fun err => emit (E_consoleError "Audio decoding error:")).

(** *** The tool dispatcher *)

(** [persistMemory]: the updater is handed to [setMemories], which queues
    it, and the sentence is returned. *)
Definition persistMemory (content : Value) : M JSON :=
  modify (fun s => set_pendingMemories (pendingMemories s ++ [content]) s) ;;
  ret (JStr "Memory saved successfully.").

(** The updater of [persistMemory] for one [content], run by React on the
    memories of the moment: the identifier and the time are drawn when it
    runs, and it writes [localStorage] itself. *)
Definition memoryUpdater (w : World) (content : Value) : M unit :=
  prev <- gets memories ;;
  id <- freshUUID w ;;
  let newMemory :=
    JObj (object [("id", Some (JStr id)); ("content", content);
                  ("timestamp", Some (JNum (dateNow w)))]) in
  items <- liftR (Gmail.iterate (Some prev)) ;;  (* [...prev, newMemory] *)
  let updated := JArr (items ++ [newMemory]) in
  setItem w MEMORY_KEY updated ;;
  modify (set_memories updated).

(** What a render does to [memories]: React runs the queued updaters in
    the order they were passed.  An exception of an updater leaves the
    render; what React does with the component then is not modelled. *)
Definition render (w : World) : M unit :=
  queue <- gets pendingMemories ;;
  modify (set_pendingMemories []) ;;
  forEach (memoryUpdater w) queue.

Definition SIGN_IN_TO_READ :=
  "Please sign in to Gmail first to read your emails.".
Definition SIGN_IN_TO_SEARCH :=
  "Please sign in to Gmail first to search your emails.".
Definition COULD_NOT_READ :=
  "Sorry, I couldn't read your emails. Please try signing in again.".
Definition COULD_NOT_SEARCH :=
  "Sorry, I couldn't search your emails. Please try again.".

Definition quote : string := String (ascii_of_nat 34) "".

(** The [if ... else if ...] chain on [fc.name] that computes [result].
    [isGmailAuthenticated] is the value the callback closed over. *)
Definition toolResult (w : World) (isGmailAuthenticated : bool)
  (fc : FunctionCall) : M JSON :=
  if String.eqb (fc_name fc) "save_memory" then
    content <- liftR (arg fc "content") ;;
    persistMemory content
  else if String.eqb (fc_name fc) "get_memories" then
    getItems MEMORY_KEY
  else if String.eqb (fc_name fc) "write_email" then
    id <- freshUUID w ;;
    let draft :=
      JObj (obj_set "timestamp" (JNum (dateNow w))
              (obj_spread [("id", JStr id)] (spreadArgs fc))) in
    stored <- getItems DRAFTS_KEY ;;
    drafts <- liftR (push stored draft) ;;
    setItem w DRAFTS_KEY (JArr drafts) ;;
    modify (set_drafts (JArr drafts)) ;;
    subject <- liftR (arg fc "subject") ;;
    ret (JStr ("Email draft created! Subject: " ++ quote
               ++ template subject ++ quote
               ++ ". You can copy it from the drafts section.")%string)
  else if String.eqb (fc_name fc) "create_task" then
    id <- freshUUID w ;;
    let task :=
      JObj (obj_set "timestamp" (JNum (dateNow w))
              (obj_set "completed" (JBool false)
                 (obj_spread [("id", JStr id)] (spreadArgs fc)))) in
    stored <- getItems TASKS_KEY ;;
    tasks <- liftR (push stored task) ;;
    setItem w TASKS_KEY (JArr tasks) ;;
    modify (set_tasks (JArr tasks)) ;;
    title <- liftR (arg fc "title") ;;
    ret (JStr ("Task created: " ++ quote ++ template title ++ quote)%string)
  else if String.eqb (fc_name fc) "read_emails" then
    if negb isGmailAuthenticated then ret (JStr SIGN_IN_TO_READ)
    else
      tryCatch
        (given <- liftR (arg fc "maxResults") ;;
         let maxResults := or_else given (JNum 10) in
         fetchedEmails <- Gmail.getUnreadEmails w (Some maxResults) ;;
         modify (set_emails fetchedEmails) ;;
         summary <- liftR (Gmail.summarizeEmails fetchedEmails) ;;
         ret (JStr summary))
        (fun error => ret (JStr COULD_NOT_READ))
  else if String.eqb (fc_name fc) "search_emails" then
    if negb isGmailAuthenticated then ret (JStr SIGN_IN_TO_SEARCH)
    else
      tryCatch
        (given <- liftR (arg fc "maxResults") ;;
         let maxResults := or_else given (JNum 10) in
         query <- liftR (arg fc "query") ;;
         searchResults <- Gmail.searchEmails w query (Some maxResults) ;;
         modify (set_emails searchResults) ;;
         summary <- liftR (Gmail.summarizeEmails searchResults) ;;
         ret (JStr summary))
        (fun error => ret (JStr COULD_NOT_SEARCH))
  else ret (JStr "ok").

(** The guarded [sessionRef.current.sendToolResponse(...)]. *)
Definition sendToolResponse (w : World) (fc : FunctionCall) (result : JSON)
  : M unit :=
  session <- gets sessionRef ;;
  match session with
  | Some s =>
      call w (E_sendToolResponse (session_id s) (fc_id fc) (fc_name fc) result)
  | None => ret tt
  end.

(** The body of the loop over [message.toolCall.functionCalls]. *)
Definition answerCall (w : World) (isGmailAuthenticated : bool)
  (fc : FunctionCall) : M unit :=
  result <- toolResult w isGmailAuthenticated fc ;;
  sendToolResponse w fc result.

Definition handleToolCalls (w : World) (isGmailAuthenticated : bool)
  (calls : list FunctionCall) : M unit :=
  forEach (answerCall w isGmailAuthenticated) calls.

(** *** The session event router *)

Definition flag (f : ServerContent -> bool) (message : LiveServerMessage)
  : bool :=
  match serverContent message with
  | Some c => f c
  | None => false
  end.

(** 1. Handle Transcriptions *)
Definition handleTranscriptions (message : LiveServerMessage) : M unit :=
  match opt (serverContent message) inputTranscription with
  | Some t => modify (fun s => set_currentInput (currentInput s ++ text t) s)
  | None => ret tt
  end ;;
  match opt (serverContent message) outputTranscription with
  | Some t => modify (fun s => set_currentOutput (currentOutput s ++ text t) s)
  | None => ret tt
  end ;;
  when (flag turnComplete message)
       (modify (set_currentInput "") ;; modify (set_currentOutput "")).

(** 2. Handle Interruption *)
Definition handleInterruption (w : World) (message : LiveServerMessage)
  : M unit :=
  when (flag interrupted message) (stopAllAudio w ;; setIsSpeaking false).

(** 3. Handle Audio Output *)
Definition handleAudioOutput (w : World) (message : LiveServerMessage)
  : M unit :=
  audioData <- liftR (audioDataOf message) ;;
  ctx <- gets audioContextRef ;;
  match audioData, ctx with
  | Some audioData, Some _ =>
      when (negb (String.eqb audioData "")) (playAudio w audioData)
  | _, _ => ret tt
  end.

(** 4. Handle Function Calls *)
Definition handleFunctionCalls (w : World) (isGmailAuthenticated : bool)
  (message : LiveServerMessage) : M unit :=
  match toolCall message with
  | Some tc =>
      match functionCalls tc with
      | Some calls => handleToolCalls w isGmailAuthenticated calls
      | None => throw TypeError  (* [undefined] is not iterable *)
      end
  | None => ret tt
  end.

Definition handleSessionMessage (w : World) (isGmailAuthenticated : bool)
  (message : LiveServerMessage) : M unit :=
  handleTranscriptions message ;;
  handleInterruption w message ;;
  handleAudioOutput w message ;;
  handleFunctionCalls w isGmailAuthenticated message.

(** *** The capture pipeline *)

(** What [sessionPromise] has settled to when a tick's continuation runs. *)
Inductive Settled : Type :=
| Fulfilled (s : option Session)
| Failed.

(** [scriptProcessor.onaudioprocess], closed over [sessionPromise]:
    [sessionPromise.then(s => s?.sendRealtimeInput({media})).catch(() => {})]
    under the test of [sessionRef.current]. *)
Definition onaudioprocess (w : World) (sessionPromise : Settled)
  (inputData : AudioFrame) : M unit :=
  current <- gets sessionRef ;;
  match current with
  | Some _ =>
      let pcmBlob := createBlob w inputData in
      tryCatch
        (match sessionPromise with
         | Fulfilled (Some s) =>
             call w (E_sendRealtimeInput (session_id s) pcmBlob)
         | Fulfilled None => ret tt
         | Failed => throw (Rejected "sessionPromise")
         end)
        (fun _ => ret tt)
  | None => ret tt
  end.

Definition cleanupAudioNodes (w : World) : M unit :=
  nodes <- gets audioNodesRef ;;
  match nodes with
  | Some n =>
      tryCatch
        (call w (E_disconnect (nodes_processor n)) ;;
         call w (E_disconnect (nodes_source n)))
        (fun _ => ret tt (* Already disconnected, ignore *)) ;;
      modify (set_audioNodesRef None)
  | None => ret tt
  end.

(** *** The session lifecycle *)

Definition KEY_MISSING :=
  "Please add your Google Gemini API key to the .env.local file. Get one at https://aistudio.google.com/app/apikey".

(** [!apiKey || apiKey === '...' || apiKey.trim() === ''] *)
Definition invalidKey (apiKey : option string) : bool :=
  match apiKey with
  | None => true
  | Some k =>
      String.eqb k "" || String.eqb k PLACEHOLDER_KEY
      || String.eqb (trim k) ""
  end.

(** [startConnection], with what the transport's callbacks do between the
    call of [ai.live.connect] and the moment [await sessionPromise]
    resumes: the SDK, which is not among the sources, decides which of
    them have fired by then.  An exception of a callback goes to the SDK,
    not to [startConnection]. *)
Definition startConnectionDuring (w : World) (callbacks : M unit) : M unit :=
  tryCatch
    (setStatus CONNECTING ;;
     let apiKey := VITE_API_KEY w in
     (* Validate API key *)
     when (invalidKey apiKey) (throw (Error KEY_MISSING)) ;;
     emit E_getUserMedia ;;
     stream <- match getUserMedia w with
               | Some st => ret st
               | None => throw (Rejected "getUserMedia")
               end ;;
     modify (set_streamRef (Some stream)) ;;
     inputCtx <- freshId ;;
     call w (E_newAudioContext 16000) ;;
     outputCtx <- freshId ;;
     call w (E_newAudioContext 24000) ;;
     modify (set_audioContextRef (Some (mkContexts inputCtx outputCtx))) ;;
     emit (E_liveConnect (match apiKey with Some k => k | None => "" end)) ;;
     tryCatch callbacks (fun _ => ret tt) ;;
     session <- match liveConnect w with
                | Some s => ret s
                | None => throw (Rejected "connect")
                end ;;
     modify (set_sessionRef (Some session)))
    (fun err =>
       emit (E_consoleError "Failed to start session:") ;;
       setStatus ERROR).

(** [startConnection] when no callback fires before it returns. *)
Definition startConnection (w : World) : M unit :=
  startConnectionDuring w (ret tt).

(** The transport's callbacks. *)
Definition onopen (w : World) : M unit :=
  setStatus CONNECTED ;;
  source <- freshId ;;
  call w (E_createMediaStreamSource source) ;;
  scriptProcessor <- freshId ;;
  call w (E_createScriptProcessor scriptProcessor) ;;
  call w (E_connect source scriptProcessor) ;;
  call w (E_connectDestination scriptProcessor) ;;
  modify (set_audioNodesRef (Some (mkNodes source scriptProcessor))).

Definition onerror (w : World) : M unit :=
  emit (E_consoleError "Live session error:") ;;
  cleanupAudioNodes w ;;
  setStatus ERROR.

Definition onclose (w : World) : M unit :=
  cleanupAudioNodes w ;;
  stopAllAudio w ;;
  setStatus IDLE.

Definition endConnection (w : World) : M unit :=
  (* Disconnect audio nodes first to stop sending data *)
  cleanupAudioNodes w ;;
  session <- gets sessionRef ;;
  match session with
  | Some s =>
      call w (E_sessionClose (session_id s)) ;;
      modify (set_sessionRef None)
  | None => ret tt
  end ;;
  stream <- gets streamRef ;;
  match stream with
  | Some st =>
      forEach (fun track => call w (E_trackStop track)) (tracks st) ;;
      modify (set_streamRef None)
  | None => ret tt
  end ;;
  stopAllAudio w ;;
  setStatus IDLE.

(** [handleGmailAuth]; the [isGmailAuthenticated] state it also sets is
    not the one the message handler reads (see [onmessage]). *)
Definition handleGmailAuth (token : string) : M unit :=
  Gmail.setAccessToken token.

(** [onmessage: handleSessionMessage].  The handler is made by
    [useCallback] with the dependencies [persistMemory] and [stopAllAudio],
    both made with no dependency: it is the function of the first render,
    for which [isGmailAuthenticated] is [useState(false)]. *)
Definition onmessage (w : World) (message : LiveServerMessage) : M unit :=
  handleSessionMessage w false message.

(** *** Runs of several events *)

(** The store after a handler, whether it returned or threw. *)
Definition exec {A} (m : M A) (s : Store) : Store := snd (m s).

(** Messages are handled in arrival order, each with what the platform
    answers at that moment. *)
Fixpoint runMessages (isGmailAuthenticated : bool)
  (l : list (World * LiveServerMessage)) (s : Store) : Store :=
  match l with
  | [] => s
  | (w, m) :: r =>
      runMessages isGmailAuthenticated r
        (exec (handleSessionMessage w isGmailAuthenticated m) s)
  end.

(** Capture ticks, in order. *)
Fixpoint runTicks (sessionPromise : Settled)
  (l : list (World * AudioFrame)) (s : Store) : Store :=
  match l with
  | [] => s
  | (w, frame) :: r =>
      runTicks sessionPromise r (exec (onaudioprocess w sessionPromise frame) s)
  end.

(** The result of each tick of a run, in order. *)
Fixpoint tickResults (sessionPromise : Settled)
  (l : list (World * AudioFrame)) (s : Store) : list (Result unit) :=
  match l with
  | [] => []
  | (w, frame) :: r =>
      fst (onaudioprocess w sessionPromise frame s)
      :: tickResults sessionPromise r
           (exec (onaudioprocess w sessionPromise frame) s)
  end.

(** *** Reading a trace *)

(** The [when] of each [source.start(when)], in order. *)
Fixpoint startTimes (t : list Effect) : list Q :=
  match t with
  | [] => []
  | E_sourceStart _ x :: r => x :: startTimes r
  | _ :: r => startTimes r
  end.

(** The [(id, name, result)] of each tool response sent, in order. *)
Fixpoint responses (t : list Effect) : list (string * string * JSON) :=
  match t with
  | [] => []
  | E_sendToolResponse _ id name result :: r => (id, name, result) :: responses r
  | _ :: r => responses r
  end.

(** The frames handed to the transport, in order. *)
Fixpoint sentFrames (t : list Effect) : list WireAudioBlob :=
  match t with
  | [] => []
  | E_sendRealtimeInput _ media :: r => media :: sentFrames r
  | _ :: r => sentFrames r
  end.

(** The Gmail requests made, in order. *)
Fixpoint requests (t : list Effect) : list Request :=
  match t with
  | [] => []
  | E_fetch q :: r => q :: requests r
  | _ :: r => requests r
  end.

Definition isCleanup (e : Effect) : bool :=
  match e with
  | E_disconnect _ | E_sessionClose _ | E_trackStop _ | E_sourceStop _ => true
  | _ => false
  end.

Fixpoint sum (l : list Q) : Q :=
  match l with
  | [] => 0%Q
  | x :: r => (x + sum r)%Q
  end.

End App.

Import App.

(** ** The properties, stated *)

(** What a run appended to the trace. *)
Definition emittedBy (s s' : Store) : list Effect :=
  skipn (List.length (trace s)) (trace s').

(** *** The output timeline *)

(** An audio chunk as the handler meets it: the platform at its arrival,
    the message that carries it, the buffer it decodes to. *)
Definition Chunk : Type := World * LiveServerMessage * AudioBuffer.

Definition arrival (c : Chunk) : World * LiveServerMessage := fst c.
Definition chunkDuration (c : Chunk) : Q := duration (snd c).

Definition isSourceCall (e : Effect) : bool :=
  match e with
  | E_createBufferSource _ | E_connectDestination _ | E_sourceStart _ _ => true
  | _ => false
  end.

(** The handler schedules the chunk: the message has no interruption flag,
    its payload is not empty and decodes to the buffer, and the platform
    accepts the calls on the new source node. *)
Definition scheduled (c : Chunk) : Prop :=
  let '(w, m, b) := c in
  flag interrupted m = false /\
  (exists a, audioDataOf m = Ok (Some a) /\ a <> "" /\
             decodeAudioData w a = Some b) /\
  (forall e, isSourceCall e = true -> throws w e = false).

(** A message with no interruption flag and no audio: a transcript, a
    turn end, a tool call. *)
Definition silent (m : LiveServerMessage) : Prop :=
  flag interrupted m = false /\
  (audioDataOf m = Ok None \/ audioDataOf m = Ok (Some "")).

(** A message of a run: one whose audio the handler schedules, or one
    without audio. *)
Inductive Step : Type :=
| audio (c : Chunk)
| other (w : World) (m : LiveServerMessage).

Definition arrivalOf (x : Step) : World * LiveServerMessage :=
  match x with
  | audio c => arrival c
  | other w m => (w, m)
  end.

Definition stepAsMarked (x : Step) : Prop :=
  match x with
  | audio c => scheduled c
  | other _ m => silent m
  end.

(** The audio chunks of a run, in order. *)
Fixpoint chunksOf (run : list Step) : list Chunk :=
  match run with
  | [] => []
  | audio c :: r => c :: chunksOf r
  | other _ _ :: r => chunksOf r
  end.

(** [x + y] on doubles. *)
Definition addDoubles (x y : Q) : Q := fl (x + y).

(** The running sums of the durations from a first start time, each sum
    made as the code makes it: [t], [t + d1], [(t + d1) + d2], ... in
    double arithmetic. *)
Fixpoint runningSums (t : Q) (durations : list Q) : list Q :=
  match durations with
  | [] => []
  | d :: r => t :: runningSums (addDoubles t d) r
  end.

(** The start times of the chunks of a run are the running sums of their
    durations, from [max(cursor, deviceNow)] of the first chunk: every
    chunk starts where the one before it ends. *)
Definition playsBackToBack (isGmailAuthenticated : bool) (s : Store)
  (run : list Step) : Prop :=
  match chunksOf run with
  | [] => True
  | first :: _ =>
      startTimes
        (emittedBy s (runMessages isGmailAuthenticated (map arrivalOf run) s))
      = runningSums
          (Qmax (nextStartTimeRef s) (currentTime (fst (fst first))))
          (map chunkDuration (chunksOf run))
  end.

(** Every chunk arrives while the audio scheduled before it is still
    playing: its [deviceNow] is not later than the cursor it meets. *)
Fixpoint arrivesInTime (cursor : Q) (chunks : list Chunk) : Prop :=
  match chunks with
  | [] => True
  | c :: r =>
      (currentTime (fst (fst c)) <= cursor)%Q /\
      arrivesInTime (addDoubles cursor (chunkDuration c)) r
  end.

(** The cursor does not go back across a run of [m]. *)
Definition cursorNonDecreasing {A} (m : M A) (s : Store) : Prop :=
  (nextStartTimeRef s <= nextStartTimeRef (exec m s))%Q.

(** *** Tool calls *)

Definition recognized (name : string) : bool :=
  String.eqb name "save_memory" || String.eqb name "get_memories"
  || String.eqb name "write_email" || String.eqb name "create_task"
  || String.eqb name "read_emails" || String.eqb name "search_emails".

(** A response answers a call: same id, same name, and the result ["ok"]
    for a name that is not recognized. *)
Definition answers (fc : FunctionCall) (r : string * string * JSON) : Prop :=
  fst (fst r) = fc_id fc /\
  snd (fst r) = fc_name fc /\
  (recognized (fc_name fc) = false -> snd r = JStr "ok").

(** The handler returns, and the responses it sent are one per call of the
    batch, call by call. *)
Definition batchAnswered (w : World) (isGmailAuthenticated : bool)
  (message : LiveServerMessage) (s : Store) : Prop :=
  forall tc calls,
    toolCall message = Some tc -> functionCalls tc = Some calls ->
    fst (handleSessionMessage w isGmailAuthenticated message s) = Ok tt /\
    Forall2 answers calls
      (responses
         (emittedBy s (exec (handleSessionMessage w isGmailAuthenticated message) s))).

(** The operations that read a property of [fc.args] outside any [try]. *)
Definition readsArgs (fc : FunctionCall) : bool :=
  String.eqb (fc_name fc) "save_memory" || String.eqb (fc_name fc) "write_email"
  || String.eqb (fc_name fc) "create_task".

(** The message is one the handler can take apart: a model turn carries
    its [parts], the tool call its list of calls, and a call its [args]
    when the operation reads them. *)
Definition wellFormed (message : LiveServerMessage) : Prop :=
  (exists a, audioDataOf message = Ok a) /\
  forall tc, toolCall message = Some tc ->
    exists calls,
      functionCalls tc = Some calls /\
      Forall (fun fc => readsArgs fc = true -> fc_args fc <> None) calls.

(** The text under a key parses ([JSON.parse] does not throw), or the key
    is not there, or its text is empty. *)
Definition parses (key : string) (s : Store) : Prop :=
  lookup key (localStorage s) <> Some NotJson.

(** The same, and what it parses to is an array. *)
Definition holdsArray (key : string) (s : Store) : Prop :=
  match lookup key (localStorage s) with
  | None | Some EmptyText | Some (TextOf (JArr _)) => True
  | _ => False
  end.

(** [localStorage] holds what the dispatcher can read, and takes what it
    writes. *)
Definition storageUsable (w : World) (s : Store) : Prop :=
  parses MEMORY_KEY s /\ holdsArray TASKS_KEY s /\ holdsArray DRAFTS_KEY s /\
  setItemThrows w TASKS_KEY = false /\ setItemThrows w DRAFTS_KEY = false.

Definition isMailCall (fc : FunctionCall) : bool :=
  String.eqb (fc_name fc) "read_emails" || String.eqb (fc_name fc) "search_emails".

(** The call a mail operation makes on the Gmail service. *)
Definition mailRequest (w : World) (fc : FunctionCall) : M (list Email) :=
  given <- liftR (arg fc "maxResults") ;;
  let maxResults := or_else given (JNum 10) in
  if String.eqb (fc_name fc) "read_emails"
  then Gmail.getUnreadEmails w (Some maxResults)
  else
    query <- liftR (arg fc "query") ;;
    Gmail.searchEmails w query (Some maxResults).

Definition signInAdvisory (fc : FunctionCall) : string :=
  if String.eqb (fc_name fc) "read_emails"
  then SIGN_IN_TO_READ else SIGN_IN_TO_SEARCH.

Definition failureAdvisory (fc : FunctionCall) : string :=
  if String.eqb (fc_name fc) "read_emails"
  then COULD_NOT_READ else COULD_NOT_SEARCH.

(** *** End of connection *)

(** The calls of the four cleanup steps on a store, when each step runs:
    capture nodes, transport, microphone tracks, playback handles.  The
    two [disconnect()] calls share one [try]: when the processor's throws,
    the source's is not made. *)
Definition cleanupCalls (w : World) (s : Store) : list Effect :=
  match audioNodesRef s with
  | Some n =>
      if throws w (E_disconnect (nodes_processor n))
      then [E_disconnect (nodes_processor n)]
      else [E_disconnect (nodes_processor n); E_disconnect (nodes_source n)]
  | None => []
  end
  ++ match sessionRef s with
     | Some x => [E_sessionClose (session_id x)]
     | None => []
     end
  ++ match streamRef s with
     | Some st => map E_trackStop (tracks st)
     | None => []
     end
  ++ map (fun x => E_sourceStop (node_id x)) (sourcesRef s).

(** The end-connection path ran all four steps, in order, and left no
    node, no session, no stream and no playback handle in the refs; the
    audio contexts, which no step closes, are where they were. *)
Definition fullCleanup (w : World) (s : Store) : Prop :=
  let s' := exec (endConnection w) s in
  filter isCleanup (emittedBy s s') = cleanupCalls w s /\
  audioNodesRef s' = None /\
  sessionRef s' = None /\
  streamRef s' = None /\
  sourcesRef s' = [] /\
  nextStartTimeRef s' = 0%Q /\
  audioContextRef s' = audioContextRef s.

(** *** Credential *)

(** The key is missing, is the placeholder, or is blank. *)
Definition credentialUnusable (apiKey : option string) : Prop :=
  apiKey = None \/
  apiKey = Some PLACEHOLDER_KEY \/
  exists k, apiKey = Some k /\ trim k = "".

(** *** Capture *)

Definition sendOf (session : Session) (tick : World * AudioFrame) : Effect :=
  E_sendRealtimeInput (session_id session) (createBlob (fst tick) (snd tick)).

(** ** Definitions used by the proofs *)

(** [m] relates every store to the one it leaves, thrown or not. *)
Definition preserves (R : Store -> Store -> Prop) {A} (m : M A) : Prop :=
  forall s, R s (snd (m s)).

(** [m] always returns. *)
Definition returns {A} (m : M A) : Prop :=
  forall s, exists a, fst (m s) = Ok a.

(** Only effects accepted by [ok] were appended to the trace. *)
Definition onlyEmits (ok : Effect -> bool) (s s' : Store) : Prop :=
  exists t, trace s' = trace s ++ t /\ forallb ok t = true.

(** The refs and the status are the same, and only effects accepted by
    [ok] were made. *)
Record quiet (ok : Effect -> bool) (s s' : Store) : Prop := mkQuiet {
  q_status : status s' = status s;
  q_context : audioContextRef s' = audioContextRef s;
  q_cursor : nextStartTimeRef s' = nextStartTimeRef s;
  q_sources : sourcesRef s' = sourcesRef s;
  q_session : sessionRef s' = sessionRef s;
  q_stream : streamRef s' = streamRef s;
  q_nodes : audioNodesRef s' = audioNodesRef s;
  q_token : accessToken s' = accessToken s;
  q_trace : onlyEmits ok s s'
}.

(** The session, the devices and the status are the same, and only effects
    accepted by [ok] were made; the scheduler may have moved. *)
Record steady (ok : Effect -> bool) (s s' : Store) : Prop := mkSteady {
  st_status : status s' = status s;
  st_context : audioContextRef s' = audioContextRef s;
  st_session : sessionRef s' = sessionRef s;
  st_stream : streamRef s' = streamRef s;
  st_nodes : audioNodesRef s' = audioNodesRef s;
  st_token : accessToken s' = accessToken s;
  st_trace : onlyEmits ok s s'
}.

(** The cursor is where it was. *)
Definition sameCursor (s s' : Store) : Prop :=
  nextStartTimeRef s' = nextStartTimeRef s.

Definition isMailEffect (e : Effect) : bool :=
  match e with
  | E_fetch _ | E_consoleError _ => true
  | _ => false
  end.

Definition isToolEffect (e : Effect) : bool :=
  match e with
  | E_fetch _ | E_consoleError _ | E_sendToolResponse _ _ _ _ => true
  | _ => false
  end.

Definition isStopEffect (e : Effect) : bool :=
  match e with
  | E_sourceStop _ => true
  | _ => false
  end.

Definition isAudioEffect (e : Effect) : bool :=
  match e with
  | E_sourceStop _ | E_createBufferSource _ | E_connectDestination _
  | E_sourceStart _ _ | E_consoleError _ => true
  | _ => false
  end.

(** The start times the handler gives to a run of chunks it schedules,
    from a cursor: each chunk starts at [max(cursor, deviceNow)] and moves
    the cursor to its end. *)
Fixpoint scheduleFrom (cursor : Q) (chunks : list Chunk) : list Q :=
  match chunks with
  | [] => []
  | c :: r =>
      let startTime := Qmax cursor (currentTime (fst (fst c))) in
      startTime :: scheduleFrom (addDoubles startTime (chunkDuration c)) r
  end.

(** ** Concrete inputs *)

(** Half a second of audio at 24 kHz. *)
Definition halfSecond : AudioBuffer := mkBuffer 12000 24000.

(** A platform on which nothing fails: the device clock reads [now], every
    payload decodes to half a second, the network gives no answer. *)
Definition calmWorld (now : Q) : World :=
  mkWorld now 0%Z (fun n => string_of_nat n) (fun _ => false)
          (fun _ => Some halfSecond)
          (fun _ => mkBlob "audio/pcm;rate=16000" "")
          (fun s => Some s) (fun _ => None) None None None
          now (fun _ => false).

Definition audioMessage : LiveServerMessage :=
  mkMessage
    (Some (mkServerContent None None false false
             (Some (mkContent
                      (Some [mkPart (Some (mkInline (Some "AAAA")))])))))
    None.

Definition interruptMessage : LiveServerMessage :=
  mkMessage (Some (mkServerContent None None false true None)) None.

Definition callsMessage (calls : list FunctionCall) : LiveServerMessage :=
  mkMessage None (Some (mkToolCall (Some calls))).

(** The store once a connection is open: contexts created, session handle
    assigned. *)
Definition connectedStore : Store :=
  set_sessionRef (Some (mkSession 7))
    (set_audioContextRef (Some (mkContexts 0 1))
       (set_status CONNECTED initialStore)).

(** The same before the session handle is assigned. *)
Definition openingStore : Store := set_sessionRef None connectedStore.

(** The store after one chunk has been scheduled at time 0. *)
Definition playingStore : Store :=
  exec (handleSessionMessage (calmWorld 0) false audioMessage) connectedStore.

Definition chunkAt (now : Q) : Chunk := (calmWorld now, audioMessage, halfSecond).

(** A message with a sentence for each transcript buffer and no turn end. *)
Definition deltaMessage (user model : string) : LiveServerMessage :=
  mkMessage
    (Some (mkServerContent (Some (mkText user)) (Some (mkText model))
             false false None))
    None.

(** Three chunks, each arriving before the previous ones have played, with
    a transcript between the first two. *)
Definition timelyChunks : list Step :=
  [audio (chunkAt 0); other (calmWorld (1 # 8)) (deltaMessage "hello" "hi");
   audio (chunkAt (1 # 4)); audio (chunkAt 1)].

(** Two chunks, the second arriving five seconds after the first. *)
Definition lateChunks : list Step := [audio (chunkAt 0); audio (chunkAt 5)].

(** A tenth of a second of audio at 24 kHz. *)
Definition tenth : AudioBuffer := mkBuffer 2400 24000.

(** A world at device time 0 whose decoder yields a tenth of a second. *)
Definition tenthWorld : World :=
  mkWorld 0%Q 0%Z (fun n => string_of_nat n) (fun _ => false)
          (fun _ => Some tenth)
          (fun _ => mkBlob "audio/pcm;rate=16000" "")
          (fun s => Some s) (fun _ => None) None None None
          0%Q (fun _ => false).

(** Four chunks of a tenth of a second, all arriving at time 0. *)
Definition tenths : list Step :=
  repeat (audio (tenthWorld, audioMessage, tenth)) 4.

(** A world in which the decoding of a chunk takes a second: the clock is
    at 0 when the handler reads it and at 1 when the source is started. *)
Definition slowWorld : World :=
  mkWorld 0%Q 0%Z (fun n => string_of_nat n) (fun _ => false)
          (fun _ => Some halfSecond)
          (fun _ => mkBlob "audio/pcm;rate=16000" "")
          (fun s => Some s) (fun _ => None) None None None
          1%Q (fun _ => false).

Definition mixedCalls : list FunctionCall :=
  [mkCall "a" "create_task" (Some [("title", JStr "Buy milk")]);
   mkCall "b" "open_door" (Some [])].

(** The store in the middle of a conversation: capture nodes connected,
    session handle assigned, one microphone track, one chunk playing. *)
Definition busyStore : Store :=
  set_audioNodesRef (Some (mkNodes 10 11))
    (set_streamRef (Some (mkStream [3])) playingStore).

(** A platform whose calls throw exactly where [bad] says. *)
Definition faultyWorld (bad : Effect -> bool) : World :=
  mkWorld 0%Q 0%Z (fun n => string_of_nat n) bad
          (fun _ => Some halfSecond)
          (fun _ => mkBlob "audio/pcm;rate=16000" "")
          (fun s => Some s) (fun _ => None) None None None
          0%Q (fun _ => false).

(** The transport's [close()] throws. *)
Definition closeThrows (e : Effect) : bool :=
  match e with
  | E_sessionClose _ => true
  | _ => false
  end.

(** Disconnecting a node and stopping a playback handle throw. *)
Definition devicesThrow (e : Effect) : bool :=
  match e with
  | E_disconnect _ | E_sourceStop _ => true
  | _ => false
  end.

(** A platform with a blank API key and a microphone that would be
    granted. *)
Definition blankKeyWorld : World :=
  mkWorld 0%Q 0%Z (fun n => string_of_nat n) (fun _ => false)
          (fun _ => Some halfSecond)
          (fun _ => mkBlob "audio/pcm;rate=16000" "")
          (fun s => Some s) (fun _ => None)
          (Some "   ") (Some (mkStream [3])) (Some (mkSession 7))
          0%Q (fun _ => false).

(** The transport refuses every frame. *)
Definition sendThrows (e : Effect) : bool :=
  match e with
  | E_sendRealtimeInput _ _ => true
  | _ => false
  end.

Definition threeTicks : list (World * AudioFrame) :=
  [(faultyWorld sendThrows, [0%Q]); (calmWorld 0, [1%Q]);
   (faultyWorld sendThrows, [(-1)%Q])].

(** A message body of 600 characters. *)
Definition longBody : string := string_of_list_ascii (repeat "A"%char 600).

Definition sampleMessage : JSON :=
  JObj [("id", JStr "m1");
        ("snippet", JStr "hello");
        ("labelIds", JArr [JStr "UNREAD"]);
        ("payload",
         JObj [("headers",
                JArr [JObj [("name", JStr "From");
                            ("value", JStr "Ann <ann@example.com>")];
                      JObj [("name", JStr "Subject");
                            ("value", JStr "Lunch")]]);
               ("body", JObj [("data", JStr longBody)])])].

(** A platform whose network answers as [answer] says. *)
Definition mailWorld (answer : Request -> option JSON) : World :=
  mkWorld 0%Q 0%Z (fun n => string_of_nat n) (fun _ => false)
          (fun _ => Some halfSecond)
          (fun _ => mkBlob "audio/pcm;rate=16000" "")
          (fun s => Some s) answer None None None
          0%Q (fun _ => false).

(** One message listed, with [sampleMessage] as its details. *)
Definition oneMessage (r : Request) : option JSON :=
  match r with
  | ListMessages _ _ _ => Some (JObj [("messages", JArr [JObj [("id", JStr "m1")]])])
  | GetMessage _ _ => Some sampleMessage
  end.

(** A list response without a [messages] field. *)
Definition emptyInbox (r : Request) : option JSON :=
  Some (JObj [("resultSizeEstimate", JNum 0)]).

(** Every request is rejected. *)
Definition offline (r : Request) : option JSON := None.

Definition signedInStore : Store := set_accessToken (Some "token") connectedStore.

(** The body of a record is the first 500 characters of the body that the
    details of the message hold: all of it when it is not longer. *)
Definition truncatedBodyOf (w : World) (detail : JSON) (e : Email) : Prop :=
  exists full,
    andThen (member (Some detail) "payload") (Gmail.extractBody w) = Ok full /\
    email_body e = substring 0 500 full /\
    String.length (email_body e) = Nat.min 500 (String.length full) /\
    prefix (email_body e) full = true.

(** The records returned are those of the detail requests made (the
    requests after the list request), one each and in order, with the body
    truncated. *)
Definition bodiesTruncated (w : World) (made : list Request) (es : list Email)
  : Prop :=
  Forall2 (fun r e => exists detail,
                        fetchJson w r = Some detail /\ truncatedBodyOf w detail e)
          (tl made) es /\
  Forall (fun e => String.length (email_body e) <= 500) es.

(** A [read_emails] call with an empty [args]. *)
Definition offlineRead : FunctionCall := mkCall "c" "read_emails" (Some []).

(** The transport refuses every tool response. *)
Definition responseThrows (e : Effect) : bool :=
  match e with
  | E_sendToolResponse _ _ _ _ => true
  | _ => false
  end.

(** ** More of [App.tsx] and its collaborators *)

(** *** Persistence and view *)

(** [if (saved) set(JSON.parse(saved))] of the mount effect: a missing key
    and the empty text are skipped, a text that is not JSON throws. *)
Definition loadKey (key : string) (set : JSON -> Store -> Store) : M unit :=
  ls <- gets localStorage ;;
  match lookup key ls with
  | None | Some EmptyText => ret tt
  | Some saved =>
      v <- liftR (parse saved) ;;
      modify (set v)
  end.

(** The first half of the mount effect: what is saved under the three keys
    replaces the initial state. *)
Definition loadPersisted : M unit :=
  loadKey MEMORY_KEY set_memories ;;
  loadKey TASKS_KEY set_tasks ;;
  loadKey DRAFTS_KEY set_drafts.

(** [[...memories].reverse().slice(0, 4)]: the cards of the notebook, for
    memories that are an array. *)
Definition notebookCards (memories : list JSON) : list JSON :=
  firstn 4 (rev memories).

(** What is saved under a key, as the dispatcher reads it:
    [JSON.parse(localStorage.getItem(key) || '[]')], when that parses. *)
Definition stored (key : string) (s : Store) : option JSON :=
  match lookup key (localStorage s) with
  | None | Some EmptyText => Some (JArr [])
  | Some (TextOf v) => Some v
  | Some NotJson => None
  end.

(** The three lists of the state are what [localStorage] holds. *)
Definition synced (s : Store) : Prop :=
  stored MEMORY_KEY s = Some (memories s) /\
  stored TASKS_KEY s = Some (tasks s) /\
  stored DRAFTS_KEY s = Some (drafts s).

(** The record a call stored last under a key. *)
Definition lastStored (key : string) (s : Store) : option JSON :=
  match stored key s with
  | Some (JArr l) => last (map Some l) None
  | _ => None
  end.

(** *** Transcripts *)

Definition inputDelta (m : LiveServerMessage) : string :=
  match opt (serverContent m) inputTranscription with
  | Some t => text t
  | None => ""
  end.

Definition outputDelta (m : LiveServerMessage) : string :=
  match opt (serverContent m) outputTranscription with
  | Some t => text t
  | None => ""
  end.

(** *** The scheduler *)

(** Playback ends, handle by handle. *)
Fixpoint runEnded (nodes : list nat) (s : Store) : Store :=
  match nodes with
  | [] => s
  | n :: r => runEnded r (exec (onended n) s)
  end.


(** *** The mail collaborator *)

Definition tokenOf (r : Request) : string :=
  match r with
  | ListMessages _ _ token => token
  | GetMessage _ token => token
  end.

Definition isFetchWith (token : string) (e : Effect) : bool :=
  match e with
  | E_fetch r => String.eqb (tokenOf r) token
  | _ => false
  end.

Definition senderIsString (e : Email) : Prop :=
  exists f, email_from e = Some (JStr f).

(** The detail request for a listed message. *)
Definition detailRequest (token : string) (message : JSON) : Request :=
  GetMessage
    (match member (Some message) "id" with
     | Ok id => template id
     | Throw _ => ""
     end)
    token.

(** A listed message whose details arrive and parse. *)
Definition readable (w : World) (token : string) (message : JSON) : Prop :=
  message <> JNull /\
  exists detail email,
    fetchJson w (detailRequest token message) = Some detail /\
    Gmail.parseEmail w detail = Ok email.

Definition hasChar (c : ascii) (s : string) : bool :=
  existsb (Ascii.eqb c) (list_ascii_of_string s).

Definition hasLineTerminator (s : string) : bool :=
  existsb is_line_terminator (list_ascii_of_string s).

(** The messages written with [console.error], in order. *)
Fixpoint errorsLogged (t : list Effect) : list string :=
  match t with
  | [] => []
  | E_consoleError msg :: r => msg :: errorsLogged r
  | _ :: r => errorsLogged r
  end.

(** The list request of the two operations. *)
Definition listRequest (q : string) (maxResults : Value) (token : string)
  : Request :=
  ListMessages q (to_string (Gmail.orDefault maxResults (JNum 10))) token.

(** *** Frames *)

(** [f] reads the same in both stores. *)
Definition keeps {X : Type} (f : Store -> X) (s s' : Store) : Prop :=
  f s' = f s.

(** What the three lists of the state and [localStorage] hold. *)
Definition notebook (s : Store) :=
  (localStorage s, memories s, tasks s, drafts s, pendingMemories s).

Definition transcripts (s : Store) := (currentInput s, currentOutput s).

(** Two messages listed; the details of the first arrive, those of the
    second do not. *)
Definition secondFails (r : Request) : option JSON :=
  match r with
  | ListMessages _ _ _ =>
      Some (JObj [("messages", JArr [JObj [("id", JStr "m1")];
                                     JObj [("id", JStr "m2")];
                                     JObj [("id", JStr "m3")]])])
  | GetMessage id _ => if String.eqb id "m1" then Some sampleMessage else None
  end.

(** The text a transcript buffer holds after a run of messages: the deltas
    received since the last message that completed a turn. *)
Fixpoint transcriptAfter (delta : LiveServerMessage -> string)
  (l : list (World * LiveServerMessage)) (buffer : string) : string :=
  match l with
  | [] => buffer
  | (_, m) :: r =>
      transcriptAfter delta r
        (if flag turnComplete m then "" else (buffer ++ delta m)%string)
  end.

Definition turnCompleteMessage : LiveServerMessage :=
  mkMessage (Some (mkServerContent (Some (mkText "lost")) None true false None))
            None.

(** A platform on which no payload decodes. *)
Definition deafWorld (now : Q) : World :=
  mkWorld now 0%Z (fun n => string_of_nat n) (fun _ => false)
          (fun _ => None)
          (fun _ => mkBlob "audio/pcm;rate=16000" "")
          (fun s => Some s) (fun _ => None) None None None
          now (fun _ => false).

(** *** The session lifecycle *)

(** Everything [startConnection] asks of the platform is granted. *)
Definition grants (w : World) (stream : MediaStream) (session : Session) : Prop :=
  invalidKey (VITE_API_KEY w) = false /\
  getUserMedia w = Some stream /\
  (forall rate, throws w (E_newAudioContext rate) = false) /\
  liveConnect w = Some session.

(** Calls that release the microphone or the transport. *)
Definition isRelease (e : Effect) : bool :=
  match e with
  | E_trackStop _ | E_sessionClose _ => true
  | _ => false
  end.

(** A platform with an API key, on which the microphone is granted and the
    connection resolves to [session] (or is rejected). *)
Definition keyedWorld (session : option Session) : World :=
  mkWorld 0%Q 0%Z (fun n => string_of_nat n) (fun _ => false)
          (fun _ => Some halfSecond)
          (fun _ => mkBlob "audio/pcm;rate=16000" "")
          (fun s => Some s) (fun _ => None)
          (Some "AIza-key") (Some (mkStream [3; 4])) session
          0%Q (fun _ => false).

(** ** [wake-word-detector.ts] *)

Module WakeWord.

(** Calls the detector makes: on the recognition object, on its two
    callbacks, on the timer and on the console. *)
Inductive Call : Type :=
| recognitionStart (r : nat)
| recognitionStop (r : nat)
| listeningStateChange (isListening : bool)
| wakeWordDetected
| restartIn100ms
| consoleError (msg : string)
| consoleLog (msg : string).

Record Detector : Type := mkDetector {
  recognition : option nat;
  isListening : bool;
  calls : list Call
}.

(** The browser at one call: whether it has speech recognition, the
    object [new SpeechRecognition()] gives, whether [start()] throws. *)
Record Browser : Type := mkBrowser {
  supported : bool;
  newRecognition : nat;
  startThrows : bool
}.

Definition does (c : Call) (d : Detector) : Detector :=
  mkDetector (recognition d) (isListening d) (calls d ++ [c]).

Definition setRecognition (r : option nat) (d : Detector) : Detector :=
  mkDetector r (isListening d) (calls d).

Definition setListening (b : bool) (d : Detector) : Detector :=
  mkDetector (recognition d) b (calls d).

(** [try { this.recognition.start(); } catch (error) { handler }] *)
Definition tryStart (b : Browser) (r : nat) (handler : Detector -> Detector)
  (d : Detector) : Detector :=
  let d' := does (recognitionStart r) d in
  if startThrows b then handler d' else d'.

Definition start (b : Browser) (d : Detector) : Detector :=
  if negb (supported b)
  then does (consoleError "Speech recognition not supported in this browser") d
  else
    tryStart b (newRecognition b)
      (does (consoleError "Failed to start wake word detection:"))
      (setRecognition (Some (newRecognition b)) d).

(** [s.split(' ')]: the pieces between the spaces. *)
Fixpoint split (l : list ascii) : list (list ascii) :=
  match l with
  | [] => [[]]
  | c :: r =>
      match split r with
      | piece :: pieces =>
          if Ascii.eqb c " "%char then [] :: piece :: pieces
          else (c :: piece) :: pieces
      | [] => [[c]]
      end
  end.

Definition isWakeWord (transcript : string) : bool :=
  includes "hey aura" transcript
  || includes "hi aura" transcript
  || includes "okay aura" transcript
  || (includes "aura" transcript
      && Nat.leb (List.length (split (list_ascii_of_string transcript))) 3).

(** [Array.from(event.results).map(result => result[0].transcript)
      .join('').toLowerCase()] *)
Definition transcriptOf (results : list string) : string :=
  toLowerCase (String.concat "" results).

Definition onstart (d : Detector) : Detector :=
  does (consoleLog "Wake word detection started")
    (does (listeningStateChange true) (setListening true d)).

Definition onresult (results : list string) (d : Detector) : Detector :=
  if isWakeWord (transcriptOf results)
  then does wakeWordDetected (does (consoleLog "Wake word detected:") d)
  else d.

Definition onerror (error : string) (d : Detector) : Detector :=
  let d' := does (consoleError "Wake word detection error:") d in
  if String.eqb error "no-speech" then does restartIn100ms d' else d'.

Definition onend (d : Detector) : Detector :=
  let d' := does (listeningStateChange false) (setListening false d) in
  match recognition d' with
  | Some _ => does restartIn100ms d'
  | None => d'
  end.

Definition restart (b : Browser) (d : Detector) : Detector :=
  match recognition d with
  | Some r => if negb (isListening d) then tryStart b r (fun x => x) d else d
  | None => d
  end.

Definition stop (d : Detector) : Detector :=
  match recognition d with
  | Some r =>
      does (listeningStateChange false)
        (setListening false (setRecognition None (does (recognitionStop r) d)))
  | None => d
  end.

Definition getIsListening (d : Detector) : bool := isListening d.

(** What can happen to a detector once constructed, other than a call of
    [start()]. *)
Inductive Event : Type :=
| Started
| Result (results : list string)
| Errored (error : string)
| Ended
| TimerFired (b : Browser)
| Stopped.

Definition step (e : Event) (d : Detector) : Detector :=
  match e with
  | Started => onstart d
  | Result results => onresult results d
  | Errored error => onerror error d
  | Ended => onend d
  | TimerFired b => restart b d
  | Stopped => stop d
  end.

Definition run (events : list Event) (d : Detector) : Detector :=
  fold_left (fun d e => step e d) events d.

Definition isStart (c : Call) : bool :=
  match c with
  | recognitionStart _ => true
  | _ => false
  end.

Definition newDetector : Detector := mkDetector None false [].

(** The spaces of a transcript. *)
Definition spaces (transcript : string) : nat :=
  count_occ ascii_dec (list_ascii_of_string transcript) " "%char.

(** What the listening-state callback reported last; [false] before its
    first call, which is the state the application starts with. *)
Definition lastReported (l : list Call) : bool :=
  fold_left (fun reported c =>
               match c with
               | listeningStateChange b => b
               | _ => reported
               end) l false.

End WakeWord.

(** ** The mount effect of [App.tsx] *)

(** The effect that runs once after the first render: it reads the three
    keys, then makes the wake word detector and starts it ([isMuted] is
    [useState(false)] in that render).  A text that is not JSON ends the
    effect before the detector is made.  The result, the store, and
    [wakeWordDetectorRef.current]. *)
Definition mountEffect (b : WakeWord.Browser) (s : Store)
  : Result unit * Store * option WakeWord.Detector :=
  let isMuted := false in
  match loadPersisted s with
  | (Ok _, s') =>
      if negb isMuted
      then (Ok tt, s', Some (WakeWord.start b WakeWord.newDetector))
      else (Ok tt, s', None)
  | (Throw e, s') => (Throw e, s', None)
  end.

(** A store whose tasks cannot be read back. *)
Definition brokenTasks : Store :=
  set_localStorage [(TASKS_KEY, NotJson)] initialStore.

(** A store with one memory saved by an earlier visit. *)
Definition returningStore : Store :=
  set_localStorage
    [(MEMORY_KEY, TextOf (JArr [JObj [("content", JStr "likes green tea")]]))]
    initialStore.

(** * Proofs *)

(** ** Doubles *)

Local Open Scope Q_scope.


Lemma rne_comp (a b : Q) : a == b -> rne a = rne b.
Proof.
  intros H. unfold rne. rewrite (Qfloor_comp _ _ H).
  assert (E : Qcompare (a - inject_Z (Qfloor b)) (1 # 2)
              = Qcompare (b - inject_Z (Qfloor b)) (1 # 2))
    by (apply Qcompare_comp; [now rewrite H | reflexivity]).
  now rewrite E.
Qed.

Lemma rne_Z (z : Z) : rne (inject_Z z) = z.
Proof.
  unfold rne. rewrite Qfloor_Z.
  assert (E : Qcompare (inject_Z z - inject_Z z) (1 # 2) = Lt)
    by (apply (proj1 (Qlt_alt _ _)); lra).
  now rewrite E.
Qed.

Lemma rne_bounds (q : Q) : (Qfloor q <= rne q <= Qfloor q + 1)%Z.
Proof.
  unfold rne. destruct (Qcompare _ _); [destruct (Z.even _) | | ]; lia.
Qed.

Lemma rne_mono (a b : Q) : a <= b -> (rne a <= rne b)%Z.
Proof.
  intros H. pose proof (Qfloor_resp_le _ _ H) as Hf.
  destruct (Z.eq_dec (Qfloor a) (Qfloor b)) as [E | E].
  - unfold rne. rewrite E.
    destruct (Qcompare_spec (a - inject_Z (Qfloor b)) (1 # 2));
      destruct (Qcompare_spec (b - inject_Z (Qfloor b)) (1 # 2));
      try destruct (Z.even (Qfloor b)); try lia; exfalso; lra.
  - pose proof (rne_bounds a). pose proof (rne_bounds b). lia.
Qed.

Lemma pow2_pos (e : Z) : 0 < 2 ^ e.
Proof. apply Qpower_0_lt. reflexivity. Qed.

Lemma round_to_mono (e : Z) (a b : Q) : a <= b -> round_to e a <= round_to e b.
Proof.
  intros H. unfold round_to. pose proof (pow2_pos e) as He.
  apply Qmult_le_compat_r; [ | lra].
  rewrite <- Zle_Qle. apply rne_mono.
  unfold Qdiv. apply Qmult_le_compat_r; [exact H | ].
  apply Qlt_le_weak, Qinv_lt_0_compat, He.
Qed.

(** A power of two that the grid holds is left where it is. *)
Lemma round_to_pow2 (e k : Z) : (0 <= k)%Z -> round_to e (2 ^ (e + k)) == 2 ^ (e + k).
Proof.
  intros Hk. unfold round_to. pose proof (pow2_pos e) as He.
  assert (E : 2 ^ (e + k) / 2 ^ e == inject_Z (2 ^ k)).
  { rewrite Zpower_Qpower by exact Hk. change (inject_Z 2) with 2.
    rewrite Qpower_plus by discriminate.
    generalize dependent (2 ^ e). generalize (2 ^ k).
    intros b a Ha. field. lra. }
  rewrite (rne_comp _ _ E), rne_Z, Zpower_Qpower by exact Hk.
  change (inject_Z 2) with 2.
  rewrite Qpower_plus by discriminate. ring.
Qed.

Lemma round_to_0 (e : Z) : round_to e 0 == 0.
Proof.
  unfold round_to.
  assert (E : 0 / 2 ^ e == inject_Z 0) by (unfold Qdiv; ring).
  rewrite (rne_comp _ _ E), rne_Z. ring.
Qed.

Lemma round_to_opp_pow2 (e k : Z) :
  (0 <= k)%Z -> round_to e (- 2 ^ (e + k)) == - 2 ^ (e + k).
Proof.
  intros Hk. unfold round_to. pose proof (pow2_pos e) as He.
  assert (E : - 2 ^ (e + k) / 2 ^ e == inject_Z (- 2 ^ k)).
  { rewrite inject_Z_opp, Zpower_Qpower by exact Hk. change (inject_Z 2) with 2.
    rewrite Qpower_plus by discriminate.
    generalize dependent (2 ^ e). generalize (2 ^ k).
    intros b a Ha. field. lra. }
  rewrite (rne_comp _ _ E), rne_Z, inject_Z_opp, Zpower_Qpower by exact Hk.
  change (inject_Z 2) with 2.
  rewrite Qpower_plus by discriminate. ring.
Qed.

(** ** The binade *)

Lemma pow2_le_ratio (a b : Z) (n d : positive) :
  (0 <= a)%Z -> (0 <= b)%Z ->
  (2 ^ a * Z.pos d <= Z.pos n * 2 ^ b)%Z -> 2 ^ (a - b) <= Z.pos n # d.
Proof.
  intros Ha Hb H.
  rewrite Qpower_minus by discriminate.
  rewrite <- !(Zpower_Qpower 2) by assumption.
  assert (0 < 2 ^ b)%Z by (apply Z.pow_pos_nonneg; lia).
  apply Qle_shift_div_r; [rewrite <- (Zlt_Qlt 0); assumption | ].
  unfold Qle, Qmult, inject_Z. cbn [Qnum Qden]. rewrite Pos.mul_1_r. lia.
Qed.

Lemma ratio_lt_pow2 (a b : Z) (n d : positive) :
  (0 <= a)%Z -> (0 <= b)%Z ->
  (Z.pos n * 2 ^ b < 2 ^ a * Z.pos d)%Z -> Z.pos n # d < 2 ^ (a - b).
Proof.
  intros Ha Hb H.
  rewrite Qpower_minus by discriminate.
  rewrite <- !(Zpower_Qpower 2) by assumption.
  assert (0 < 2 ^ b)%Z by (apply Z.pow_pos_nonneg; lia).
  apply Qlt_shift_div_l; [rewrite <- (Zlt_Qlt 0); assumption | ].
  unfold Qlt, Qmult, inject_Z. cbn [Qnum Qden]. rewrite Pos.mul_1_r. lia.
Qed.

Lemma binade_spec (n d : positive) :
  2 ^ binade n d <= Z.pos n # d /\ Z.pos n # d < 2 ^ (binade n d + 1).
Proof.
  unfold binade.
  destruct (Z.log2_spec (Z.pos n) eq_refl) as [Hn1 Hn2].
  destruct (Z.log2_spec (Z.pos d) eq_refl) as [Hd1 Hd2].
  pose proof (Z.log2_nonneg (Z.pos n)) as Hln.
  pose proof (Z.log2_nonneg (Z.pos d)) as Hld.
  set (ln := Z.log2 (Z.pos n)) in *. set (ld := Z.log2 (Z.pos d)) in *.
  assert (0 < 2 ^ ln)%Z by (apply Z.pow_pos_nonneg; lia).
  assert (0 < 2 ^ ld)%Z by (apply Z.pow_pos_nonneg; lia).
  destruct (Qle_bool (2 ^ (ln - ld)) (Z.pos n # d)) eqn:E.
  - split; [now apply Qle_bool_iff | ].
    replace (ln - ld + 1)%Z with (Z.succ ln - ld)%Z by lia.
    apply ratio_lt_pow2; try lia. nia.
  - split.
    + replace (ln - ld - 1)%Z with (ln - Z.succ ld)%Z by lia.
      apply pow2_le_ratio; try lia. nia.
    + replace (ln - ld - 1 + 1)%Z with (ln - ld)%Z by lia.
      apply Qnot_le_lt. intros Hle. apply Qle_bool_iff in Hle. congruence.
Qed.

Lemma binade_mono (n d n' d' : positive) :
  Z.pos n # d <= Z.pos n' # d' -> (binade n d <= binade n' d')%Z.
Proof.
  intros H.
  destruct (binade_spec n d) as [L _]. destruct (binade_spec n' d') as [_ U].
  assert (Hlt : 2 ^ binade n d < 2 ^ (binade n' d' + 1)) by lra.
  apply Qpower_lt_compat_l_inv in Hlt; [lia | reflexivity].
Qed.

Lemma expo_mono (n d n' d' : positive) :
  Z.pos n # d <= Z.pos n' # d' -> (expo n d <= expo n' d')%Z.
Proof. intros H. pose proof (binade_mono _ _ _ _ H). unfold expo. lia. Qed.

(** A positive rational is below the end of the binade of its exponent,
    and, above the subnormals, not below its start. *)
Lemma expo_upper (n d : positive) : Z.pos n # d < 2 ^ (expo n d + 53).
Proof.
  destruct (binade_spec n d) as [_ U].
  eapply Qlt_le_trans; [exact U | ].
  apply Qpower_le_compat_l; [unfold expo; lia | discriminate].
Qed.

Lemma expo_lower (n d : positive) :
  (-1074 < expo n d)%Z -> 2 ^ (expo n d + 52) <= Z.pos n # d.
Proof.
  intros H. destruct (binade_spec n d) as [L _].
  replace (expo n d + 52)%Z with (binade n d) by (unfold expo in *; lia).
  exact L.
Qed.

(** ** Rounding is monotone *)

Lemma fl_pos (n d : positive) : fl (Z.pos n # d) = round_to (expo n d) (Z.pos n # d).
Proof. reflexivity. Qed.

Lemma fl_neg (n d : positive) : fl (Z.neg n # d) = round_to (expo n d) (Z.neg n # d).
Proof. reflexivity. Qed.

Lemma neg_opp (n d : positive) : Z.neg n # d == - (Z.pos n # d).
Proof. reflexivity. Qed.

Lemma fl_pos_mono (n d n' d' : positive) :
  Z.pos n # d <= Z.pos n' # d' -> fl (Z.pos n # d) <= fl (Z.pos n' # d').
Proof.
  intros H. rewrite !fl_pos. pose proof (expo_mono _ _ _ _ H) as He.
  destruct (Z.eq_dec (expo n d) (expo n' d')) as [E | E].
  - rewrite E. now apply round_to_mono.
  - apply Qle_trans with (2 ^ (expo n d + 53)).
    + rewrite <- (round_to_pow2 (expo n d) 53) by lia.
      apply round_to_mono, Qlt_le_weak, expo_upper.
    + apply Qle_trans with (2 ^ (expo n' d' + 52)).
      * apply Qpower_le_compat_l; [lia | discriminate].
      * rewrite <- (round_to_pow2 (expo n' d') 52) at 1 by lia.
        apply round_to_mono, expo_lower.
        unfold expo in *. lia.
Qed.

Lemma fl_neg_mono (n d n' d' : positive) :
  Z.neg n # d <= Z.neg n' # d' -> fl (Z.neg n # d) <= fl (Z.neg n' # d').
Proof.
  intros H. rewrite !fl_neg.
  assert (H' : Z.pos n' # d' <= Z.pos n # d) by (rewrite !neg_opp in H; lra).
  pose proof (expo_mono _ _ _ _ H') as He.
  destruct (Z.eq_dec (expo n d) (expo n' d')) as [E | E].
  - rewrite E. now apply round_to_mono.
  - apply Qle_trans with (- 2 ^ (expo n d + 52)).
    + rewrite <- (round_to_opp_pow2 (expo n d) 52) by lia.
      apply round_to_mono. rewrite neg_opp.
      apply Qopp_le_compat, expo_lower. unfold expo in *. lia.
    + apply Qle_trans with (- 2 ^ (expo n' d' + 53)).
      * apply Qopp_le_compat, Qpower_le_compat_l; [lia | discriminate].
      * rewrite <- (round_to_opp_pow2 (expo n' d') 53) at 1 by lia.
        apply round_to_mono. rewrite neg_opp.
        apply Qopp_le_compat, Qlt_le_weak, expo_upper.
Qed.

Lemma fl_pos_nonneg (n d : positive) : 0 <= fl (Z.pos n # d).
Proof.
  rewrite fl_pos, <- (round_to_0 (expo n d)) at 1.
  apply round_to_mono. discriminate.
Qed.

Lemma fl_neg_nonpos (n d : positive) : fl (Z.neg n # d) <= 0.
Proof.
  rewrite fl_neg, <- (round_to_0 (expo n d)).
  apply round_to_mono. discriminate.
Qed.

(** The rounding of the doubles is monotone. *)
Lemma fl_mono (x y : Q) : x <= y -> fl x <= fl y.
Proof.
  destruct x as [[ | n | n] d], y as [[ | n' | n'] d']; intros H.
  - apply Qle_refl.
  - apply fl_pos_nonneg.
  - exfalso. revert H. unfold Qle. cbn. lia.
  - exfalso. revert H. unfold Qle. cbn. lia.
  - now apply fl_pos_mono.
  - exfalso. revert H. unfold Qle. cbn. lia.
  - apply fl_neg_nonpos.
  - apply Qle_trans with 0; [apply fl_neg_nonpos | apply fl_pos_nonneg].
  - now apply fl_neg_mono.
Qed.

Lemma fl_nonneg (x : Q) : 0 <= x -> 0 <= fl x.
Proof. intros H. apply (fl_mono 0 x H). Qed.

Lemma fl_comp (x y : Q) : x == y -> fl x == fl y.
Proof. intros H. apply Qle_antisym; apply fl_mono; rewrite H; apply Qle_refl. Qed.

(** ** Doubles are left where they are *)

Lemma binade_unique (n d : positive) (k : Z) :
  2 ^ k <= Z.pos n # d -> Z.pos n # d < 2 ^ (k + 1) -> binade n d = k.
Proof.
  intros L U. destruct (binade_spec n d) as [L' U'].
  assert (H1 : 2 ^ k < 2 ^ (binade n d + 1)) by lra.
  assert (H2 : 2 ^ binade n d < 2 ^ (k + 1)) by lra.
  apply Qpower_lt_compat_l_inv in H1; [ | reflexivity].
  apply Qpower_lt_compat_l_inv in H2; [ | reflexivity].
  lia.
Qed.

(** A positive number with a significand of at most 53 bits and an
    exponent that the format has is a double. *)
Lemma fl_grid_pos (n d : positive) (m e : Z) :
  Z.pos n # d == inject_Z m * 2 ^ e ->
  (0 < m <= 2 ^ 53)%Z -> (-1074 <= e)%Z ->
  (2 ^ 52 <= m)%Z \/ e = (-1074)%Z ->
  fl (Z.pos n # d) == Z.pos n # d.
Proof.
  intros Hq Hm He Hnorm. rewrite fl_pos. pose proof (pow2_pos e) as Hpe.
  destruct (Z.eq_dec m (2 ^ 53)) as [Emax | Emax].
  - (* the significand is 2^53: one exponent up *)
    assert (Hq' : Z.pos n # d == 2 ^ (e + 53)).
    { rewrite Hq, Emax, Qpower_plus by discriminate.
      rewrite (Zpower_Qpower 2 53) by lia. change (inject_Z 2) with 2. ring. }
    assert (Hb : binade n d = (e + 53)%Z).
    { apply binade_unique; rewrite Hq'; [apply Qle_refl | ].
      apply Qpower_lt_compat_l; [lia | reflexivity]. }
    assert (Hx : expo n d = (e + 1)%Z) by (unfold expo; lia).
    rewrite Hx.
    transitivity (round_to (e + 1) (2 ^ (e + 1 + 52))).
    + unfold round_to.
      assert (E : (Z.pos n # d) / 2 ^ (e + 1) == 2 ^ (e + 1 + 52) / 2 ^ (e + 1))
        by (rewrite Hq'; replace (e + 1 + 52)%Z with (e + 53)%Z by lia;
            reflexivity).
      now rewrite (rne_comp _ _ E).
    + rewrite round_to_pow2 by lia. rewrite Hq'.
      now replace (e + 1 + 52)%Z with (e + 53)%Z by lia.
  - assert (Hlt : Z.pos n # d < 2 ^ (e + 53)).
    { rewrite Hq, Qpower_plus by discriminate.
      rewrite <- (Zpower_Qpower 2 53) by lia.
      assert (inject_Z m < inject_Z (2 ^ 53)) by (rewrite <- Zlt_Qlt; lia).
      nra. }
    assert (Hx : expo n d = e).
    { destruct (Z_le_gt_dec (2 ^ 52) m) as [Hn | Hs].
      - assert (Hb : binade n d = (e + 52)%Z).
        { apply binade_unique.
          - rewrite Hq, Qpower_plus by discriminate.
            rewrite <- (Zpower_Qpower 2 52) by lia.
            assert (inject_Z (2 ^ 52) <= inject_Z m) by (rewrite <- Zle_Qle; lia).
            nra.
          - now replace (e + 52 + 1)%Z with (e + 53)%Z by lia. }
        unfold expo. lia.
      - assert (e = (-1074)%Z) by (destruct Hnorm; [lia | assumption]).
        assert (Hb : (binade n d < e + 52)%Z).
        { destruct (binade_spec n d) as [L _].
          assert (Hl : Z.pos n # d < 2 ^ (e + 52)).
          { rewrite Hq, Qpower_plus by discriminate.
            rewrite <- (Zpower_Qpower 2 52) by lia.
            assert (inject_Z m < inject_Z (2 ^ 52)) by (rewrite <- Zlt_Qlt; lia).
            nra. }
          assert (Hp : 2 ^ binade n d < 2 ^ (e + 52)) by lra.
          apply Qpower_lt_compat_l_inv in Hp; [lia | reflexivity]. }
        unfold expo. lia. }
    rewrite Hx. unfold round_to.
    assert (E : (Z.pos n # d) / 2 ^ e == inject_Z m) by (rewrite Hq; field; lra).
    rewrite (rne_comp _ _ E), rne_Z. now rewrite Hq.
Qed.

(** What [fl] gives for a positive rational is such a number. *)
Lemma fl_pos_shape (n d : positive) :
  let e := expo n d in
  let m := rne ((Z.pos n # d) / 2 ^ e) in
  (0 <= m <= 2 ^ 53)%Z /\ ((2 ^ 52 <= m)%Z \/ e = (-1074)%Z).
Proof.
  cbv zeta. pose proof (pow2_pos (expo n d)) as He.
  set (e := expo n d) in *. set (x := Z.pos n # d).
  assert (Hx0 : 0 <= x / 2 ^ e).
  { apply Qle_shift_div_l; [exact He | ]. rewrite Qmult_0_l. discriminate. }
  assert (Hx1 : x / 2 ^ e <= inject_Z (2 ^ 53)).
  { apply Qle_shift_div_r; [exact He | ].
    rewrite (Zpower_Qpower 2 53) by lia. change (inject_Z 2) with 2.
    rewrite <- Qpower_plus by discriminate.
    replace (53 + e)%Z with (e + 53)%Z by lia.
    apply Qlt_le_weak, expo_upper. }
  split; [split | ].
  - rewrite <- (rne_Z 0). now apply rne_mono.
  - rewrite <- (rne_Z (2 ^ 53)). now apply rne_mono.
  - destruct (Z.eq_dec e (-1074)) as [E | E]; [now right | left].
    rewrite <- (rne_Z (2 ^ 52)). apply rne_mono.
    apply Qle_shift_div_l; [exact He | ].
    rewrite (Zpower_Qpower 2 52) by lia. change (inject_Z 2) with 2.
    rewrite <- Qpower_plus by discriminate.
    replace (52 + e)%Z with (e + 52)%Z by lia.
    apply expo_lower. unfold e, expo in *. lia.
Qed.

Lemma Qfloor_unique (z : Z) (q : Q) :
  inject_Z z <= q -> q < inject_Z (z + 1) -> Qfloor q = z.
Proof.
  intros L U. pose proof (Qfloor_le q) as L'. pose proof (Qlt_floor q) as U'.
  assert (H1 : inject_Z (Qfloor q) < inject_Z (z + 1)) by lra.
  assert (H2 : inject_Z z < inject_Z (Qfloor q + 1)) by lra.
  rewrite <- Zlt_Qlt in H1, H2. lia.
Qed.

Lemma rne_opp (q : Q) : rne (- q) = (- rne q)%Z.
Proof.
  pose proof (Qfloor_le q) as L. pose proof (Qlt_floor q) as U.
  destruct (Qeq_dec q (inject_Z (Qfloor q))) as [E | E].
  - rewrite (rne_comp q _ E), rne_Z.
    assert (E' : - q == inject_Z (- Qfloor q))
      by (rewrite inject_Z_opp; now rewrite <- E).
    now rewrite (rne_comp _ _ E'), rne_Z.
  - assert (Hlt : inject_Z (Qfloor q) < q).
    { apply Qle_lteq in L. destruct L as [L | L]; [exact L | ].
      elim E. now symmetry. }
    assert (Hf : Qfloor (- q) = (- Qfloor q - 1)%Z).
    { rewrite inject_Z_plus in U. change (inject_Z 1) with 1 in U.
      apply Qfloor_unique.
      - unfold Z.sub. rewrite inject_Z_plus, inject_Z_opp.
        change (inject_Z (- (1))) with (- (1)). lra.
      - replace (- Qfloor q - 1 + 1)%Z with (- Qfloor q)%Z by lia.
        rewrite inject_Z_opp. lra. }
    unfold rne. rewrite Hf. set (f := Qfloor q) in *.
    assert (Hr : - q - inject_Z (- f - 1) == 1 - (q - inject_Z f)).
    { unfold Z.sub. rewrite inject_Z_plus, inject_Z_opp.
      change (inject_Z (- (1))) with (- (1)). ring. }
    assert (Hev : Z.even (- f - 1) = negb (Z.even f)).
    { rewrite Z.even_sub, Z.even_opp. cbn. now destruct (Z.even f). }
    rewrite Hev.
    destruct (Qcompare_spec (- q - inject_Z (- f - 1)) (1 # 2)) as [C | C | C];
      destruct (Qcompare_spec (q - inject_Z f) (1 # 2)) as [C' | C' | C'];
      rewrite Hr in C; try (exfalso; lra);
      try destruct (Z.even f); cbn [negb]; lia.
Qed.

Lemma fl_opp (x : Q) : fl (- x) == - fl x.
Proof.
  assert (H : forall e q, round_to e (- q) == - round_to e q).
  { intros e q. unfold round_to.
    assert (E : - q / 2 ^ e == - (q / 2 ^ e)) by (unfold Qdiv; ring).
    rewrite (rne_comp _ _ E), rne_opp, inject_Z_opp. ring. }
  destruct x as [[ | n | n] d].
  - reflexivity.
  - change (- (Z.pos n # d)) with (Z.neg n # d). rewrite fl_neg, fl_pos.
    rewrite <- H. reflexivity.
  - change (- (Z.neg n # d)) with (Z.pos n # d). rewrite fl_neg, fl_pos.
    rewrite <- H. reflexivity.
Qed.

Lemma fl_pos_idem (n d : positive) : isDouble (fl (Z.pos n # d)).
Proof.
  unfold isDouble.
  destruct (fl_pos_shape n d) as ((Hm0 & Hm1) & Hnorm).
  pose proof (fl_pos n d) as Hfl. unfold round_to in Hfl.
  set (e := expo n d) in *. set (m := rne ((Z.pos n # d) / 2 ^ e)) in *.
  pose proof (pow2_pos e) as He.
  destruct (fl (Z.pos n # d)) as [[ | n' | n'] d'] eqn:E.
  - reflexivity.
  - apply (fl_grid_pos n' d' m e).
    + now rewrite Hfl.
    + split; [ | exact Hm1].
      destruct (Z.eq_dec m 0) as [Z0 | Z0]; [ | lia].
      exfalso. rewrite Z0 in Hfl.
      assert (Hz : Z.pos n' # d' == 0) by (rewrite Hfl; ring).
      discriminate Hz.
    + unfold e, expo. lia.
    + exact Hnorm.
  - exfalso. pose proof (fl_pos_nonneg n d) as H0. rewrite E in H0.
    revert H0. unfold Qle. cbn. lia.
Qed.

(** Rounding twice is rounding once. *)
Lemma fl_idem (x : Q) : isDouble (fl x).
Proof.
  destruct x as [[ | n | n] d].
  - reflexivity.
  - apply fl_pos_idem.
  - unfold isDouble.
    assert (E : fl (Z.neg n # d) == - fl (Z.pos n # d))
      by (rewrite <- fl_opp; reflexivity).
    rewrite (fl_comp _ _ E), fl_opp, E. apply Qopp_comp. apply fl_pos_idem.
Qed.

Lemma isDouble_0 : isDouble 0.
Proof. reflexivity. Qed.

(** The rounding on values whose doubles are known: 0.1; 0.1 + 0.2, which
    is 0.30000000000000004; two ties, which go to the even significand;
    half of the smallest subnormal, which goes to 0. *)
Example fl_known_values :
  fl (1 # 10) == 3602879701896397 # 36028797018963968 /\
  fl (fl (1 # 10) + fl (2 # 10)) == 5404319552844596 # 18014398509481984 /\
  fl (inject_Z (2 ^ 53 + 1)) == inject_Z (2 ^ 53) /\
  fl (inject_Z (2 ^ 53 + 3)) == inject_Z (2 ^ 53 + 4) /\
  fl (1 # 2 ^ 1075) == 0 /\
  fl (3 # 2 ^ 1075) == 1 # 2 ^ 1073.
Proof. repeat split; vm_compute; reflexivity. Qed.

Lemma isDouble_max (x y : Q) : isDouble x -> isDouble y -> isDouble (Qmax x y).
Proof.
  unfold isDouble. intros Hx Hy.
  destruct (Q.max_spec x y) as [(_ & E) | (_ & E)].
  - apply Qeq_trans with (fl y); [apply fl_comp, E | ].
    apply Qeq_trans with y; [exact Hy | symmetry; exact E].
  - apply Qeq_trans with (fl x); [apply fl_comp, E | ].
    apply Qeq_trans with x; [exact Hx | symmetry; exact E].
Qed.

Local Close Scope Q_scope.

(** ** Reasoning about handlers *)

Ltac unfold_monad :=
  unfold call, when, liftR in *;
  unfold emit in *;
  unfold bind, ret, throw, tryCatch, gets, modify in *.

(** Computes setters and projections on a store, innermost first. *)
Ltac store_norm :=
  cbv beta iota delta
    [set_status set_isSpeaking set_memories set_currentInput set_currentOutput
     set_tasks set_drafts set_emails set_audioContextRef set_nextStartTimeRef
     set_sourcesRef set_sessionRef set_streamRef set_audioNodesRef
     set_localStorage set_accessToken set_fresh set_trace set_pendingMemories
     status isSpeaking memories currentInput currentOutput tasks drafts emails
     audioContextRef nextStartTimeRef sourcesRef sessionRef streamRef
     audioNodesRef localStorage accessToken fresh trace pendingMemories].

(** Runs the monad's operations and the setters on a store, innermost
    first. *)
Ltac run_norm :=
  cbv beta iota delta
    [bind ret throw tryCatch gets modify emit liftR when fst snd
     set_status set_isSpeaking set_memories set_currentInput set_currentOutput
     set_tasks set_drafts set_emails set_audioContextRef set_nextStartTimeRef
     set_sourcesRef set_sessionRef set_streamRef set_audioNodesRef
     set_localStorage set_accessToken set_fresh set_trace set_pendingMemories
     status isSpeaking memories currentInput currentOutput tasks drafts emails
     audioContextRef nextStartTimeRef sourcesRef sessionRef streamRef
     audioNodesRef localStorage accessToken fresh trace pendingMemories].

Lemma set_trace_same (s : Store) : set_trace (trace s ++ []) s = s.
Proof. destruct s; unfold set_trace; simpl; now rewrite app_nil_r. Qed.

Lemma set_trace_twice (s : Store) (a b : list Effect) :
  set_trace (trace (set_trace (trace s ++ a) s) ++ b) (set_trace (trace s ++ a) s)
  = set_trace (trace s ++ a ++ b) s.
Proof. destruct s; unfold set_trace; simpl; now rewrite app_assoc. Qed.

Lemma emittedBy_app (s s' : Store) (t : list Effect) :
  trace s' = trace s ++ t -> emittedBy s s' = t.
Proof.
  intros H. unfold emittedBy. rewrite H.
  generalize (trace s) as l. induction l as [|e l IH]; simpl; auto.
Qed.

(** The loop of [stopAllAudio]: one [stop] per handle, none of which can
    end the loop. *)
Lemma stop_loop (w : World) (l : list SourceNode) (s : Store) :
  forEach (fun source =>
             tryCatch (call w (E_sourceStop (node_id source)))
                      (fun _ => ret tt)) l s
  = (Ok tt, set_trace (trace s ++ map (fun x => E_sourceStop (node_id x)) l) s).
Proof.
  revert s. induction l as [|x l IH]; intros s; simpl.
  - unfold ret. now rewrite set_trace_same.
  - unfold_monad.
    destruct (throws w (E_sourceStop (node_id x))); simpl;
      rewrite IH; f_equal; apply (set_trace_twice s [_]).
Qed.

Lemma stopAllAudio_run (w : World) (s : Store) :
  stopAllAudio w s
  = (Ok tt,
     set_nextStartTimeRef 0%Q
       (set_sourcesRef []
          (set_trace (trace s ++ map (fun x => E_sourceStop (node_id x))
                                     (sourcesRef s)) s))).
Proof.
  unfold stopAllAudio. unfold bind at 1. unfold gets at 1.
  unfold bind at 1. rewrite stop_loop. reflexivity.
Qed.

(** C4.  [stopAllAudio] (the scheduler's interrupt) returns without an
    exception whatever the active set holds and whichever of the [stop]
    calls throw; afterwards the active set is empty and the cursor is 0,
    and every handle of the set had its [stop] called once. *)
Theorem stopAllAudio_never_throws (w : World) (s : Store) :
  fst (stopAllAudio w s) = Ok tt /\
  sourcesRef (exec (stopAllAudio w) s) = [] /\
  nextStartTimeRef (exec (stopAllAudio w) s) = 0%Q /\
  emittedBy s (exec (stopAllAudio w) s)
  = map (fun x => E_sourceStop (node_id x)) (sourcesRef s).
Proof.
  unfold exec. rewrite stopAllAudio_run. simpl. repeat split.
  apply emittedBy_app. reflexivity.
Qed.

(** *** Properties that compose along a handler *)

Section Preserves.

(** A relation between the store before and after, closed under
    sequencing. *)
Variable R : Store -> Store -> Prop.
Hypothesis R_refl : forall s, R s s.
Hypothesis R_trans : forall a b c, R a b -> R b c -> R a c.

Lemma preserves_ret {A} (a : A) : preserves R (ret a).
Proof. intros s. apply R_refl. Qed.

Lemma preserves_throw {A} (e : Exn) : preserves R (@throw A e).
Proof. intros s. apply R_refl. Qed.

Lemma preserves_gets {A} (f : Store -> A) : preserves R (gets f).
Proof. intros s. apply R_refl. Qed.

Lemma preserves_liftR {A} (r : Result A) : preserves R (liftR r).
Proof. intros s. apply R_refl. Qed.

Lemma preserves_bind {A B} (m : M A) (k : A -> M B) :
  preserves R m -> (forall a, preserves R (k a)) -> preserves R (bind m k).
Proof.
  intros Hm Hk s. unfold bind. specialize (Hm s).
  destruct (m s) as [[a|e] s1]; simpl in *; auto.
  eapply R_trans; [exact Hm | apply Hk].
Qed.

Lemma preserves_tryCatch {A} (m : M A) (h : Exn -> M A) :
  preserves R m -> (forall e, preserves R (h e)) -> preserves R (tryCatch m h).
Proof.
  intros Hm Hh s. unfold tryCatch. specialize (Hm s).
  destruct (m s) as [[a|e] s1]; simpl in *; auto.
  eapply R_trans; [exact Hm | apply Hh].
Qed.

Lemma preserves_forEach {A} (f : A -> M unit) (l : list A) :
  (forall x, preserves R (f x)) -> preserves R (forEach f l).
Proof.
  intros Hf. induction l as [|x l IH]; simpl.
  - apply preserves_ret.
  - apply preserves_bind; auto.
Qed.

Lemma preserves_when (b : bool) (m : M unit) :
  preserves R m -> preserves R (when b m).
Proof. intros Hm. destruct b; simpl; auto using preserves_ret. Qed.

End Preserves.

Lemma returns_ret {A} (a : A) : returns (ret a).
Proof. intros s. now exists a. Qed.

Lemma returns_gets {A} (f : Store -> A) : returns (gets f).
Proof. intros s. now exists (f s). Qed.

Lemma returns_modify (f : Store -> Store) : returns (modify f).
Proof. intros s. now exists tt. Qed.

Lemma returns_emit (e : Effect) : returns (emit e).
Proof. apply returns_modify. Qed.

Lemma returns_bind {A B} (m : M A) (k : A -> M B) :
  returns m -> (forall a, returns (k a)) -> returns (bind m k).
Proof.
  intros Hm Hk s. unfold bind. destruct (Hm s) as [a Ha].
  destruct (m s) as [[a'|e] s1]; simpl in *; try discriminate.
  apply Hk.
Qed.

Lemma returns_tryCatch {A} (m : M A) (h : Exn -> M A) :
  (forall e, returns (h e)) -> returns (tryCatch m h).
Proof.
  intros Hh s. unfold tryCatch.
  destruct (m s) as [[a|e] s1]; simpl.
  - now exists a.
  - apply Hh.
Qed.

Lemma returns_when (b : bool) (m : M unit) : returns m -> returns (when b m).
Proof. intros Hm. destruct b; simpl; auto using returns_ret. Qed.

(** *** Frames *)

Lemma keeps_refl {X} (f : Store -> X) s : keeps f s s.
Proof. reflexivity. Qed.

Lemma keeps_trans {X} (f : Store -> X) a b c :
  keeps f a b -> keeps f b c -> keeps f a c.
Proof. unfold keeps. congruence. Qed.

(** Takes a handler apart along its binds; an update of a field that the
    projection does not read is settled by computing. *)
Ltac keeps_step :=
  lazymatch goal with
  | |- preserves _ (bind _ _) =>
      apply preserves_bind; [apply keeps_trans | | intros ?]
  | |- preserves _ (tryCatch _ _) =>
      apply preserves_tryCatch; [apply keeps_trans | | intros ?]
  | |- preserves _ (forEach _ _) =>
      apply preserves_forEach; [apply keeps_refl | apply keeps_trans | intros ?]
  | |- preserves _ (when _ _) => apply preserves_when; [apply keeps_refl | ]
  | |- preserves _ (ret _) => apply preserves_ret; apply keeps_refl
  | |- preserves _ (throw _) => apply preserves_throw; apply keeps_refl
  | |- preserves _ (gets _) => apply preserves_gets; apply keeps_refl
  | |- preserves _ (liftR _) => apply preserves_liftR; apply keeps_refl
  | |- preserves _ (modify _) => intros ?; reflexivity
  | |- preserves _ (emit _) => intros ?; reflexivity
  | |- preserves _ (call _ _) => unfold call
  | |- preserves _ (setStatus _) => unfold setStatus
  | |- preserves _ (setIsSpeaking _) => unfold setIsSpeaking
  | |- preserves _ freshId => unfold freshId
  | |- preserves _ (freshUUID _) => unfold freshUUID
  | |- preserves _ (getItems _) => unfold getItems
  | |- preserves _ (persistMemory _) => unfold persistMemory
  | |- preserves _ (setItem _ _ _) => unfold setItem
  | |- preserves _ (Gmail.fetch _ _) => unfold Gmail.fetch
  | |- preserves _ (sendToolResponse _ _ _) => unfold sendToolResponse
  | |- preserves _ (stopAllAudio _) => unfold stopAllAudio
  | |- preserves _ (match ?x with _ => _ end) => destruct x
  end.

Lemma handleTranscriptions_notebook m :
  preserves (keeps notebook) (handleTranscriptions m).
Proof. unfold handleTranscriptions. repeat keeps_step. Qed.

Lemma handleInterruption_notebook w m :
  preserves (keeps notebook) (handleInterruption w m).
Proof. unfold handleInterruption. repeat keeps_step. Qed.

Lemma handleAudioOutput_notebook w m :
  preserves (keeps notebook) (handleAudioOutput w m).
Proof. unfold handleAudioOutput, playAudio. repeat keeps_step. Qed.

(** A run whose result is known continues with it. *)
Lemma bind_Ok {A B} (m : M A) (k : A -> M B) (s s1 : Store) (a : A) :
  m s = (Ok a, s1) -> bind m k s = k a s1.
Proof. intros H. unfold bind. now rewrite H. Qed.

Lemma bind_assoc {A B C} (m : M A) (k : A -> M B) (h : B -> M C) (s : Store) :
  bind (bind m k) h s = bind m (fun a => bind (k a) h) s.
Proof. unfold bind. destruct (m s) as [[a|e] s1]; reflexivity. Qed.

Lemma run_eta {A} (m : M A) (s : Store) (a : A) :
  fst (m s) = Ok a -> m s = (Ok a, snd (m s)).
Proof. destruct (m s); simpl; congruence. Qed.

(** *** Handlers that leave the session and the scheduler alone *)

Lemma quiet_refl ok s : quiet ok s s.
Proof.
  constructor; auto. exists []. now rewrite app_nil_r.
Qed.

Lemma quiet_trans ok a b c : quiet ok a b -> quiet ok b c -> quiet ok a c.
Proof.
  intros [? ? ? ? ? ? ? ? [t [Ht Hok]]] [? ? ? ? ? ? ? ? [t' [Ht' Hok']]].
  constructor; try congruence.
  exists (t ++ t'). rewrite Ht', Ht, app_assoc. split; auto.
  rewrite forallb_app, Hok, Hok'. reflexivity.
Qed.

Lemma quiet_weaken (ok ok' : Effect -> bool) s s' :
  (forall e, ok e = true -> ok' e = true) -> quiet ok s s' -> quiet ok' s s'.
Proof.
  intros H [? ? ? ? ? ? ? ? [t [Ht Hok]]]. constructor; auto.
  exists t. split; auto.
  rewrite forallb_forall in *. auto.
Qed.

Lemma quiet_emit ok e : ok e = true -> preserves (quiet ok) (emit e).
Proof.
  intros H s. constructor; try reflexivity.
  exists [e]. simpl. now rewrite H.
Qed.

(** An update of a field that [quiet] does not watch. *)
Ltac quiet_update :=
  let s := fresh "s" in
  intros s; constructor; try reflexivity;
  exists []; simpl; now rewrite app_nil_r.

Lemma quiet_set_emails ok v : preserves (quiet ok) (modify (set_emails v)).
Proof. quiet_update. Qed.

Lemma quiet_set_memories ok v : preserves (quiet ok) (modify (set_memories v)).
Proof. quiet_update. Qed.

Lemma quiet_set_tasks ok v : preserves (quiet ok) (modify (set_tasks v)).
Proof. quiet_update. Qed.

Lemma quiet_set_drafts ok v : preserves (quiet ok) (modify (set_drafts v)).
Proof. quiet_update. Qed.

Lemma quiet_set_fresh ok v : preserves (quiet ok) (modify (set_fresh v)).
Proof. quiet_update. Qed.

Lemma quiet_set_pending ok f :
  preserves (quiet ok) (modify (fun s => set_pendingMemories (f s) s)).
Proof. quiet_update. Qed.

Lemma quiet_setItem ok w k v : preserves (quiet ok) (setItem w k v).
Proof.
  unfold setItem. destruct (setItemThrows w k).
  - apply preserves_throw, quiet_refl.
  - quiet_update.
Qed.

Section Quiet.

Variable ok : Effect -> bool.

Lemma quiet_ret {A} (a : A) : preserves (quiet ok) (ret a).
Proof. apply preserves_ret, quiet_refl. Qed.

Lemma quiet_throw {A} (e : Exn) : preserves (quiet ok) (@throw A e).
Proof. apply preserves_throw, quiet_refl. Qed.

Lemma quiet_gets {A} (f : Store -> A) : preserves (quiet ok) (gets f).
Proof. apply preserves_gets, quiet_refl. Qed.

Lemma quiet_liftR {A} (r : Result A) : preserves (quiet ok) (liftR r).
Proof. apply preserves_liftR, quiet_refl. Qed.

Lemma quiet_bind {A B} (m : M A) (k : A -> M B) :
  preserves (quiet ok) m -> (forall a, preserves (quiet ok) (k a)) ->
  preserves (quiet ok) (bind m k).
Proof. apply preserves_bind, quiet_trans. Qed.

Lemma quiet_tryCatch {A} (m : M A) (h : Exn -> M A) :
  preserves (quiet ok) m -> (forall e, preserves (quiet ok) (h e)) ->
  preserves (quiet ok) (tryCatch m h).
Proof. apply preserves_tryCatch, quiet_trans. Qed.

Lemma quiet_forEach {A} (f : A -> M unit) (l : list A) :
  (forall x, preserves (quiet ok) (f x)) -> preserves (quiet ok) (forEach f l).
Proof. apply preserves_forEach; [apply quiet_refl | apply quiet_trans]. Qed.

End Quiet.

(** Takes a handler apart along its binds, without unfolding its parts. *)
Ltac quiet_step :=
  lazymatch goal with
  | |- preserves _ (bind _ _) => apply quiet_bind; [ | intros ?]
  | |- preserves _ (tryCatch _ _) => apply quiet_tryCatch; [ | intros ?]
  | |- preserves _ (ret _) => apply quiet_ret
  | |- preserves _ (throw _) => apply quiet_throw
  | |- preserves _ (gets _) => apply quiet_gets
  | |- preserves _ (liftR _) => apply quiet_liftR
  | |- preserves _ (emit _) => apply quiet_emit; reflexivity
  | |- preserves _ (modify (set_emails _)) => apply quiet_set_emails
  | |- preserves _ (modify (set_memories _)) => apply quiet_set_memories
  | |- preserves _ (modify (set_tasks _)) => apply quiet_set_tasks
  | |- preserves _ (modify (set_drafts _)) => apply quiet_set_drafts
  | |- preserves _ (modify (set_fresh _)) => apply quiet_set_fresh
  | |- preserves _ (modify (fun s => set_pendingMemories _ s)) =>
      apply quiet_set_pending
  | |- preserves _ (setItem _ _ _) => apply quiet_setItem
  end.

Ltac quiet_steps := repeat quiet_step.

(** *** The mail collaborator only makes requests *)

Lemma fetch_quiet w r : preserves (quiet isMailEffect) (Gmail.fetch w r).
Proof.
  unfold Gmail.fetch. quiet_steps. destruct (fetchJson w r); quiet_steps.
Qed.

Lemma fetchDetails_quiet w token l :
  preserves (quiet isMailEffect) (Gmail.fetchDetails w token l).
Proof.
  induction l as [|m l IH]; cbn [Gmail.fetchDetails]; quiet_steps.
  - apply fetch_quiet.
  - exact IH.
Qed.

Lemma listEmails_quiet w q maxResults logged :
  preserves (quiet isMailEffect) (Gmail.listEmails w q maxResults logged).
Proof.
  unfold Gmail.listEmails. quiet_steps.
  match goal with a : option string |- _ => destruct a as [token|] end;
    quiet_steps.
  destruct (String.eqb token ""); quiet_steps.
  - apply fetch_quiet.
  - match goal with |- context [truthy ?x] => destruct (truthy x) end;
      simpl; quiet_steps.
    apply fetchDetails_quiet.
Qed.

Lemma getUnreadEmails_quiet w maxResults :
  preserves (quiet isMailEffect) (Gmail.getUnreadEmails w maxResults).
Proof. apply listEmails_quiet. Qed.

Lemma searchEmails_quiet w query maxResults :
  preserves (quiet isMailEffect) (Gmail.searchEmails w query maxResults).
Proof. apply listEmails_quiet. Qed.

(** *** The tool dispatcher *)

Lemma freshUUID_quiet ok w : preserves (quiet ok) (freshUUID w).
Proof. unfold freshUUID. quiet_steps. Qed.

Lemma getItems_quiet ok k : preserves (quiet ok) (getItems k).
Proof.
  unfold getItems. quiet_steps.
  match goal with |- context [lookup ?k ?l] => destruct (lookup k l) as [[v| | ]|] end;
    quiet_steps.
Qed.

Lemma persistMemory_quiet ok c : preserves (quiet ok) (persistMemory c).
Proof. unfold persistMemory. quiet_steps. Qed.

(** Computing a result touches neither the session nor the scheduler, and
    the only calls it makes are those of the mail collaborator. *)
Lemma toolResult_quiet w auth fc :
  preserves (quiet isMailEffect) (toolResult w auth fc).
Proof.
  unfold toolResult.
  repeat match goal with
         | |- preserves _ (if ?b then _ else _) => destruct b
         end;
    quiet_steps;
    auto using freshUUID_quiet, getItems_quiet, persistMemory_quiet,
      getUnreadEmails_quiet, searchEmails_quiet.
Qed.

Ltac returns_step :=
  lazymatch goal with
  | |- returns (bind _ _) => apply returns_bind; [ | intros ?]
  | |- returns (tryCatch _ _) => apply returns_tryCatch; intros ?
  | |- returns (ret _) => apply returns_ret
  | |- returns (gets _) => apply returns_gets
  | |- returns (modify _) => apply returns_modify
  | |- returns (emit _) => apply returns_emit
  end.

Lemma toolResult_unrecognized w auth fc :
  recognized (fc_name fc) = false -> toolResult w auth fc = ret (JStr "ok").
Proof.
  unfold recognized, toolResult. intros H.
  repeat (apply orb_false_iff in H; destruct H as [H ?]).
  repeat match goal with E : String.eqb _ _ = false |- _ => rewrite E; clear E end.
  reflexivity.
Qed.

(** *** What the dispatcher needs of [localStorage] *)

Lemma fetchDetails_storage w token l :
  preserves (keeps localStorage) (Gmail.fetchDetails w token l).
Proof.
  induction l as [|m l IH]; cbn [Gmail.fetchDetails]; repeat keeps_step.
  exact IH.
Qed.

(** The mail collaborator does not touch [localStorage]. *)
Lemma listEmails_storage w q maxResults logged :
  preserves (keeps localStorage) (Gmail.listEmails w q maxResults logged).
Proof.
  unfold Gmail.listEmails. repeat keeps_step. apply fetchDetails_storage.
Qed.

Lemma storageUsable_frame w s s' :
  localStorage s' = localStorage s -> storageUsable w s -> storageUsable w s'.
Proof. unfold storageUsable, parses, holdsArray. now intros ->. Qed.

Lemma getItems_parses key s :
  parses key s -> exists v, getItems key s = (Ok v, s) /\ stored key s = Some v.
Proof.
  unfold parses, getItems, stored, bind, gets. intros H.
  destruct (lookup key (localStorage s)) as [[v| | ]|];
    try (eexists; split; reflexivity).
  now elim H.
Qed.

Lemma holdsArray_set key key' l ls s :
  localStorage s = obj_set key' (TextOf (JArr l)) ls ->
  holdsArray key s <->
  (if String.eqb key key' then True
   else match lookup key ls with
        | None | Some EmptyText | Some (TextOf (JArr _)) => True
        | _ => False
        end).
Proof.
  unfold holdsArray. intros ->.
  assert (E : forall (o : Storage),
             lookup key (obj_set key' (TextOf (JArr l)) o)
             = if String.eqb key key' then Some (TextOf (JArr l)) else lookup key o).
  { induction o as [|[k0 v0] o IH]; cbn [obj_set lookup].
    - reflexivity.
    - destruct (String.eqb key' k0) eqn:E0; cbn [lookup].
      + apply String.eqb_eq in E0. subst k0.
        destruct (String.eqb key key'); reflexivity.
      + rewrite IH. destruct (String.eqb key key') eqn:E1; auto.
        apply String.eqb_eq in E1. subst key'. now rewrite E0. }
  rewrite E. destruct (String.eqb key key'); tauto.
Qed.

Lemma parses_set key key' v ls s :
  localStorage s = obj_set key' (TextOf v) ls ->
  lookup key ls <> Some NotJson -> parses key s.
Proof.
  unfold parses. intros -> H.
  induction ls as [|[k0 v0] o IH]; cbn [obj_set lookup] in *.
  - destruct (String.eqb key key'); discriminate.
  - destruct (String.eqb key' k0) eqn:E0; cbn [lookup].
    + apply String.eqb_eq in E0. subst k0.
      destruct (String.eqb key key'); [discriminate | exact H].
    + destruct (String.eqb key k0); [exact H | apply IH, H].
Qed.

(** A mail call returns, and leaves [localStorage] as it was. *)
Lemma mail_result w auth fc s :
  isMailCall fc = true ->
  exists r, fst (toolResult w auth fc s) = Ok r /\
            localStorage (snd (toolResult w auth fc s)) = localStorage s.
Proof.
  intros Hmail. unfold isMailCall in Hmail.
  assert (Hret : returns (toolResult w auth fc)).
  { unfold toolResult.
    destruct (String.eqb (fc_name fc) "save_memory") eqn:E1;
      [destruct (String.eqb (fc_name fc) "read_emails") eqn:E5;
       [apply String.eqb_eq in E1, E5; congruence | ];
       destruct (String.eqb (fc_name fc) "search_emails") eqn:E6;
       [apply String.eqb_eq in E1, E6; congruence | discriminate] | ].
    destruct (String.eqb (fc_name fc) "get_memories") eqn:E2;
      [destruct (String.eqb (fc_name fc) "read_emails") eqn:E5;
       [apply String.eqb_eq in E2, E5; congruence | ];
       destruct (String.eqb (fc_name fc) "search_emails") eqn:E6;
       [apply String.eqb_eq in E2, E6; congruence | discriminate] | ].
    destruct (String.eqb (fc_name fc) "write_email") eqn:E3;
      [destruct (String.eqb (fc_name fc) "read_emails") eqn:E5;
       [apply String.eqb_eq in E3, E5; congruence | ];
       destruct (String.eqb (fc_name fc) "search_emails") eqn:E6;
       [apply String.eqb_eq in E3, E6; congruence | discriminate] | ].
    destruct (String.eqb (fc_name fc) "create_task") eqn:E4;
      [destruct (String.eqb (fc_name fc) "read_emails") eqn:E5;
       [apply String.eqb_eq in E4, E5; congruence | ];
       destruct (String.eqb (fc_name fc) "search_emails") eqn:E6;
       [apply String.eqb_eq in E4, E6; congruence | discriminate] | ].
    destruct (String.eqb (fc_name fc) "read_emails");
      [destruct (negb auth); repeat returns_step | ].
    destruct (String.eqb (fc_name fc) "search_emails");
      [destruct (negb auth); repeat returns_step | discriminate]. }
  assert (Hkeep : preserves (keeps localStorage) (toolResult w auth fc)).
  { unfold toolResult.
    destruct (String.eqb (fc_name fc) "save_memory"); [repeat keeps_step | ].
    destruct (String.eqb (fc_name fc) "get_memories"); [repeat keeps_step | ].
    destruct (String.eqb (fc_name fc) "write_email") eqn:E3;
      [destruct (String.eqb (fc_name fc) "read_emails") eqn:E5;
       [apply String.eqb_eq in E3, E5; congruence | ];
       destruct (String.eqb (fc_name fc) "search_emails") eqn:E6;
       [apply String.eqb_eq in E3, E6; congruence | discriminate] | ].
    destruct (String.eqb (fc_name fc) "create_task") eqn:E4;
      [destruct (String.eqb (fc_name fc) "read_emails") eqn:E5;
       [apply String.eqb_eq in E4, E5; congruence | ];
       destruct (String.eqb (fc_name fc) "search_emails") eqn:E6;
       [apply String.eqb_eq in E4, E6; congruence | discriminate] | ].
    destruct (String.eqb (fc_name fc) "read_emails");
      [destruct (negb auth); repeat keeps_step; apply listEmails_storage | ].
    destruct (String.eqb (fc_name fc) "search_emails");
      [destruct (negb auth); repeat keeps_step; apply listEmails_storage | ].
    repeat keeps_step. }
  destruct (Hret s) as [r Hr]. exists r. split; [exact Hr | apply Hkeep].
Qed.

(** With a [localStorage] it can use, and its arguments where it reads
    them, the chain yields a result, and [localStorage] can be used
    again. *)
Lemma toolResult_usable w auth fc s :
  storageUsable w s ->
  (readsArgs fc = true -> fc_args fc <> None) ->
  exists r, fst (toolResult w auth fc s) = Ok r /\
            storageUsable w (snd (toolResult w auth fc s)).
Proof.
  intros Hst Hargs.
  destruct (isMailCall fc) eqn:Hmail.
  { destruct (mail_result w auth fc s Hmail) as (r & Hr & Hls).
    exists r. split; [exact Hr | ]. now apply (storageUsable_frame w s). }
  destruct (recognized (fc_name fc)) eqn:Hrec.
  2:{ rewrite (toolResult_unrecognized w auth fc Hrec). exists (JStr "ok").
      split; [reflexivity | exact Hst]. }
  destruct Hst as (Hm & Ht & Hd & Hwt & Hwd).
  unfold isMailCall in Hmail. apply orb_false_iff in Hmail.
  destruct Hmail as [Hm5 Hm6].
  unfold toolResult, readsArgs in *.
  destruct (String.eqb (fc_name fc) "save_memory") eqn:E1.
  { destruct (fc_args fc) as [args|] eqn:Ha; [ | now elim Hargs].
    unfold arg. rewrite Ha. eexists. split; [reflexivity | ].
    repeat split; assumption. }
  destruct (String.eqb (fc_name fc) "get_memories") eqn:E2.
  { destruct (getItems_parses MEMORY_KEY s Hm) as (v & Hrun & _).
    rewrite Hrun. exists v. split; [reflexivity | ].
    repeat split; assumption. }
  destruct (String.eqb (fc_name fc) "write_email") eqn:E3.
  { destruct (fc_args fc) as [args|] eqn:Ha; [ | now elim Hargs].
    unfold arg, spreadArgs. rewrite Ha.
    unfold parses, holdsArray in *.
    destruct s as [st sp me ci co ta dr em ac nx so se sr an ls tk fr tr pm].
    cbn [localStorage] in *.
    unfold freshUUID, getItems, push, setItem, parse. rewrite Hwd. run_norm.
    destruct (lookup DRAFTS_KEY ls) as [[[ | | | | l | ] | | ]|] eqn:El;
      try contradiction; run_norm;
      (eexists; split; [reflexivity | ]);
      unfold storageUsable; repeat split; try assumption;
      try (eapply parses_set; [reflexivity | exact Hm]);
      try (eapply holdsArray_set; [reflexivity | ]; cbn; exact Ht);
      try (eapply holdsArray_set; [reflexivity | ]; cbn; exact I). }
  destruct (String.eqb (fc_name fc) "create_task") eqn:E4.
  { destruct (fc_args fc) as [args|] eqn:Ha; [ | now elim Hargs].
    unfold arg, spreadArgs. rewrite Ha.
    unfold parses, holdsArray in *.
    destruct s as [st sp me ci co ta dr em ac nx so se sr an ls tk fr tr pm].
    cbn [localStorage] in *.
    unfold freshUUID, getItems, push, setItem, parse. rewrite Hwt. run_norm.
    destruct (lookup TASKS_KEY ls) as [[[ | | | | l | ] | | ]|] eqn:El;
      try contradiction; run_norm;
      (eexists; split; [reflexivity | ]);
      unfold storageUsable; repeat split; try assumption;
      try (eapply parses_set; [reflexivity | exact Hm]);
      try (eapply holdsArray_set; [reflexivity | ]; cbn; exact Hd);
      try (eapply holdsArray_set; [reflexivity | ]; cbn; exact I). }
  unfold recognized in Hrec. rewrite E1, E2, E3, E4, Hm5, Hm6 in Hrec.
  discriminate.
Qed.

Lemma sendToolResponse_absent w fc r s :
  sessionRef s = None -> sendToolResponse w fc r s = (Ok tt, s).
Proof. intros H. unfold sendToolResponse, bind, gets. now rewrite H. Qed.

Lemma sendToolResponse_present w fc r s x :
  sessionRef s = Some x ->
  throws w (E_sendToolResponse (session_id x) (fc_id fc) (fc_name fc) r) = false ->
  sendToolResponse w fc r s
  = (Ok tt,
     set_trace (trace s ++ [E_sendToolResponse (session_id x) (fc_id fc)
                                                (fc_name fc) r]) s).
Proof.
  intros H Hn. unfold sendToolResponse, bind, gets. rewrite H.
  unfold call, bind, emit, modify. now rewrite Hn.
Qed.

Lemma startTimes_app a b : startTimes (a ++ b) = startTimes a ++ startTimes b.
Proof.
  induction a as [|e a IH]; simpl; auto. destruct e; simpl; now rewrite ?IH.
Qed.

Lemma responses_app a b : responses (a ++ b) = responses a ++ responses b.
Proof.
  induction a as [|e a IH]; simpl; auto. destruct e; simpl; now rewrite ?IH.
Qed.

Lemma responses_mail t : forallb isMailEffect t = true -> responses t = [].
Proof.
  induction t as [|e t IH]; simpl; auto.
  destruct e; simpl; try discriminate; auto.
Qed.

Lemma startTimes_tool t : forallb isToolEffect t = true -> startTimes t = [].
Proof.
  induction t as [|e t IH]; simpl; auto.
  destruct e; simpl; try discriminate; auto.
Qed.

(** One turn of the loop with the session handle present, a transport
    that accepts the response and a [localStorage] that can be used. *)
Lemma answerCall_present w auth fc s x :
  sessionRef s = Some x ->
  (forall i n r, throws w (E_sendToolResponse (session_id x) i n r) = false) ->
  storageUsable w s ->
  (readsArgs fc = true -> fc_args fc <> None) ->
  exists s' r t,
    answerCall w auth fc s = (Ok tt, s') /\
    sessionRef s' = Some x /\
    storageUsable w s' /\
    trace s' = trace s ++ t /\
    responses t = [(fc_id fc, fc_name fc, r)] /\
    (recognized (fc_name fc) = false -> r = JStr "ok").
Proof.
  intros Hx Hsend Hst Hargs.
  destruct (toolResult_usable w auth fc s Hst Hargs) as (r & Hr & Hst1).
  pose proof (toolResult_quiet w auth fc s) as Hq.
  apply run_eta in Hr. set (s1 := snd (toolResult w auth fc s)) in *.
  destruct Hq as [_ _ _ _ Hs _ _ _ [t [Ht Hok]]].
  assert (Hx1 : sessionRef s1 = Some x) by congruence.
  exists (set_trace (trace s1 ++ [E_sendToolResponse (session_id x) (fc_id fc)
                                    (fc_name fc) r]) s1), r,
    (t ++ [E_sendToolResponse (session_id x) (fc_id fc) (fc_name fc) r]).
  repeat split.
  - unfold answerCall. rewrite (bind_Ok _ _ _ _ _ Hr).
    now apply sendToolResponse_present.
  - exact Hx1.
  - apply Hst1.
  - apply Hst1.
  - apply Hst1.
  - apply Hst1.
  - apply Hst1.
  - simpl. now rewrite Ht, app_assoc.
  - rewrite responses_app, (responses_mail _ Hok). reflexivity.
  - intros Hu. rewrite (toolResult_unrecognized _ _ _ Hu) in Hr.
    unfold ret in Hr. congruence.
Qed.

Lemma handleToolCalls_present w auth calls : forall s x,
  sessionRef s = Some x ->
  (forall i n r, throws w (E_sendToolResponse (session_id x) i n r) = false) ->
  storageUsable w s ->
  Forall (fun fc => readsArgs fc = true -> fc_args fc <> None) calls ->
  exists s' t,
    handleToolCalls w auth calls s = (Ok tt, s') /\
    trace s' = trace s ++ t /\
    Forall2 answers calls (responses t).
Proof.
  unfold handleToolCalls.
  induction calls as [|fc calls IH]; intros s x Hx Hsend Hst Hargs; cbn [forEach].
  - exists s, []. rewrite app_nil_r. repeat split. constructor.
  - inversion Hargs as [|c l Hc Hl]; subst.
    destruct (answerCall_present w auth fc s x Hx Hsend Hst Hc)
      as (s1 & r & t1 & Hrun & Hx1 & Hst1 & Ht1 & Hr1 & Hok).
    destruct (IH s1 x Hx1 Hsend Hst1 Hl) as (s2 & t2 & Hrun2 & Ht2 & Hall).
    exists s2, (t1 ++ t2). repeat split.
    + now rewrite (bind_Ok _ _ _ _ _ Hrun).
    + now rewrite Ht2, Ht1, app_assoc.
    + rewrite responses_app, Hr1. simpl. constructor; auto.
      repeat split; auto.
Qed.

(** With no session handle the loop sends nothing, whether it comes to its
    end or a call throws. *)
Lemma handleToolCalls_absent w auth calls : forall s,
  sessionRef s = None ->
  exists t,
    trace (snd (handleToolCalls w auth calls s)) = trace s ++ t /\
    responses t = [].
Proof.
  unfold handleToolCalls.
  induction calls as [|fc calls IH]; intros s Hx; cbn [forEach].
  - exists []. now rewrite app_nil_r.
  - pose proof (toolResult_quiet w auth fc s) as Hq.
    unfold bind at 1. unfold answerCall at 1. unfold bind at 1.
    destruct (toolResult w auth fc s) as [[r|e] s1]; cbn [snd] in *;
      destruct Hq as [_ _ _ _ Hs _ _ _ [t [Ht Hok]]].
    + assert (Hx1 : sessionRef s1 = None) by congruence.
      rewrite (sendToolResponse_absent _ _ _ _ Hx1). cbv beta iota.
      destruct (IH s1 Hx1) as (t2 & Ht2 & Hnone).
      exists (t ++ t2). split.
      * now rewrite Ht2, Ht, app_assoc.
      * now rewrite responses_app, (responses_mail _ Hok), Hnone.
    + exists t. split; [exact Ht | apply (responses_mail _ Hok)].
Qed.

Lemma call_quiet ok w e : ok e = true -> preserves (quiet ok) (call w e).
Proof.
  intros H. unfold call. quiet_steps.
  - now apply quiet_emit.
  - destruct (throws w e); quiet_steps.
Qed.

Lemma sendToolResponse_quiet w fc r :
  preserves (quiet isToolEffect) (sendToolResponse w fc r).
Proof.
  unfold sendToolResponse. quiet_steps.
  match goal with a : option Session |- _ => destruct a end; quiet_steps.
  now apply call_quiet.
Qed.

Lemma mail_is_tool e : isMailEffect e = true -> isToolEffect e = true.
Proof. destruct e; simpl; auto. Qed.

(** Step 4 leaves the scheduler as it found it, whether it returns or
    throws. *)
Lemma handleFunctionCalls_quiet w auth m :
  preserves (quiet isToolEffect) (handleFunctionCalls w auth m).
Proof.
  unfold handleFunctionCalls, handleToolCalls.
  destruct (toolCall m) as [tc|]; [ | apply quiet_ret].
  destruct (functionCalls tc); [ | apply quiet_throw].
  apply quiet_forEach. intros fc. unfold answerCall. quiet_steps.
  - intros s. eapply quiet_weaken; [apply mail_is_tool | apply toolResult_quiet].
  - apply sendToolResponse_quiet.
Qed.

(** *** Steps 1 to 3 of the message handler *)

Lemma quiet_steady ok s s' : quiet ok s s' -> steady ok s s'.
Proof. intros []. constructor; auto. Qed.

Lemma responses_audio t : forallb isAudioEffect t = true -> responses t = [].
Proof.
  induction t as [|e t IH]; simpl; auto.
  destruct e; simpl; try discriminate; auto.
Qed.

Lemma onlyEmits_nothing s s' : onlyEmits (fun _ => false) s s' -> trace s' = trace s.
Proof.
  intros [t [Ht Hok]]. destruct t; [ | discriminate].
  now rewrite Ht, app_nil_r.
Qed.

Lemma handleTranscriptions_run m s :
  exists s1, handleTranscriptions m s = (Ok tt, s1) /\ quiet (fun _ => false) s s1.
Proof.
  unfold handleTranscriptions, flag.
  destruct m as [[[i o tc intr mt]|] calls]; simpl;
    [destruct i, o, tc | ]; simpl;
    (eexists; split; [reflexivity | ]);
    (constructor; try reflexivity; exists []; simpl; now rewrite app_nil_r).
Qed.

Lemma handleInterruption_idle w m s :
  flag interrupted m = false -> handleInterruption w m s = (Ok tt, s).
Proof. intros H. unfold handleInterruption. now rewrite H. Qed.

Lemma forallb_map_stop (l : list SourceNode) :
  forallb isStopEffect (map (fun x => E_sourceStop (node_id x)) l) = true.
Proof. induction l; simpl; auto. Qed.

Lemma startTimes_stop t : forallb isStopEffect t = true -> startTimes t = [].
Proof.
  induction t as [|e t IH]; simpl; auto.
  destruct e; simpl; try discriminate; auto.
Qed.

Lemma stop_is_audio t :
  forallb isStopEffect t = true -> forallb isAudioEffect t = true.
Proof.
  induction t as [|e t IH]; simpl; auto.
  destruct e; simpl; try discriminate; auto.
Qed.

(** Step 2 returns; when it interrupts, the cursor is 0 afterwards. *)
Lemma handleInterruption_run w m s :
  exists s2,
    handleInterruption w m s = (Ok tt, s2) /\ steady isStopEffect s s2 /\
    (nextStartTimeRef s2 = nextStartTimeRef s \/ nextStartTimeRef s2 = 0%Q).
Proof.
  unfold handleInterruption. destruct (flag interrupted m); cbn [when].
  - unfold bind at 1. rewrite stopAllAudio_run.
    eexists; split; [reflexivity | ]. simpl. split; [ | now right].
    constructor; try reflexivity.
    eexists; split; [reflexivity | apply forallb_map_stop].
  - exists s. split; auto. split; [apply quiet_steady, quiet_refl | now left].
Qed.

Lemma duration_nonneg b : (0 <= duration b)%Q.
Proof. unfold duration. apply fl_nonneg. unfold Qle. simpl. lia. Qed.

(** [Math.max] gives the cursor itself to a chunk that arrives in time. *)
Lemma Qmax_arrived (cursor now : Q) :
  (now <= cursor)%Q -> Qmax cursor now = cursor.
Proof.
  intros H. unfold Qmax, GenericMinMax.gmax.
  destruct (Qcompare_spec cursor now) as [E | E | E]; auto.
  exfalso. lra.
Qed.

(** The cursor after a chunk is not before the cursor it met. *)
Lemma cursor_moves_on (cursor now d : Q) :
  isDouble cursor -> (0 <= d)%Q -> (cursor <= addDoubles (Qmax cursor now) d)%Q.
Proof.
  intros Hc Hd. unfold addDoubles.
  apply Qle_trans with (fl cursor).
  - unfold isDouble in Hc. rewrite Hc. apply Qle_refl.
  - apply fl_mono. pose proof (Q.le_max_l cursor now). lra.
Qed.

Lemma nothing_played w s :
  steady isAudioEffect s s /\
  trace s = trace s ++ [] /\
  (isDouble (nextStartTimeRef s) ->
   (nextStartTimeRef s <= nextStartTimeRef s)%Q) /\
  (isDouble (nextStartTimeRef s) -> isDouble (currentTime w) ->
   isDouble (nextStartTimeRef s)) /\
  Forall (fun x => (currentTime w <= x)%Q) (startTimes []).
Proof.
  split; [apply quiet_steady, quiet_refl | ].
  split; [now rewrite app_nil_r | ].
  split; [intros _; apply Qle_refl | ].
  split; [auto | constructor].
Qed.

(** Step 3 in general: it throws only where [parts] is missing; the
    cursor does not go back, and stays a double; a chunk is started no
    earlier than the time the handler read on the device clock. *)
Lemma handleAudioOutput_run w m s :
  exists r s3 t,
    handleAudioOutput w m s = (r, s3) /\
    steady isAudioEffect s s3 /\
    trace s3 = trace s ++ t /\
    (isDouble (nextStartTimeRef s) ->
     (nextStartTimeRef s <= nextStartTimeRef s3)%Q) /\
    (isDouble (nextStartTimeRef s) -> isDouble (currentTime w) ->
     isDouble (nextStartTimeRef s3)) /\
    Forall (fun x => (currentTime w <= x)%Q) (startTimes t) /\
    match audioDataOf m with
    | Ok _ => r = Ok tt
    | Throw e => r = Throw e /\ s3 = s
    end.
Proof.
  unfold handleAudioOutput. unfold bind at 1. unfold liftR at 1.
  destruct (audioDataOf m) as [[a|]|e].
  3:{ exists (Throw e), s, []. split; [reflexivity | ].
      destruct (nothing_played w s) as (H1 & H2 & H3 & H4 & H5). auto 10. }
  2:{ exists (Ok tt), s, []. split; [now destruct (audioContextRef s) | ].
      destruct (nothing_played w s) as (H1 & H2 & H3 & H4 & H5). auto 10. }
  unfold bind at 1. unfold gets at 1.
  destruct (audioContextRef s) as [c|] eqn:Hc.
  2:{ exists (Ok tt), s, []. split; [reflexivity | ].
      destruct (nothing_played w s) as (H1 & H2 & H3 & H4 & H5). auto 10. }
  destruct (String.eqb a ""); cbn [negb when].
  { exists (Ok tt), s, []. split; [reflexivity | ].
    destruct (nothing_played w s) as (H1 & H2 & H3 & H4 & H5). auto 10. }
  pose proof (Q.le_max_l (nextStartTimeRef s) (currentTime w)) as Hl.
  pose proof (Q.le_max_r (nextStartTimeRef s) (currentTime w)) as Hr.
  assert (Hmax : isDouble (nextStartTimeRef s) -> isDouble (currentTime w) ->
                 isDouble (Qmax (nextStartTimeRef s) (currentTime w)))
    by apply isDouble_max.
  unfold playAudio, setIsSpeaking, freshId, call.
  destruct s as [st sp me ci co ta dr em ac nx so se sr an ls tk fr tr pm].
  cbn [nextStartTimeRef audioContextRef] in *.
  run_norm.
  destruct (decodeAudioData w a) as [b|]; run_norm;
    [ destruct (throws w (E_createBufferSource fr)); run_norm;
      [ | destruct (throws w (E_connectDestination fr)); run_norm;
          [ | destruct (throws w (E_sourceStart fr _)); run_norm ] ] | ];
    (eexists; eexists; eexists; split; [reflexivity | ]);
    (split; [constructor; try reflexivity;
             eexists; cbn [trace]; rewrite <- ?app_assoc; split; reflexivity | ]);
    (split; [cbn [trace]; rewrite <- ?app_assoc; reflexivity | ]);
    cbn [nextStartTimeRef startTimes app];
    (split; [intros Hd | split; [intros Hd Hn | split; [ | reflexivity]]]);
    auto.
  - apply cursor_moves_on; [exact Hd | apply duration_nonneg].
  - apply fl_idem.
Qed.

(** Step 3 on a message without audio. *)
Lemma handleAudioOutput_silent w m s :
  silent m -> handleAudioOutput w m s = (Ok tt, s).
Proof.
  intros (_ & [H | H]); unfold handleAudioOutput, bind, liftR, gets; rewrite H;
    now destruct (audioContextRef s).
Qed.

(** Step 3 on a chunk it schedules. *)
Lemma handleAudioOutput_scheduled w m b s :
  scheduled (w, m, b) -> audioContextRef s <> None ->
  exists s3 t,
    handleAudioOutput w m s = (Ok tt, s3) /\
    nextStartTimeRef s3
    = addDoubles (Qmax (nextStartTimeRef s) (currentTime w)) (duration b) /\
    trace s3 = trace s ++ t /\
    startTimes t = [Qmax (nextStartTimeRef s) (currentTime w)].
Proof.
  intros (_ & (a & Ha & Hne & Hb) & Hok) Hc.
  unfold handleAudioOutput. unfold bind at 1. unfold liftR at 1. rewrite Ha.
  unfold bind at 1. unfold gets at 1.
  destruct (audioContextRef s) as [c|]; [ | congruence].
  apply String.eqb_neq in Hne. rewrite Hne. cbn [negb when].
  unfold playAudio, setIsSpeaking, freshId, call.
  destruct s as [st sp me ci co ta dr em ac nx so se sr an ls tk fr tr pm].
  run_norm. rewrite Hb. run_norm.
  rewrite !Hok by reflexivity. run_norm.
  eexists; eexists; split; [reflexivity | ]. cbn [nextStartTimeRef trace].
  split; [reflexivity | ].
  split; [rewrite <- !app_assoc; reflexivity | reflexivity].
Qed.

(** *** The message handler as a whole *)

Lemma handleSessionMessage_split w auth m s s1 s2 s3 :
  handleTranscriptions m s = (Ok tt, s1) ->
  handleInterruption w m s1 = (Ok tt, s2) ->
  handleAudioOutput w m s2 = (Ok tt, s3) ->
  handleSessionMessage w auth m s = handleFunctionCalls w auth m s3.
Proof.
  intros H1 H2 H3. unfold handleSessionMessage.
  rewrite (bind_Ok _ _ _ _ _ H1), (bind_Ok _ _ _ _ _ H2).
  now rewrite (bind_Ok _ _ _ _ _ H3).
Qed.

(** One chunk that the handler schedules: it starts at
    [max(cursor, deviceNow)] and the cursor moves to its end. *)
Lemma chunk_step auth w m b s :
  scheduled (w, m, b) -> audioContextRef s <> None ->
  let s' := exec (handleSessionMessage w auth m) s in
  audioContextRef s' <> None /\
  nextStartTimeRef s'
  = addDoubles (Qmax (nextStartTimeRef s) (currentTime w)) (duration b) /\
  exists t, trace s' = trace s ++ t /\
            startTimes t = [Qmax (nextStartTimeRef s) (currentTime w)].
Proof.
  intros Hsch Hctx.
  destruct (handleTranscriptions_run m s) as (s1 & H1 & Q1).
  assert (H2 : handleInterruption w m s1 = (Ok tt, s1))
    by (apply handleInterruption_idle; apply Hsch).
  assert (Hctx1 : audioContextRef s1 <> None)
    by (rewrite (q_context _ _ _ Q1); exact Hctx).
  destruct (handleAudioOutput_scheduled w m b s1 Hsch Hctx1)
    as (s3 & t & H3 & Hcur & Ht & Hst).
  pose proof (handleAudioOutput_run w m s1) as (r' & s3' & t' & H3' & S3 & _).
  assert (s3' = s3) by congruence. subst s3'.
  pose proof (handleFunctionCalls_quiet w auth m s3) as Q4.
  unfold exec. cbv zeta.
  rewrite (handleSessionMessage_split w auth m s s1 s1 s3 H1 H2 H3).
  destruct Q4 as [_ Q4c Q4n _ _ _ _ _ (t4 & Ht4 & Hok4)].
  repeat split.
  - rewrite Q4c, (st_context _ _ _ S3). exact Hctx1.
  - rewrite Q4n, Hcur, (q_cursor _ _ _ Q1). reflexivity.
  - exists (t ++ t4). split.
    + rewrite Ht4, Ht, (onlyEmits_nothing _ _ (q_trace _ _ _ Q1)).
      now rewrite app_assoc.
    + rewrite startTimes_app, Hst, (startTimes_tool _ Hok4).
      rewrite (q_cursor _ _ _ Q1). reflexivity.
Qed.

(** A message without audio leaves the scheduler as it is. *)
Lemma silent_step auth w m s :
  silent m ->
  let s' := exec (handleSessionMessage w auth m) s in
  audioContextRef s' = audioContextRef s /\
  nextStartTimeRef s' = nextStartTimeRef s /\
  exists t, trace s' = trace s ++ t /\ startTimes t = [].
Proof.
  intros Hsil.
  destruct (handleTranscriptions_run m s) as (s1 & H1 & Q1).
  assert (H2 : handleInterruption w m s1 = (Ok tt, s1))
    by (apply handleInterruption_idle; apply Hsil).
  pose proof (handleAudioOutput_silent w m s1 Hsil) as H3.
  pose proof (handleFunctionCalls_quiet w auth m s1) as Q4.
  unfold exec. cbv zeta.
  rewrite (handleSessionMessage_split w auth m s s1 s1 s1 H1 H2 H3).
  destruct Q4 as [_ Q4c Q4n _ _ _ _ _ (t4 & Ht4 & Hok4)].
  repeat split.
  - rewrite Q4c. apply (q_context _ _ _ Q1).
  - rewrite Q4n. apply (q_cursor _ _ _ Q1).
  - exists t4. split.
    + now rewrite Ht4, (onlyEmits_nothing _ _ (q_trace _ _ _ Q1)).
    + apply (startTimes_tool _ Hok4).
Qed.

(** A run of messages starts its chunks at the times of [scheduleFrom]. *)
Lemma run_steps auth (run : list Step) : forall s,
  Forall stepAsMarked run -> audioContextRef s <> None ->
  exists t,
    trace (runMessages auth (map arrivalOf run) s) = trace s ++ t /\
    startTimes t = scheduleFrom (nextStartTimeRef s) (chunksOf run).
Proof.
  induction run as [|[[[w m] b] | w m] run IH]; intros s Hall Hctx.
  - exists []. simpl. now rewrite app_nil_r.
  - inversion Hall as [|c l Hc Hl]; subst.
    destruct (chunk_step auth w m b s Hc Hctx) as (Hctx' & Hcur & t1 & Ht1 & Hs1).
    destruct (IH _ Hl Hctx') as (t2 & Ht2 & Hs2).
    exists (t1 ++ t2). cbn [map arrivalOf arrival fst runMessages chunksOf]. split.
    + rewrite Ht2, Ht1. now rewrite app_assoc.
    + rewrite startTimes_app, Hs1, Hs2, Hcur. reflexivity.
  - inversion Hall as [|c l Hc Hl]; subst.
    destruct (silent_step auth w m s Hc) as (Hctx' & Hcur & t1 & Ht1 & Hs1).
    assert (Hctx1 : audioContextRef (exec (handleSessionMessage w auth m) s) <> None)
      by (rewrite Hctx'; exact Hctx).
    destruct (IH _ Hl Hctx1) as (t2 & Ht2 & Hs2).
    exists (t1 ++ t2). cbn [map arrivalOf runMessages chunksOf]. split.
    + rewrite Ht2, Ht1. now rewrite app_assoc.
    + rewrite startTimes_app, Hs1, Hs2, Hcur. reflexivity.
Qed.


(** When every chunk arrives in time, the start times are the running sums
    of the durations. *)
Lemma scheduleFrom_sums (chunks : list Chunk) : forall (cursor : Q),
  arrivesInTime cursor chunks ->
  scheduleFrom cursor chunks = runningSums cursor (map chunkDuration chunks).
Proof.
  induction chunks as [|c chunks IH]; intros cursor Harr; [reflexivity | ].
  destruct Harr as [Hnow Harr]. cbn [scheduleFrom map runningSums].
  rewrite (Qmax_arrived _ _ Hnow). f_equal. now apply IH.
Qed.

(** C1, amended.  A run of messages without interruption flag, met with
    the audio context present: audio chunks that the handler schedules,
    with any messages that carry no audio among them.  When each chunk
    after the first arrives no later than the end of the audio scheduled
    before it, the first chunk starts at [max(cursor, deviceNow)] and each
    later one at the start of the one before it plus its duration, the
    sum being the double that the code computes. *)
Theorem chunks_in_time_play_back_to_back auth (s : Store) (run : list Step) :
  audioContextRef s <> None ->
  Forall stepAsMarked run ->
  match chunksOf run with
  | [] => True
  | first :: rest =>
      arrivesInTime
        (addDoubles (Qmax (nextStartTimeRef s) (currentTime (fst (fst first))))
              (chunkDuration first)) rest
  end ->
  playsBackToBack auth s run.
Proof.
  intros Hctx Hall Harr. unfold playsBackToBack.
  destruct (run_steps auth run s Hall Hctx) as (t & Ht & Hst).
  destruct (chunksOf run) as [|first rest]; [exact I | ].
  rewrite (emittedBy_app _ _ _ Ht), Hst.
  cbn [scheduleFrom map runningSums]. f_equal.
  now apply scheduleFrom_sums.
Qed.

Lemma chunkAt_scheduled now : scheduled (chunkAt now).
Proof.
  repeat split.
  - exists "AAAA". repeat split. discriminate.
Qed.

Lemma timelyChunks_witness :
  audioContextRef connectedStore <> None /\
  Forall stepAsMarked timelyChunks /\
  playsBackToBack false connectedStore timelyChunks.
Proof.
  assert (H1 : audioContextRef connectedStore <> None) by discriminate.
  assert (H2 : Forall stepAsMarked timelyChunks).
  { repeat constructor; try apply chunkAt_scheduled. }
  split; [exact H1 | split; [exact H2 | ]].
  apply chunks_in_time_play_back_to_back; auto.
  cbn [chunksOf timelyChunks arrivesInTime].
  repeat split; apply Qle_bool_imp_le; vm_compute; reflexivity.
Defined.

(** C1 as stated fails: two chunks of half a second, the second arriving at
    device time 5, are both scheduled; the second starts at 5, not at 1/2. *)
Lemma late_chunk_leaves_a_gap :
  audioContextRef connectedStore <> None /\
  Forall stepAsMarked lateChunks /\
  startTimes
    (emittedBy connectedStore
       (runMessages false (map arrivalOf lateChunks) connectedStore))
  = [0%Q; 5%Q] /\
  ~ playsBackToBack false connectedStore lateChunks.
Proof.
  split; [discriminate | ].
  split; [repeat constructor; apply chunkAt_scheduled | ].
  split; [reflexivity | ].
  unfold playsBackToBack. vm_compute. discriminate.
Qed.

(** The sums are those of the doubles: four chunks of a tenth of a second
    that arrive together start at 0, 0.1, 0.2 and 0.30000000000000004,
    the last of which is not three times the first duration. *)
Example tenths_start_at_the_double_sums :
  playsBackToBack false connectedStore tenths /\
  (nth 3 (startTimes
            (emittedBy connectedStore
               (runMessages false (map arrivalOf tenths) connectedStore))) 0
   == 5404319552844596 # 18014398509481984)%Q /\
  ~ (nth 3 (startTimes
              (emittedBy connectedStore
                 (runMessages false (map arrivalOf tenths) connectedStore))) 0
     == 3 * duration tenth)%Q.
Proof.
  split; [ | split].
  - unfold playsBackToBack. vm_compute. reflexivity.
  - vm_compute. reflexivity.
  - vm_compute. discriminate.
Qed.

(** What the whole handler does to the session and to the trace before
    step 4, and where step 4 starts; without [parts] in a model turn the
    handler throws before step 4. *)
Lemma handleSessionMessage_run w auth m s :
  exists s3 t,
    steady isAudioEffect s s3 /\
    keeps notebook s s3 /\
    trace s3 = trace s ++ t /\
    forallb isAudioEffect t = true /\
    (flag interrupted m = false -> isDouble (nextStartTimeRef s) ->
     (nextStartTimeRef s <= nextStartTimeRef s3)%Q) /\
    (isDouble (nextStartTimeRef s) -> isDouble (currentTime w) ->
     isDouble (nextStartTimeRef s3)) /\
    Forall (fun x => (currentTime w <= x)%Q) (startTimes t) /\
    match audioDataOf m with
    | Ok _ => handleSessionMessage w auth m s = handleFunctionCalls w auth m s3
    | Throw e => handleSessionMessage w auth m s = (Throw e, s3)
    end.
Proof.
  destruct (handleTranscriptions_run m s) as (s1 & H1 & Q1).
  destruct (handleInterruption_run w m s1) as (s2 & H2 & S2 & Hcur2).
  destruct (handleAudioOutput_run w m s2)
    as (r & s3 & t3 & H3 & S3 & Ht3 & Hle & Hdb & Hnow & Hres).
  exists s3.
  pose proof (handleTranscriptions_notebook m s) as N1.
  pose proof (handleInterruption_notebook w m s1) as N2.
  pose proof (handleAudioOutput_notebook w m s2) as N3.
  rewrite H1 in N1. rewrite H2 in N2. rewrite H3 in N3. cbn [snd] in N1, N2, N3.
  destruct Q1 as [? ? Hc1 ? ? ? ? ? Q1t].
  pose proof (onlyEmits_nothing _ _ Q1t) as Ht1.
  destruct S2 as [? ? ? ? ? ? (t2 & Ht2 & Hok2)].
  destruct S3 as [? ? ? ? ? ? (t3' & Ht3' & Hok3)].
  assert (t3' = t3) by (rewrite Ht3 in Ht3'; now apply app_inv_head in Ht3').
  subst t3'.
  exists (t2 ++ t3).
  split; [ | split; [ | split; [ | split; [ | split; [ | split; [ | split]]]]]].
  - constructor; try congruence.
    exists (t2 ++ t3). rewrite Ht3, Ht2, Ht1, app_assoc. split; auto.
    now rewrite forallb_app, (stop_is_audio _ Hok2), Hok3.
  - eapply keeps_trans; [exact N1 | ]. eapply keeps_trans; [exact N2 | exact N3].
  - now rewrite Ht3, Ht2, Ht1, app_assoc.
  - now rewrite forallb_app, (stop_is_audio _ Hok2), Hok3.
  - intros Hni Hd. rewrite (handleInterruption_idle w m s1 Hni) in H2.
    assert (s2 = s1) by congruence. subst s2. rewrite <- Hc1. apply Hle.
    now rewrite Hc1.
  - intros Hd Hn. apply Hdb; [ | exact Hn].
    destruct Hcur2 as [E | E]; rewrite E; [now rewrite Hc1 | apply isDouble_0].
  - now rewrite startTimes_app, (startTimes_stop _ Hok2).
  - unfold handleSessionMessage.
    rewrite (bind_Ok _ _ _ _ _ H1), (bind_Ok _ _ _ _ _ H2).
    destruct (audioDataOf m) as [a | e].
    + subst r. now rewrite (bind_Ok _ _ _ _ _ H3).
    + destruct Hres as [-> ->]. unfold bind. now rewrite H3.
Qed.

(** The store the handler leaves is the one step 4 made of the store of
    steps 1 to 3, if it came to step 4. *)
Lemma handleSessionMessage_after w auth m s s3 :
  match audioDataOf m with
  | Ok _ => handleSessionMessage w auth m s = handleFunctionCalls w auth m s3
  | Throw e => handleSessionMessage w auth m s = (Throw e, s3)
  end ->
  quiet isToolEffect s3 (exec (handleSessionMessage w auth m) s).
Proof.
  unfold exec. destruct (audioDataOf m); intros ->.
  - apply handleFunctionCalls_quiet.
  - apply quiet_refl.
Qed.

Lemma sameCursor_refl s : sameCursor s s.
Proof. reflexivity. Qed.

Lemma sameCursor_trans a b c : sameCursor a b -> sameCursor b c -> sameCursor a c.
Proof. unfold sameCursor. congruence. Qed.

Ltac cursor_step :=
  lazymatch goal with
  | |- preserves _ (bind _ _) =>
      apply preserves_bind; [exact sameCursor_trans | | intros ?]
  | |- preserves _ (tryCatch _ _) =>
      apply preserves_tryCatch; [exact sameCursor_trans | | intros ?]
  | |- preserves _ (when _ _) => apply preserves_when; [exact sameCursor_refl | ]
  | |- preserves _ (ret _) => apply preserves_ret; exact sameCursor_refl
  | |- preserves _ (throw _) => apply preserves_throw; exact sameCursor_refl
  | |- preserves _ (gets _) => apply preserves_gets; exact sameCursor_refl
  | |- preserves _ (modify _) => intros ?; reflexivity
  | |- preserves _ (emit _) => intros ?; reflexivity
  | |- preserves _ (call _ _) => unfold call
  | |- preserves _ (setStatus _) => unfold setStatus
  | |- preserves _ (setIsSpeaking _) => unfold setIsSpeaking
  | |- preserves _ freshId => unfold freshId
  | |- preserves _ (match ?x with _ => _ end) => destruct x
  end.

Lemma cleanupAudioNodes_cursor w : preserves sameCursor (cleanupAudioNodes w).
Proof. unfold cleanupAudioNodes. repeat cursor_step. Qed.

(** The handlers that have no business with the scheduler. *)
Lemma other_handlers_cursor w :
  (forall p f, preserves sameCursor (onaudioprocess w p f)) /\
  preserves sameCursor (startConnection w) /\
  preserves sameCursor (onopen w) /\
  preserves sameCursor (onerror w) /\
  (forall n, preserves sameCursor (onended n)).
Proof.
  repeat split; intros;
    unfold onaudioprocess, startConnection, startConnectionDuring, onopen,
      onerror, onended;
    repeat cursor_step; apply cleanupAudioNodes_cursor.
Qed.

(** C2, amended.  With a cursor that is a double: across a message that
    carries no interruption flag the cursor does not go back, and whatever
    the message, a chunk it schedules starts no earlier than the time the
    handler read on the device clock; the capture tick, the start of a
    connection, the transport's open and error callbacks, the end of a
    playback and the cleanup of the capture nodes leave the cursor where
    it is.  The cursor is a double again after the message when the
    clock's time is one. *)
Theorem cursor_advances_without_interrupt w auth m (s : Store) :
  isDouble (nextStartTimeRef s) ->
  (flag interrupted m = false ->
   cursorNonDecreasing (handleSessionMessage w auth m) s) /\
  Forall (fun x => (currentTime w <= x)%Q)
    (startTimes (emittedBy s (exec (handleSessionMessage w auth m) s))) /\
  (forall p f, sameCursor s (exec (onaudioprocess w p f) s)) /\
  sameCursor s (exec (startConnection w) s) /\
  sameCursor s (exec (onopen w) s) /\
  sameCursor s (exec (onerror w) s) /\
  (forall n, sameCursor s (exec (onended n) s)) /\
  sameCursor s (exec (cleanupAudioNodes w) s) /\
  (isDouble (currentTime w) ->
   isDouble (nextStartTimeRef (exec (handleSessionMessage w auth m) s))).
Proof.
  intros Hd.
  destruct (handleSessionMessage_run w auth m s)
    as (s3 & t & S3 & _ & Ht & Hok & Hle & Hdb & Hnow & Hrun).
  pose proof (handleSessionMessage_after w auth m s s3 Hrun)
    as [_ _ Hc _ _ _ _ _ (t4 & Ht4 & Hok4)].
  unfold cursorNonDecreasing.
  split; [ | split; [ | split; [ | split; [ | split; [ | split; [ | split; [ | split]]]]]]].
  - intros Hni. rewrite Hc. auto.
  - rewrite (emittedBy_app s _ (t ++ t4)).
    + now rewrite startTimes_app, (startTimes_tool _ Hok4), app_nil_r.
    + now rewrite Ht4, Ht, app_assoc.
  - intros p f. apply (proj1 (other_handlers_cursor w)).
  - apply (other_handlers_cursor w).
  - apply (other_handlers_cursor w).
  - apply (other_handlers_cursor w).
  - intros n. apply (other_handlers_cursor w).
  - apply cleanupAudioNodes_cursor.
  - intros Hn. rewrite Hc. auto.
Qed.

Lemma audioMessage_witness :
  isDouble (nextStartTimeRef connectedStore) /\
  cursorNonDecreasing
    (handleSessionMessage (calmWorld 0) false audioMessage) connectedStore.
Proof.
  assert (H : isDouble (nextStartTimeRef connectedStore)) by reflexivity.
  split; [exact H | ].
  exact (proj1 (cursor_advances_without_interrupt
                  (calmWorld 0) false audioMessage connectedStore H) eq_refl).
Defined.

(** C2 as stated fails: with one chunk scheduled the cursor is at 1/2; a
    message with the interruption flag puts it back to 0. *)
Lemma interrupt_moves_cursor_back :
  isDouble (nextStartTimeRef playingStore) /\
  (nextStartTimeRef playingStore == 1 # 2)%Q /\
  ~ cursorNonDecreasing
      (handleSessionMessage (calmWorld 1) false interruptMessage) playingStore.
Proof.
  split; [vm_compute; reflexivity | ].
  split; [vm_compute; reflexivity | ].
  unfold cursorNonDecreasing. vm_compute. intros H. apply H. reflexivity.
Qed.

(** The clock is read before the payload is decoded: when the decoding
    has taken a second, [source.start] is called with a time that is
    already past on the device. *)
Example slow_decoding_starts_in_the_past :
  startTimes
    (emittedBy connectedStore
       (exec (handleSessionMessage slowWorld false audioMessage) connectedStore))
  = [currentTime slowWorld] /\
  (currentTime slowWorld < currentTimeAtStart slowWorld)%Q.
Proof. split; reflexivity. Qed.

(** C3, amended.  While the session handle is present and the transport
    accepts the responses, for a message that the handler can take apart
    and a [localStorage] that the dispatcher can use, the handler returns
    and every call of an inbound batch is answered by exactly one
    response, call by call, with the call's id and name, and with the
    result ["ok"] when the name is not a recognized operation. *)
Theorem batch_answered_while_session_present w auth m (s : Store) (x : Session) :
  sessionRef s = Some x ->
  (forall i n r, throws w (E_sendToolResponse (session_id x) i n r) = false) ->
  wellFormed m ->
  storageUsable w s ->
  batchAnswered w auth m s.
Proof.
  intros Hx Hsend ((a & Ha) & Hcalls) Hst tc calls Htc Hfc.
  destruct (handleSessionMessage_run w auth m s)
    as (s3 & t & S3 & N3 & Ht & Hok & _ & _ & _ & Hrun).
  rewrite Ha in Hrun.
  assert (Hx3 : sessionRef s3 = Some x)
    by (rewrite (st_session _ _ _ S3); exact Hx).
  assert (Hst3 : storageUsable w s3).
  { apply (storageUsable_frame w s); [ | exact Hst].
    unfold keeps, notebook in N3. congruence. }
  destruct (Hcalls tc Htc) as (calls' & Hfc' & Hargs).
  assert (calls' = calls) by congruence. subst calls'.
  destruct (handleToolCalls_present w auth calls s3 x Hx3 Hsend Hst3 Hargs)
    as (s4 & t4 & Hrun4 & Ht4 & Hall).
  unfold exec. rewrite Hrun. unfold handleFunctionCalls. rewrite Htc, Hfc, Hrun4.
  split; [reflexivity | ]. simpl.
  rewrite (emittedBy_app s s4 (t ++ t4)).
  - now rewrite responses_app, (responses_audio _ Hok).
  - now rewrite Ht4, Ht, app_assoc.
Qed.

(** With no session handle, a message is handled without any response
    being sent. *)
Lemma no_session_sends_nothing w auth m (s : Store) :
  sessionRef s = None ->
  responses (emittedBy s (exec (handleSessionMessage w auth m) s)) = [].
Proof.
  intros Hx.
  destruct (handleSessionMessage_run w auth m s)
    as (s3 & t & S3 & _ & Ht & Hok & _ & _ & _ & Hrun).
  assert (Hx3 : sessionRef s3 = None)
    by (rewrite (st_session _ _ _ S3); exact Hx).
  unfold exec. destruct (audioDataOf m) as [a | e]; rewrite Hrun.
  - unfold handleFunctionCalls.
    destruct (toolCall m) as [tc|]; [destruct (functionCalls tc) as [calls|] | ];
      cbn [snd ret throw].
    + destruct (handleToolCalls_absent w auth calls s3 Hx3) as (t4 & Ht4 & Hnone).
      rewrite (emittedBy_app s _ (t ++ t4)).
      * now rewrite responses_app, (responses_audio _ Hok), Hnone.
      * now rewrite Ht4, Ht, app_assoc.
    + now rewrite (emittedBy_app s s3 t Ht), (responses_audio _ Hok).
    + now rewrite (emittedBy_app s s3 t Ht), (responses_audio _ Hok).
  - cbn [snd]. now rewrite (emittedBy_app s s3 t Ht), (responses_audio _ Hok).
Qed.

Lemma mixedCalls_wellFormed : wellFormed (callsMessage mixedCalls).
Proof.
  split; [now exists None | ].
  intros tc Htc. injection Htc as <-. exists mixedCalls.
  split; [reflexivity | ]. repeat constructor; discriminate.
Qed.

Lemma connectedStore_usable : storageUsable (calmWorld 0) connectedStore.
Proof. repeat split. discriminate. Qed.

Lemma mixedCalls_witness :
  sessionRef connectedStore = Some (mkSession 7) /\
  wellFormed (callsMessage mixedCalls) /\
  storageUsable (calmWorld 0) connectedStore /\
  batchAnswered (calmWorld 0) false (callsMessage mixedCalls) connectedStore.
Proof.
  split; [reflexivity | ].
  split; [exact mixedCalls_wellFormed | ].
  split; [exact connectedStore_usable | ].
  apply (batch_answered_while_session_present
           (calmWorld 0) false (callsMessage mixedCalls) connectedStore
           (mkSession 7)).
  - reflexivity.
  - intros i n r. reflexivity.
  - exact mixedCalls_wellFormed.
  - exact connectedStore_usable.
Defined.

(** C3 as stated fails: before the session handle is assigned, the calls
    of a batch get no response. *)
Lemma no_session_no_response :
  sessionRef openingStore = None /\
  ~ batchAnswered (calmWorld 0) false (callsMessage mixedCalls) openingStore.
Proof.
  split; [reflexivity | ].
  intros H.
  destruct (H (mkToolCall (Some mixedCalls)) mixedCalls eq_refl eq_refl)
    as [_ Hall].
  vm_compute in Hall. inversion Hall.
Qed.

(** Each condition of C3 is needed.  For a model turn without [parts] the
    handler throws before the batch; a call that reads a property of
    [args] and came without them ends the loop; so does a text under the
    tasks key that is not JSON. *)
Example batches_that_are_not_answered :
  let noParts :=
    mkMessage (Some (mkServerContent None None false false (Some (mkContent None))))
              (Some (mkToolCall (Some mixedCalls))) in
  let noArgs :=
    callsMessage [mkCall "a" "save_memory" None; mkCall "b" "open_door" None] in
  (fst (handleSessionMessage (calmWorld 0) false noParts connectedStore)
   = Throw TypeError /\
   responses (emittedBy connectedStore
                (exec (handleSessionMessage (calmWorld 0) false noParts)
                      connectedStore)) = []) /\
  (fst (handleSessionMessage (calmWorld 0) false noArgs connectedStore)
   = Throw TypeError /\
   responses (emittedBy connectedStore
                (exec (handleSessionMessage (calmWorld 0) false noArgs)
                      connectedStore)) = []) /\
  (fst (handleSessionMessage (calmWorld 0) false (callsMessage mixedCalls)
          (set_localStorage [(TASKS_KEY, NotJson)] connectedStore))
   = Throw SyntaxError).
Proof. repeat split. Qed.

(** *** End of connection *)

Lemma track_loop w (l : list nat) : forall s,
  (forall k, In k l -> throws w (E_trackStop k) = false) ->
  forEach (fun track => call w (E_trackStop track)) l s
  = (Ok tt, set_trace (trace s ++ map E_trackStop l) s).
Proof.
  induction l as [|k l IH]; intros s Hok; cbn [forEach map].
  - unfold ret. now rewrite set_trace_same.
  - unfold bind at 1. unfold call, bind, emit, modify.
    rewrite (Hok k) by (left; reflexivity). unfold ret.
    rewrite IH by (intros; apply Hok; right; assumption).
    f_equal. apply (set_trace_twice s [_]).
Qed.

Lemma filter_cleanup_tracks l :
  filter isCleanup (map E_trackStop l) = map E_trackStop l.
Proof. induction l; simpl; congruence. Qed.

Lemma filter_cleanup_stops (l : list SourceNode) :
  filter isCleanup (map (fun x => E_sourceStop (node_id x)) l)
  = map (fun x => E_sourceStop (node_id x)) l.
Proof. induction l; simpl; congruence. Qed.

Lemma filter_cleanupCalls w s :
  filter isCleanup (cleanupCalls w s) = cleanupCalls w s.
Proof.
  unfold cleanupCalls. rewrite !filter_app.
  rewrite filter_cleanup_stops. f_equal; [ | f_equal; [ | f_equal ] ].
  - destruct (audioNodesRef s); auto.
    destruct (throws w (E_disconnect _)); reflexivity.
  - destruct (sessionRef s); reflexivity.
  - destruct (streamRef s); auto. apply filter_cleanup_tracks.
Qed.

Lemma cleanupAudioNodes_run w s :
  cleanupAudioNodes w s
  = (Ok tt,
     match audioNodesRef s with
     | Some n =>
         set_audioNodesRef None
           (set_trace
              (trace s ++
               if throws w (E_disconnect (nodes_processor n))
               then [E_disconnect (nodes_processor n)]
               else [E_disconnect (nodes_processor n);
                     E_disconnect (nodes_source n)]) s)
     | None => s
     end).
Proof.
  unfold cleanupAudioNodes. unfold bind at 1. unfold gets at 1.
  destruct (audioNodesRef s) as [n|]; [ | reflexivity].
  unfold tryCatch, call, bind, emit, modify, throw, ret.
  cbn [fst snd trace set_trace].
  destruct (throws w (E_disconnect (nodes_processor n))); [reflexivity | ].
  destruct (throws w (E_disconnect (nodes_source n)));
    destruct s; unfold set_audioNodesRef, set_trace; cbn;
    now rewrite <- app_assoc.
Qed.

(** The close of the transport handle, when [close()] does not throw. *)
Lemma close_step w s :
  (forall x, sessionRef s = Some x ->
             throws w (E_sessionClose (session_id x)) = false) ->
  (session <- gets sessionRef ;;
   match session with
   | Some x => call w (E_sessionClose (session_id x)) ;;
               modify (set_sessionRef None)
   | None => ret tt
   end) s
  = (Ok tt,
     match sessionRef s with
     | Some x =>
         set_sessionRef None
           (set_trace (trace s ++ [E_sessionClose (session_id x)]) s)
     | None => s
     end).
Proof.
  intros H. unfold bind at 1. unfold gets at 1.
  destruct (sessionRef s) as [x|]; [ | reflexivity].
  unfold call, bind, emit, modify. rewrite (H x eq_refl). reflexivity.
Qed.

(** The release of the microphone, when no track's [stop()] throws. *)
Lemma release_step w s :
  (forall st k, streamRef s = Some st -> In k (tracks st) ->
                throws w (E_trackStop k) = false) ->
  (stream <- gets streamRef ;;
   match stream with
   | Some st => forEach (fun track => call w (E_trackStop track)) (tracks st) ;;
                modify (set_streamRef None)
   | None => ret tt
   end) s
  = (Ok tt,
     match streamRef s with
     | Some st =>
         set_streamRef None
           (set_trace (trace s ++ map E_trackStop (tracks st)) s)
     | None => s
     end).
Proof.
  intros H. unfold bind at 1. unfold gets at 1.
  destruct (streamRef s) as [st|]; [ | reflexivity].
  unfold bind at 1. rewrite track_loop by (intros; eapply H; eauto).
  reflexivity.
Qed.

(** The end-connection path when neither [close()] nor a track's [stop()]
    throws. *)
Lemma endConnection_run w s :
  (forall x, sessionRef s = Some x ->
             throws w (E_sessionClose (session_id x)) = false) ->
  (forall st k, streamRef s = Some st -> In k (tracks st) ->
                throws w (E_trackStop k) = false) ->
  endConnection w s
  = (Ok tt,
     set_status IDLE
       (set_nextStartTimeRef 0%Q
          (set_sourcesRef []
             (set_streamRef None
                (set_sessionRef None
                   (set_audioNodesRef None
                      (set_trace (trace s ++ cleanupCalls w s ++ [E_setStatus IDLE])
                         s))))))).
Proof.
  intros Hclose Htracks. unfold endConnection.
  rewrite (bind_Ok _ _ _ _ _ (cleanupAudioNodes_run w s)).
  match goal with |- bind _ _ ?s1 = _ => set (a := s1) end.
  assert (Ha : sessionRef a = sessionRef s /\ streamRef a = streamRef s /\
               sourcesRef a = sourcesRef s)
    by (subst a; destruct (audioNodesRef s); repeat split).
  destruct Ha as (Ha1 & Ha2 & Ha3).
  rewrite <- bind_assoc.
  rewrite (bind_Ok _ _ _ _ _ (close_step w a
             ltac:(rewrite Ha1; exact Hclose))).
  match goal with |- bind _ _ ?s1 = _ => set (b := s1) end.
  assert (Hb : streamRef b = streamRef s /\ sourcesRef b = sourcesRef s)
    by (subst b; destruct (sessionRef a); split; assumption).
  destruct Hb as (Hb2 & Hb3).
  rewrite <- bind_assoc.
  rewrite (bind_Ok _ _ _ _ _ (release_step w b
             ltac:(rewrite Hb2; exact Htracks))).
  match goal with |- bind _ _ ?s1 = _ => set (c := s1) end.
  assert (Hc : sourcesRef c = sourcesRef s)
    by (subst c; destruct (streamRef b); assumption).
  rewrite (bind_Ok _ _ _ _ _ (stopAllAudio_run w c)). rewrite Hc.
  unfold setStatus, bind, emit, modify. f_equal.
  subst c b a. unfold cleanupCalls.
  destruct s as [st sp me ci co ta dr em ac nx so se sr an ls tk fr tr pm].
  cbn [audioNodesRef sessionRef streamRef sourcesRef trace] in *.
  destruct an as [n|], se as [x|], sr as [str|]; store_norm;
    repeat rewrite <- app_assoc; reflexivity.
Qed.

(** C5, amended.  When neither the transport's [close()] nor a track's
    [stop()] throws, the end-connection path returns and has made, in
    order: the [disconnect()] of the processor node and then of the source
    node (under one guard: when the processor's throws, the source's is
    not attempted), the [close()] of the transport handle, the [stop()] of
    every microphone track, the [stop()] of every playback handle (each
    under its own guard).  Afterwards the refs hold no capture node, no
    session, no stream and no playback handle, the cursor is 0 and the
    status is IDLE; the audio contexts are not closed and stay in
    [audioContextRef].  This holds whichever of the [disconnect()] and
    playback [stop()] calls throw. *)
Theorem endConnection_cleans_up w (s : Store) :
  (forall x, sessionRef s = Some x ->
             throws w (E_sessionClose (session_id x)) = false) ->
  (forall st k, streamRef s = Some st -> In k (tracks st) ->
                throws w (E_trackStop k) = false) ->
  fst (endConnection w s) = Ok tt /\
  fullCleanup w s /\
  status (exec (endConnection w) s) = IDLE.
Proof.
  intros Hclose Htracks. unfold fullCleanup, exec.
  rewrite (endConnection_run w s Hclose Htracks). simpl.
  repeat split.
  rewrite (emittedBy_app s _ (cleanupCalls w s ++ [E_setStatus IDLE]))
    by reflexivity.
  rewrite filter_app, filter_cleanupCalls. simpl. apply app_nil_r.
Qed.

Lemma busyStore_witness :
  fst (endConnection (faultyWorld devicesThrow) busyStore) = Ok tt /\
  fullCleanup (faultyWorld devicesThrow) busyStore.
Proof.
  assert (H := endConnection_cleans_up (faultyWorld devicesThrow) busyStore).
  split; apply H; intros; reflexivity.
Defined.

(** C5 as stated fails: when the transport's [close()] throws, the
    exception leaves [endConnection]; the microphone track is not stopped,
    the scheduler is not interrupted, the handles stay in the refs. *)
Lemma close_failure_skips_cleanup :
  fst (endConnection (faultyWorld closeThrows) busyStore)
  = Throw (Raised (E_sessionClose 7)) /\
  emittedBy busyStore (exec (endConnection (faultyWorld closeThrows)) busyStore)
  = [E_disconnect 11; E_disconnect 10; E_sessionClose 7] /\
  ~ fullCleanup (faultyWorld closeThrows) busyStore.
Proof.
  split; [reflexivity | split; [reflexivity | ] ].
  unfold fullCleanup. intros (_ & _ & H & _). revert H. vm_compute. discriminate.
Qed.

(** *** Start of connection *)

Lemma unusable_is_invalid apiKey :
  credentialUnusable apiKey -> invalidKey apiKey = true.
Proof.
  intros [-> | [-> | (k & -> & Hk)]]; simpl; auto.
  rewrite Hk. simpl. apply orb_true_r.
Qed.

(** C6.  When the API key is missing, is the placeholder or is blank,
    [startConnection] returns with the status ERROR, reached directly from
    CONNECTING; the only things it did are those two transitions and the
    logging of the failure, so the microphone was not asked for, and the
    refs are what they were. *)
Theorem unusable_credential_goes_to_error w (s : Store) :
  credentialUnusable (VITE_API_KEY w) ->
  fst (startConnection w s) = Ok tt /\
  emittedBy s (exec (startConnection w) s)
  = [E_setStatus CONNECTING; E_consoleError "Failed to start session:";
     E_setStatus ERROR] /\
  status (exec (startConnection w) s) = ERROR /\
  streamRef (exec (startConnection w) s) = streamRef s /\
  audioContextRef (exec (startConnection w) s) = audioContextRef s /\
  sessionRef (exec (startConnection w) s) = sessionRef s.
Proof.
  intros H. apply unusable_is_invalid in H.
  unfold exec, startConnection, startConnectionDuring, setStatus. unfold_monad. simpl.
  rewrite H. simpl. repeat split.
  apply emittedBy_app. simpl. now rewrite <- !app_assoc.
Qed.

Lemma blankKeyWorld_witness :
  credentialUnusable (VITE_API_KEY blankKeyWorld) /\
  status (exec (startConnection blankKeyWorld) initialStore) = ERROR /\
  streamRef (exec (startConnection blankKeyWorld) initialStore) = None.
Proof.
  assert (H : credentialUnusable (VITE_API_KEY blankKeyWorld))
    by (right; right; exists "   "; split; reflexivity).
  split; [exact H | ].
  split; apply (unusable_credential_goes_to_error blankKeyWorld initialStore H).
Defined.

(** *** Capture *)

Lemma onaudioprocess_absent w p f s :
  sessionRef s = None -> onaudioprocess w p f s = (Ok tt, s).
Proof. intros H. unfold onaudioprocess, bind, gets. now rewrite H. Qed.

Lemma onaudioprocess_present w x f s :
  sessionRef s <> None ->
  onaudioprocess w (Fulfilled (Some x)) f s
  = (Ok tt, set_trace (trace s ++ [sendOf x (w, f)]) s).
Proof.
  intros H. unfold onaudioprocess, bind, gets.
  destruct (sessionRef s); [ | congruence].
  unfold tryCatch, call, bind, emit, modify, sendOf. simpl.
  destruct (throws w _); reflexivity.
Qed.

Lemma onaudioprocess_returns w p f s : fst (onaudioprocess w p f s) = Ok tt.
Proof.
  unfold onaudioprocess, bind, gets.
  destruct (sessionRef s); [ | reflexivity].
  destruct p as [[x|]|]; try reflexivity.
  unfold tryCatch, call, bind, emit, modify. simpl.
  destruct (throws w _); reflexivity.
Qed.

Lemma tickResults_ok p ticks : forall s,
  Forall (fun r => r = Ok tt) (tickResults p ticks s).
Proof.
  induction ticks as [|[w f] ticks IH]; intros s; simpl; constructor; auto.
  apply onaudioprocess_returns.
Qed.

Lemma runTicks_absent p ticks : forall s,
  sessionRef s = None -> runTicks p ticks s = s.
Proof.
  induction ticks as [|[w f] ticks IH]; intros s H; simpl; auto.
  unfold exec. rewrite (onaudioprocess_absent w p f s H). simpl. auto.
Qed.

Lemma runTicks_present x ticks : forall s,
  sessionRef s <> None ->
  runTicks (Fulfilled (Some x)) ticks s
  = set_trace (trace s ++ map (sendOf x) ticks) s.
Proof.
  induction ticks as [|[w f] ticks IH]; intros s H; simpl.
  - now rewrite set_trace_same.
  - unfold exec. rewrite (onaudioprocess_present w x f s H). simpl.
    rewrite IH by exact H. apply (set_trace_twice s [_]).
Qed.

(** C8.  No tick of the capture callback ends with an exception.  With no
    session handle, a run of ticks leaves the store as it was: nothing is
    sent and nothing is kept for later.  With a session handle (and the
    session promise fulfilled), every frame is encoded and handed to the
    transport, in order, whichever of the sends throw. *)
Theorem capture_forwards_while_session_present
  (p : Settled) (x : Session) (ticks : list (World * AudioFrame)) (s : Store) :
  Forall (fun r => r = Ok tt) (tickResults p ticks s) /\
  match sessionRef s with
  | None => runTicks p ticks s = s
  | Some _ =>
      runTicks (Fulfilled (Some x)) ticks s
      = set_trace (trace s ++ map (sendOf x) ticks) s
  end.
Proof.
  split; [apply tickResults_ok | ].
  destruct (sessionRef s) eqn:H.
  - apply runTicks_present. congruence.
  - now apply runTicks_absent.
Qed.

Example ticks_with_failing_sends :
  sentFrames
    (trace (runTicks (Fulfilled (Some (mkSession 7))) threeTicks connectedStore))
  = [mkBlob "audio/pcm;rate=16000" ""; mkBlob "audio/pcm;rate=16000" "";
     mkBlob "audio/pcm;rate=16000" ""] /\
  runTicks (Fulfilled (Some (mkSession 7))) threeTicks openingStore
  = openingStore.
Proof. split; reflexivity. Qed.

(** *** The mail collaborator *)

Lemma requests_app a b : requests (a ++ b) = requests a ++ requests b.
Proof.
  induction a as [|e a IH]; simpl; auto. destruct e; simpl; now rewrite ?IH.
Qed.

Lemma requests_map_fetch (rs : list Request) : requests (map E_fetch rs) = rs.
Proof. induction rs as [|r rs IH]; simpl; congruence. Qed.

Lemma substring_length (m : nat) : forall s : string,
  String.length (substring 0 m s) = Nat.min m (String.length s).
Proof.
  induction m as [|m IH]; intros s; destruct s as [|c s]; simpl; auto.
Qed.

Lemma substring_prefix (m : nat) : forall s : string,
  prefix (substring 0 m s) s = true.
Proof.
  induction m as [|m IH]; intros s; destruct s as [|c s]; simpl; auto.
  destruct (ascii_dec c c); [apply IH | congruence].
Qed.

Lemma parseEmail_body w detail e :
  Gmail.parseEmail w detail = Ok e -> truncatedBodyOf w detail e.
Proof.
  unfold Gmail.parseEmail, truncatedBodyOf. unfold andThen at 1 2 3.
  destruct (member (Some detail) "payload") as [payload|]; [ | discriminate].
  destruct (member payload "headers") as [headers|]; [ | discriminate].
  unfold andThen at 8.
  destruct (Gmail.extractBody w payload) as [body|]; [ | discriminate].
  unfold andThen. intros H.
  repeat match type of H with
         | match ?x with _ => _ end = _ => destruct x; try discriminate
         end.
  injection H as <-. exists body. cbn [email_body].
  split; [reflexivity | ]. split; [reflexivity | ].
  split; [apply substring_length | apply substring_prefix].
Qed.

(** The detail loop appends one request per record, and each record has
    the body of the details its request got, truncated. *)
Lemma fetchDetails_bodies w token l : forall s es s',
  Gmail.fetchDetails w token l s = (Ok es, s') ->
  exists rs,
    trace s' = trace s ++ map E_fetch rs /\
    Forall2 (fun r e => exists detail,
                          fetchJson w r = Some detail /\ truncatedBodyOf w detail e)
            rs es.
Proof.
  induction l as [|m l IH]; intros s es s' H; cbn [Gmail.fetchDetails] in H.
  - unfold ret in H. injection H as <- <-. exists []. simpl.
    now rewrite app_nil_r.
  - unfold bind at 1 in H. unfold liftR at 1 in H.
    destruct (member (Some m) "id") as [id|]; [ | discriminate].
    unfold bind at 1 in H. unfold Gmail.fetch at 1 in H.
    unfold bind at 1 in H. unfold emit at 1 in H. unfold modify at 1 in H.
    cbn [fst snd] in H.
    destruct (fetchJson w (GetMessage (template id) token)) as [detail|] eqn:Hf;
      [ | discriminate].
    unfold ret at 1 in H.
    unfold bind at 1 in H. unfold liftR at 1 in H.
    destruct (Gmail.parseEmail w detail) as [email|] eqn:He; [ | discriminate].
    unfold bind at 1 in H.
    destruct (Gmail.fetchDetails w token l _) as [[rest|] s2] eqn:Hr;
      [ | discriminate].
    unfold ret in H. injection H as <- <-.
    destruct (IH _ _ _ Hr) as (rs & Ht & Hall).
    exists (GetMessage (template id) token :: rs). split.
    + rewrite Ht. destruct s. cbn [trace set_trace map].
      now rewrite <- app_assoc.
    + constructor; [ | exact Hall].
      exists detail. split; [exact Hf | now apply parseEmail_body].
Qed.

Lemma truncated_within_limit w r e :
  (exists detail, fetchJson w r = Some detail /\ truncatedBodyOf w detail e) ->
  String.length (email_body e) <= 500.
Proof. intros (detail & _ & full & _ & _ & Hlen & _). lia. Qed.

Lemma listEmails_bodies w q maxResults logged s es s' :
  Gmail.listEmails w q maxResults logged s = (Ok es, s') ->
  bodiesTruncated w (requests (emittedBy s s')) es.
Proof.
  unfold Gmail.listEmails. unfold bind at 1. unfold gets at 1.
  destruct (accessToken s) as [token|]; [ | discriminate].
  destruct (String.eqb token ""); [discriminate | ].
  unfold tryCatch. unfold bind at 1. unfold Gmail.fetch at 1.
  unfold bind at 1. unfold emit at 1. unfold modify at 1.
  cbn [fst snd].
  set (request := ListMessages q _ token).
  destruct (fetchJson w request) as [listData|];
    [ | unfold bind, emit, modify, throw; simpl; discriminate].
  unfold ret at 1.
  unfold bind at 1. unfold liftR at 1.
  destruct (member (Some listData) "messages") as [messages|];
    [ | unfold bind, emit, modify, throw; simpl; discriminate].
  destruct (truthy messages); cbn [negb].
  - unfold bind at 1. unfold liftR at 1.
    destruct (Gmail.iterate messages) as [items|];
      [ | unfold bind, emit, modify, throw; simpl; discriminate].
    destruct (Gmail.fetchDetails w token items _) as [[l|] s2] eqn:Hd;
      [ | unfold bind, emit, modify, throw; simpl; discriminate].
    intros H. injection H as <- <-.
    destruct (fetchDetails_bodies _ _ _ _ _ _ Hd) as (rs & Ht & Hall).
    assert (Hreq : requests (emittedBy s s2) = request :: rs).
    { rewrite (emittedBy_app s s2 (E_fetch request :: map E_fetch rs)).
      - cbn [requests]. now rewrite requests_map_fetch.
      - rewrite Ht. destruct s. cbn [trace set_trace].
        now rewrite <- app_assoc. }
    rewrite Hreq. cbn [tl]. split; [exact Hall | ].
    clear - Hall. induction Hall; constructor; eauto using truncated_within_limit.
  - unfold ret. intros H. injection H as <- <-.
    split; [ | constructor].
    rewrite (emittedBy_app s _ [E_fetch request]).
    + constructor.
    + destruct s. reflexivity.
Qed.

(** C9.  Every [Email] that [getUnreadEmails] or [searchEmails] returns is
    the record of one of the detail requests made, in their order, and its
    body is the first 500 characters of the body that the details of that
    message hold: a prefix of it of 500 characters, or all of it when it
    is shorter.  So no body is longer than 500 characters. *)
Theorem returned_bodies_within_limit w (s : Store) :
  (forall maxResults es,
      fst (Gmail.getUnreadEmails w maxResults s) = Ok es ->
      bodiesTruncated w
        (requests (emittedBy s (exec (Gmail.getUnreadEmails w maxResults) s)))
        es) /\
  (forall query maxResults es,
      fst (Gmail.searchEmails w query maxResults s) = Ok es ->
      bodiesTruncated w
        (requests (emittedBy s (exec (Gmail.searchEmails w query maxResults) s)))
        es).
Proof.
  split; [intros maxResults es H | intros query maxResults es H]; unfold exec;
    [destruct (Gmail.getUnreadEmails w maxResults s) as [r s'] eqn:E
    | destruct (Gmail.searchEmails w query maxResults s) as [r s'] eqn:E];
    cbn [fst snd] in *; subst r; eapply listEmails_bodies; exact E.
Qed.

Lemma sampleMessage_witness :
  exists e,
    fst (Gmail.getUnreadEmails (mailWorld oneMessage) None signedInStore) = Ok [e] /\
    fst (Gmail.searchEmails (mailWorld oneMessage) (Some (JStr "lunch")) None
           signedInStore) = Ok [e] /\
    String.length (email_body e) = 500 /\
    bodiesTruncated (mailWorld oneMessage)
      (requests
         (emittedBy signedInStore
            (exec (Gmail.getUnreadEmails (mailWorld oneMessage) None)
                  signedInStore)))
      [e].
Proof.
  eexists. split; [vm_compute; reflexivity | ].
  split; [vm_compute; reflexivity | ].
  split; [vm_compute; reflexivity | ].
  apply (proj1 (returned_bodies_within_limit (mailWorld oneMessage) signedInStore)
           None).
  vm_compute. reflexivity.
Defined.

Lemma listEmails_no_messages w q maxResults logged s token listData :
  accessToken s = Some token -> token <> "" ->
  fetchJson w (ListMessages q (to_string (Gmail.orDefault maxResults (JNum 10)))
                 token)
  = Some listData ->
  member (Some listData) "messages" = Ok None ->
  Gmail.listEmails w q maxResults logged s
  = (Ok [],
     set_trace
       (trace s ++ [E_fetch (ListMessages q
                      (to_string (Gmail.orDefault maxResults (JNum 10))) token)])
       s).
Proof.
  intros Htok Hne Hfetch Hnone.
  unfold Gmail.listEmails. unfold bind at 1. unfold gets at 1. rewrite Htok.
  apply String.eqb_neq in Hne. rewrite Hne.
  unfold tryCatch, Gmail.fetch. unfold_monad. cbn [fst snd].
  rewrite Hfetch. cbn [fst snd]. rewrite Hnone. reflexivity.
Qed.

(** C10.  With an access token set, when the answer to the list request
    has no [messages] field ([listData.messages] is [undefined]),
    [getUnreadEmails] and [searchEmails] return the empty list, whatever
    [maxResults] and the query are, and the list request is the only
    request they make. *)
Theorem no_messages_field_gives_empty_list w (s : Store) (token : string) :
  accessToken s = Some token -> token <> "" ->
  (forall maxResults listData,
      let request :=
        ListMessages "is:unread"
          (to_string (Gmail.orDefault maxResults (JNum 10))) token in
      fetchJson w request = Some listData ->
      member (Some listData) "messages" = Ok None ->
      Gmail.getUnreadEmails w maxResults s
      = (Ok [], set_trace (trace s ++ [E_fetch request]) s)) /\
  (forall query maxResults listData,
      let request :=
        ListMessages (template query)
          (to_string (Gmail.orDefault maxResults (JNum 10))) token in
      fetchJson w request = Some listData ->
      member (Some listData) "messages" = Ok None ->
      Gmail.searchEmails w query maxResults s
      = (Ok [], set_trace (trace s ++ [E_fetch request]) s)).
Proof.
  intros Htok Hne. split; intros; eapply listEmails_no_messages; eauto.
Qed.

Lemma emptyInbox_witness :
  accessToken signedInStore = Some "token" /\
  fst (Gmail.getUnreadEmails (mailWorld emptyInbox) (Some (JNum 25)) signedInStore)
  = Ok [] /\
  requests (trace (exec (Gmail.searchEmails (mailWorld emptyInbox)
                           (Some (JStr "from:john")) None) signedInStore))
  = [ListMessages "from:john" "10" "token"].
Proof.
  assert (Hne : "token" <> "") by discriminate.
  destruct (no_messages_field_gives_empty_list
              (mailWorld emptyInbox) signedInStore "token" eq_refl Hne)
    as [Hread Hsearch].
  split; [reflexivity | split].
  - rewrite (Hread (Some (JNum 25)) (JObj [("resultSizeEstimate", JNum 0)])
               eq_refl eq_refl).
    reflexivity.
  - unfold exec.
    rewrite (Hsearch (Some (JStr "from:john")) None
               (JObj [("resultSizeEstimate", JNum 0)]) eq_refl eq_refl).
    reflexivity.
Defined.

(** *** Mail operations of the dispatcher *)

(** A mail branch of [toolResult] with Gmail authenticated: the request is
    made inside [try], and whatever it or the summary throws becomes the
    advisory [sorry]. *)
Lemma mail_branch_run (request : M (list Email)) (sorry : string) (s : Store) :
  preserves (quiet isMailEffect) request ->
  exists r s',
    tryCatch
      (found <- request ;;
       modify (set_emails found) ;;
       summary <- liftR (Gmail.summarizeEmails found) ;;
       ret (JStr summary))
      (fun _ => ret (JStr sorry)) s
    = (Ok r, s') /\
    status s' = status s /\
    sessionRef s' = sessionRef s /\
    ((exists e, fst (request s) = Throw e) -> r = JStr sorry).
Proof.
  intros Hq. specialize (Hq s).
  unfold tryCatch. unfold bind at 1.
  destruct (request s) as [[found|e] s1]; simpl in Hq;
    destruct Hq as [Hst _ _ _ Hse _ _ _ _].
  - unfold bind at 1. unfold modify at 1. unfold bind at 1. unfold liftR at 1.
    destruct (Gmail.summarizeEmails found) as [summary|e]; unfold ret;
      eexists; eexists; (split; [reflexivity | ]); simpl;
      repeat split; auto; intros [e' He']; discriminate.
  - unfold ret. eexists; eexists; split; [reflexivity | ].
    repeat split; auto.
Qed.

Lemma isMailCall_name fc :
  isMailCall fc = true ->
  fc_name fc = "read_emails" \/ fc_name fc = "search_emails".
Proof.
  unfold isMailCall. intros H. apply orb_true_iff in H.
  destruct H as [H | H]; apply String.eqb_eq in H; auto.
Qed.

Ltac eval_names :=
  repeat match goal with
         | |- context [String.eqb ?a ?b] =>
             let v := eval vm_compute in (String.eqb a b) in
             change (String.eqb a b) with v
         end;
  cbv beta iota.

(** With Gmail authenticated, a mail branch of [toolResult] is the mail
    request and the summary of what it found, inside [try]. *)
Lemma mail_branch_eq w fc s :
  isMailCall fc = true ->
  toolResult w true fc s
  = tryCatch
      (found <- mailRequest w fc ;;
       modify (set_emails found) ;;
       summary <- liftR (Gmail.summarizeEmails found) ;;
       ret (JStr summary))
      (fun _ => ret (JStr (failureAdvisory fc))) s.
Proof.
  intros Hmail.
  destruct (isMailCall_name fc Hmail) as [Hn | Hn];
    unfold toolResult, mailRequest, failureAdvisory; rewrite Hn; eval_names;
    cbn [negb]; unfold tryCatch, bind, liftR;
    destruct (arg fc "maxResults"); try reflexivity.
  destruct (arg fc "query"); reflexivity.
Qed.

Lemma signIn_branch_eq w fc s :
  isMailCall fc = true ->
  toolResult w false fc s = (Ok (JStr (signInAdvisory fc)), s).
Proof.
  intros Hmail.
  destruct (isMailCall_name fc Hmail) as [Hn | Hn];
    unfold toolResult, signInAdvisory; rewrite Hn; reflexivity.
Qed.

Lemma mailRequest_quiet w fc : preserves (quiet isMailEffect) (mailRequest w fc).
Proof.
  unfold mailRequest. quiet_steps.
  destruct (String.eqb (fc_name fc) "read_emails"); quiet_steps;
    auto using getUnreadEmails_quiet, searchEmails_quiet.
Qed.

(** C7.  For a [read_emails] or [search_emails] call, computing the result
    never throws and leaves the session status and the session handle as
    they were.  When Gmail is not authenticated the result is the sign-in
    advisory and nothing else happened: the test comes first.  When the
    request to the mail collaborator throws, the result is the failure
    advisory.  In every case the loop goes on: it sends this call's
    response and handles the calls that follow it in the batch. *)
Theorem mail_failures_stay_in_their_call w auth fc (s : Store) :
  isMailCall fc = true ->
  exists r s',
    toolResult w auth fc s = (Ok (JStr r), s') /\
    status s' = status s /\
    sessionRef s' = sessionRef s /\
    (auth = false -> r = signInAdvisory fc /\ s' = s) /\
    (auth = true -> (exists e, fst (mailRequest w fc s) = Throw e) ->
     r = failureAdvisory fc) /\
    (forall rest,
        handleToolCalls w auth (fc :: rest) s
        = (sendToolResponse w fc (JStr r) ;; handleToolCalls w auth rest) s').
Proof.
  intros Hmail.
  assert (Hloop : forall r s',
             toolResult w auth fc s = (Ok r, s') ->
             forall rest,
               handleToolCalls w auth (fc :: rest) s
               = (sendToolResponse w fc r ;; handleToolCalls w auth rest) s').
  { intros r s' Hr rest. unfold handleToolCalls. cbn [forEach].
    unfold answerCall. unfold bind at 1. unfold bind at 1. now rewrite Hr. }
  destruct auth.
  - destruct (mail_branch_run (mailRequest w fc) (failureAdvisory fc) s
                (mailRequest_quiet w fc))
      as (r & s' & Hrun & Hst & Hse & Hfail).
    assert (Hres : toolResult w true fc s = (Ok r, s'))
      by (rewrite (mail_branch_eq w fc s Hmail); exact Hrun).
    assert (exists txt, r = JStr txt) as [txt ->].
    { revert Hrun. unfold tryCatch, bind, liftR, modify, ret.
      destruct (mailRequest w fc s) as [[found|] ?];
        [destruct (Gmail.summarizeEmails found) | ];
        intros H; injection H as <- _; eauto. }
    exists txt, s'. repeat split; auto; try discriminate.
    intros _ Hthrow. specialize (Hfail Hthrow). congruence.
  - exists (signInAdvisory fc), s.
    pose proof (signIn_branch_eq w fc s Hmail) as Hres.
    repeat split; auto; discriminate.
Qed.

Lemma offline_read_witness :
  isMailCall offlineRead = true /\
  (exists e,
      fst (mailRequest (mailWorld offline) offlineRead signedInStore) = Throw e) /\
  exists s',
    toolResult (mailWorld offline) true offlineRead signedInStore
    = (Ok (JStr COULD_NOT_READ), s') /\
    status s' = CONNECTED.
Proof.
  assert (Hmail : isMailCall offlineRead = true) by reflexivity.
  assert (Hthrow : exists e,
             fst (mailRequest (mailWorld offline) offlineRead signedInStore)
             = Throw e)
    by (eexists; reflexivity).
  destruct (mail_failures_stay_in_their_call
              (mailWorld offline) true offlineRead signedInStore Hmail)
    as (r & s' & Hrun & Hst & _ & _ & Hfail & _).
  split; [exact Hmail | split; [exact Hthrow | ] ].
  exists s'. rewrite (Hfail eq_refl Hthrow) in Hrun. split; [exact Hrun | ].
  rewrite Hst. reflexivity.
Defined.

(** A failing mail call between two other calls: the three are answered. *)
Example failing_mail_call_among_siblings :
  responses
    (emittedBy signedInStore
       (exec (handleSessionMessage (mailWorld offline) true
                (callsMessage
                   [mkCall "a" "get_memories" (Some []);
                    mkCall "b" "search_emails" (Some [("query", JStr "x")]);
                    mkCall "c" "open_door" (Some [])]))
             signedInStore))
  = [("a", "get_memories", JArr []);
     ("b", "search_emails", JStr COULD_NOT_SEARCH);
     ("c", "open_door", JStr "ok")].
Proof. reflexivity. Qed.

(** ** Scenarios *)

(** A send that throws is not caught by the loop: the exception leaves the
    handler and the calls after it get no response. *)
Example refused_response_ends_the_batch :
  fst (handleSessionMessage (faultyWorld responseThrows) false
         (callsMessage mixedCalls) connectedStore)
  = Throw (Raised (E_sendToolResponse 7 "a" "create_task"
                     (JStr ("Task created: " ++ quote ++ "Buy milk" ++ quote))))
  /\
  List.length
    (responses
       (emittedBy connectedStore
          (exec (handleSessionMessage (faultyWorld responseThrows) false
                   (callsMessage mixedCalls)) connectedStore)))
  = 1.
Proof. split; reflexivity. Qed.

(** One recognized and one unrecognized call: both are answered, the
    second with the generic result. *)
Example recognized_and_unrecognized :
  responses
    (emittedBy connectedStore
       (exec (handleSessionMessage (calmWorld 0) false (callsMessage mixedCalls))
             connectedStore))
  = [("a", "create_task",
      JStr ("Task created: " ++ quote ++ "Buy milk" ++ quote));
     ("b", "open_door", JStr "ok")].
Proof. reflexivity. Qed.

(** One chunk of half a second: one active handle, the cursor at 1/2,
    speaking; when its playback ends the set is empty and speaking stops. *)
Example one_chunk_then_its_end :
  List.length (sourcesRef playingStore) = 1 /\
  (nextStartTimeRef playingStore == 1 # 2)%Q /\
  isSpeaking playingStore = true /\
  sourcesRef (exec (onended 0) playingStore) = [] /\
  isSpeaking (exec (onended 0) playingStore) = false.
Proof. repeat split. Qed.

(** An interruption while a handle is active, whether or not its [stop]
    throws: the set is empty and speaking stops. *)
Example interruption_while_playing :
  sourcesRef (exec (handleSessionMessage (faultyWorld devicesThrow) false
                      interruptMessage) playingStore) = [] /\
  isSpeaking (exec (handleSessionMessage (faultyWorld devicesThrow) false
                      interruptMessage) playingStore) = false.
Proof. split; reflexivity. Qed.


(** * Further properties *)

(** ** The mail collaborator *)

(** X1.  Without an access token (none, or the empty string) both list
    operations throw [Not authenticated with Gmail] at once: no request is
    made, nothing is logged, the store is as it was. *)
Theorem unauthenticated_throws_before_any_request w (s : Store) :
  accessToken s = None \/ accessToken s = Some "" ->
  (forall maxResults,
      Gmail.getUnreadEmails w maxResults s
      = (Throw (Error "Not authenticated with Gmail"), s)) /\
  (forall query maxResults,
      Gmail.searchEmails w query maxResults s
      = (Throw (Error "Not authenticated with Gmail"), s)).
Proof.
  intros H.
  assert (Hl : forall q maxResults logged,
             Gmail.listEmails w q maxResults logged s
             = (Throw (Error "Not authenticated with Gmail"), s)).
  { intros. unfold Gmail.listEmails, bind, gets.
    destruct H as [-> | ->]; reflexivity. }
  split; intros; apply Hl.
Qed.

Lemma signed_out_witness :
  accessToken connectedStore = None /\
  Gmail.getUnreadEmails (mailWorld oneMessage) None connectedStore
  = (Throw (Error "Not authenticated with Gmail"), connectedStore).
Proof.
  split; [reflexivity | ].
  apply (unauthenticated_throws_before_any_request
           (mailWorld oneMessage) connectedStore (or_introl eq_refl)).
Defined.

Lemma fetch_run w r s :
  Gmail.fetch w r s
  = (match fetchJson w r with
     | Some j => Ok j
     | None => Throw (Rejected "fetch")
     end,
     set_trace (trace s ++ [E_fetch r]) s).
Proof.
  unfold Gmail.fetch, bind, emit, modify.
  destruct (fetchJson w r); reflexivity.
Qed.

(** The detail loop only appends its requests, each with the token. *)
Lemma fetchDetails_run w token l : forall s,
  exists t,
    snd (Gmail.fetchDetails w token l s) = set_trace (trace s ++ t) s /\
    forallb (isFetchWith token) t = true.
Proof.
  induction l as [|m l IH]; intros s; cbn [Gmail.fetchDetails].
  - exists []. split; [ | reflexivity]. unfold ret. simpl.
    now rewrite set_trace_same.
  - unfold bind at 1. unfold liftR at 1.
    destruct (member (Some m) "id") as [id|e].
    + unfold bind at 1. rewrite fetch_run.
      destruct (fetchJson w _) as [detail|].
      * unfold bind at 1. unfold liftR at 1.
        destruct (Gmail.parseEmail w detail) as [email|e].
        -- destruct (IH (set_trace (trace s ++ [E_fetch (GetMessage (template id) token)]) s))
             as (t & Ht & Hok).
           exists (E_fetch (GetMessage (template id) token) :: t).
           split.
           ++ unfold bind at 1.
              destruct (Gmail.fetchDetails w token l _) as [[rest|e] s2];
                simpl in *; rewrite Ht; apply (set_trace_twice s [_]).
           ++ simpl. now rewrite String.eqb_refl.
        -- exists [E_fetch (GetMessage (template id) token)]. split; auto.
           simpl. now rewrite String.eqb_refl.
      * exists [E_fetch (GetMessage (template id) token)]. split; auto.
        simpl. now rewrite String.eqb_refl.
    + exists []. split; [ | reflexivity]. simpl. now rewrite set_trace_same.
Qed.

(** What a list operation leaves behind once the token is checked: the
    store with its requests appended to the trace, and after them one
    [console.error] exactly when it throws. *)
Lemma listEmails_run w q maxResults logged s token :
  accessToken s = Some token -> token <> "" ->
  forall r s',
    Gmail.listEmails w q maxResults logged s = (r, s') ->
    exists t,
      forallb (isFetchWith token) t = true /\
      s' = set_trace
             (trace s ++ t ++
              match r with
              | Ok _ => []
              | Throw _ => [E_consoleError logged]
              end) s.
Proof.
  intros Htok Hne r s' H. apply String.eqb_neq in Hne.
  unfold Gmail.listEmails in H. unfold bind at 1 in H. unfold gets at 1 in H.
  rewrite Htok, Hne in H.
  set (request := ListMessages q _ token) in H.
  assert (Hreq : forallb (isFetchWith token) [E_fetch request] = true)
    by (simpl; now rewrite String.eqb_refl).
  assert (Hlog : forall (e : Exn) (t : list Effect),
             (emit (E_consoleError logged) ;; @throw (list Email) e)
               (set_trace (trace s ++ t) s)
             = (Throw e, set_trace (trace s ++ t ++ [E_consoleError logged]) s)).
  { intros e t. unfold bind, emit, modify, throw. f_equal.
    apply (set_trace_twice s t). }
  unfold tryCatch in H. unfold bind at 1 in H. rewrite fetch_run in H.
  destruct (fetchJson w request) as [listData|].
  - unfold bind at 1 in H. unfold liftR at 1 in H.
    destruct (member (Some listData) "messages") as [messages|e].
    + destruct (truthy messages); cbn [negb] in H.
      * unfold bind at 1 in H. unfold liftR at 1 in H.
        destruct (Gmail.iterate messages) as [items|e].
        -- destruct (fetchDetails_run w token items
                       (set_trace (trace s ++ [E_fetch request]) s))
             as (t & Ht & Hok).
           exists (E_fetch request :: t). split.
           ++ simpl. now rewrite String.eqb_refl.
           ++ destruct (Gmail.fetchDetails w token items _) as [[l|e] s2];
                cbn [snd] in Ht; subst s2.
              ** injection H as <- <-. rewrite app_nil_r.
                 apply (set_trace_twice s [_]).
              ** rewrite (set_trace_twice s [_]) in H. rewrite Hlog in H.
                 injection H as <- <-. reflexivity.
        -- exists [E_fetch request]. split; auto. rewrite Hlog in H.
           injection H as <- <-. reflexivity.
      * exists [E_fetch request]. split; auto. unfold ret in H.
        injection H as <- <-. reflexivity.
    + exists [E_fetch request]. split; auto. rewrite Hlog in H.
      injection H as <- <-. reflexivity.
  - exists [E_fetch request]. split; auto. rewrite Hlog in H.
    injection H as <- <-. reflexivity.
Qed.

Lemma errorsLogged_app a b :
  errorsLogged (a ++ b) = errorsLogged a ++ errorsLogged b.
Proof.
  induction a as [|e a IH]; simpl; auto. destruct e; simpl; now rewrite ?IH.
Qed.

Lemma fetches_carry_token token t :
  forallb (isFetchWith token) t = true ->
  Forall (fun r => tokenOf r = token) (requests t) /\ errorsLogged t = [].
Proof.
  induction t as [|e t IH]; simpl; [split; [constructor | reflexivity] | ].
  destruct e; simpl; try discriminate.
  intros H. apply andb_true_iff in H. destruct H as [H1 H2].
  apply String.eqb_eq in H1. destruct (IH H2). split; auto.
Qed.

(** X2.  With an access token set, every request that [getUnreadEmails]
    or [searchEmails] makes carries that token, and apart from the trace
    the store is as it was. *)
Theorem requests_carry_the_token w (s : Store) (token : string) :
  accessToken s = Some token -> token <> "" ->
  (forall maxResults,
      let s' := exec (Gmail.getUnreadEmails w maxResults) s in
      Forall (fun r => tokenOf r = token) (requests (emittedBy s s')) /\
      s' = set_trace (trace s') s) /\
  (forall query maxResults,
      let s' := exec (Gmail.searchEmails w query maxResults) s in
      Forall (fun r => tokenOf r = token) (requests (emittedBy s s')) /\
      s' = set_trace (trace s') s).
Proof.
  intros Htok Hne.
  assert (Hl : forall q maxResults logged,
             let s' := exec (Gmail.listEmails w q maxResults logged) s in
             Forall (fun r => tokenOf r = token) (requests (emittedBy s s')) /\
             s' = set_trace (trace s') s).
  { intros q maxResults logged. unfold exec. cbv zeta.
    destruct (Gmail.listEmails w q maxResults logged s) as [r s'] eqn:Hrun.
    destruct (listEmails_run w q maxResults logged s token Htok Hne r s' Hrun)
      as (t & Hok & ->).
    destruct (fetches_carry_token token t Hok) as [Hreq _]. cbn [snd].
    split.
    - match goal with
      | |- context [set_trace (trace s ++ ?x) s] =>
          rewrite (emittedBy_app s (set_trace (trace s ++ x) s) x eq_refl)
      end.
      rewrite requests_app.
      apply Forall_app. split; auto. destruct r; constructor.
    - destruct s; reflexivity. }
  split; intros; apply Hl.
Qed.

Lemma oneMessage_token_witness :
  accessToken signedInStore = Some "token" /\
  requests (emittedBy signedInStore
              (exec (Gmail.getUnreadEmails (mailWorld oneMessage) None)
                    signedInStore))
  = [ListMessages "is:unread" "10" "token"; GetMessage "m1" "token"] /\
  Forall (fun r => tokenOf r = "token")
    (requests (emittedBy signedInStore
                 (exec (Gmail.getUnreadEmails (mailWorld oneMessage) None)
                       signedInStore))).
Proof.
  assert (Hne : "token" <> "") by discriminate.
  split; [reflexivity | split; [reflexivity | ] ].
  apply (proj1 (requests_carry_the_token (mailWorld oneMessage) signedInStore
                  "token" eq_refl Hne) None).
Defined.

(** X3.  With an access token set, a list operation that throws has
    written exactly one [console.error], its own message, as the last
    thing it did, and the error goes on to the caller; one that returns
    has written none. *)
Theorem failure_is_logged_once_and_rethrown w (s : Store) (token : string) :
  accessToken s = Some token -> token <> "" ->
  (forall maxResults,
      let t := emittedBy s (exec (Gmail.getUnreadEmails w maxResults) s) in
      match fst (Gmail.getUnreadEmails w maxResults s) with
      | Ok _ => errorsLogged t = []
      | Throw _ =>
          errorsLogged t = ["Error fetching emails:"] /\
          last t (E_setStatus IDLE) = E_consoleError "Error fetching emails:"
      end) /\
  (forall query maxResults,
      let t := emittedBy s (exec (Gmail.searchEmails w query maxResults) s) in
      match fst (Gmail.searchEmails w query maxResults s) with
      | Ok _ => errorsLogged t = []
      | Throw _ =>
          errorsLogged t = ["Error searching emails:"] /\
          last t (E_setStatus IDLE) = E_consoleError "Error searching emails:"
      end).
Proof.
  intros Htok Hne.
  assert (Hl : forall q maxResults logged,
             let t := emittedBy s (exec (Gmail.listEmails w q maxResults logged) s) in
             match fst (Gmail.listEmails w q maxResults logged s) with
             | Ok _ => errorsLogged t = []
             | Throw _ =>
                 errorsLogged t = [logged] /\
                 last t (E_setStatus IDLE) = E_consoleError logged
             end).
  { intros q maxResults logged. unfold exec. cbv zeta.
    destruct (Gmail.listEmails w q maxResults logged s) as [r s'] eqn:Hrun.
    destruct (listEmails_run w q maxResults logged s token Htok Hne r s' Hrun)
      as (t & Hok & ->).
    destruct (fetches_carry_token token t Hok) as [_ Herr]. cbn [fst snd].
    match goal with
    | |- context [set_trace (trace s ++ ?x) s] =>
        rewrite (emittedBy_app s (set_trace (trace s ++ x) s) x eq_refl)
    end.
    destruct r.
    - now rewrite app_nil_r.
    - split.
      + now rewrite errorsLogged_app, Herr.
      + apply last_last. }
  split; intros; apply Hl.
Qed.

Lemma offline_logged_witness :
  accessToken signedInStore = Some "token" /\
  fst (Gmail.searchEmails (mailWorld offline) (Some (JStr "x")) None signedInStore)
  = Throw (Rejected "fetch") /\
  errorsLogged
    (emittedBy signedInStore
       (exec (Gmail.searchEmails (mailWorld offline) (Some (JStr "x")) None)
             signedInStore))
  = ["Error searching emails:"].
Proof.
  assert (Hne : "token" <> "") by discriminate.
  split; [reflexivity | split; [reflexivity | ] ].
  pose proof (proj2 (failure_is_logged_once_and_rethrown
                       (mailWorld offline) signedInStore "token" eq_refl Hne)
                (Some (JStr "x")) None) as H.
  cbv zeta in H.
  change (fst (Gmail.searchEmails (mailWorld offline) (Some (JStr "x")) None
                 signedInStore))
    with (@Throw (list Email) (Rejected "fetch")) in H.
  exact (proj1 H).
Defined.

Lemma detailRequest_member token m :
  m <> JNull ->
  exists id, member (Some m) "id" = Ok id /\
             detailRequest token m = GetMessage (template id) token.
Proof.
  intros H. unfold detailRequest.
  destruct m; try congruence; eexists; split; reflexivity.
Qed.

(** The detail loop over messages whose details arrive and parse. *)
Lemma fetchDetails_readable w token items : forall s,
  Forall (readable w token) items ->
  exists emails,
    Gmail.fetchDetails w token items s
    = (Ok emails,
       set_trace (trace s ++ map (fun m => E_fetch (detailRequest token m)) items) s)
    /\ List.length emails = List.length items.
Proof.
  induction items as [|m items IH]; intros s Hall; cbn [Gmail.fetchDetails map].
  - exists []. unfold ret. now rewrite set_trace_same.
  - inversion Hall as [|x l [Hm (detail & email & Hd & Hp)] Hl]; subst.
    destruct (detailRequest_member token m Hm) as (id & Hid & Hreq).
    rewrite Hreq in Hd |- *.
    destruct (IH (set_trace (trace s ++ [E_fetch (GetMessage (template id) token)]) s) Hl)
      as (rest & Hrun & Hlen).
    exists (email :: rest). split; [ | simpl; congruence].
    unfold bind at 1. unfold liftR at 1. rewrite Hid.
    unfold bind at 1. rewrite fetch_run, Hd.
    unfold bind at 1. unfold liftR at 1. rewrite Hp.
    unfold bind at 1. rewrite Hrun. unfold ret. f_equal.
    apply (set_trace_twice s [_]).
Qed.

(** The detail loop stops at the first message whose details do not
    arrive. *)
Lemma fetchDetails_stops w token pre m post : forall s,
  Forall (readable w token) pre ->
  m <> JNull ->
  fetchJson w (detailRequest token m) = None ->
  Gmail.fetchDetails w token (pre ++ m :: post) s
  = (Throw (Rejected "fetch"),
     set_trace
       (trace s ++ map (fun x => E_fetch (detailRequest token x)) (pre ++ [m])) s).
Proof.
  induction pre as [|x pre IH]; intros s Hall Hm Hnone;
    cbn [app Gmail.fetchDetails map].
  - destruct (detailRequest_member token m Hm) as (id & Hid & Hreq).
    rewrite Hreq in Hnone |- *.
    unfold bind at 1. unfold liftR at 1. rewrite Hid.
    unfold bind at 1. rewrite fetch_run, Hnone. reflexivity.
  - inversion Hall as [|y l [Hx (detail & email & Hd & Hp)] Hl]; subst.
    destruct (detailRequest_member token x Hx) as (id & Hid & Hreq).
    rewrite Hreq in Hd |- *.
    unfold bind at 1. unfold liftR at 1. rewrite Hid.
    unfold bind at 1. rewrite fetch_run, Hd.
    unfold bind at 1. unfold liftR at 1. rewrite Hp.
    unfold bind at 1. rewrite (IH _ Hl Hm Hnone). f_equal.
    apply (set_trace_twice s [_]).
Qed.

Lemma requests_fetches {A} (f : A -> Request) (l : list A) :
  requests (map (fun x => E_fetch (f x)) l) = map f l.
Proof. induction l; simpl; congruence. Qed.

(** The start of a list operation whose list request is answered with an
    array of messages. *)
Lemma listEmails_listed w q maxResults logged s token listData items :
  accessToken s = Some token -> token <> "" ->
  fetchJson w (listRequest q maxResults token) = Some listData ->
  member (Some listData) "messages" = Ok (Some (JArr items)) ->
  Gmail.listEmails w q maxResults logged s
  = tryCatch
      (Gmail.fetchDetails w token items)
      (fun error => emit (E_consoleError logged) ;; throw error)
      (set_trace (trace s ++ [E_fetch (listRequest q maxResults token)]) s).
Proof.
  intros Htok Hne Hfetch Hmsg. apply String.eqb_neq in Hne.
  unfold Gmail.listEmails. unfold bind at 1. unfold gets at 1.
  rewrite Htok, Hne. fold (listRequest q maxResults token).
  unfold tryCatch. unfold bind at 1. rewrite fetch_run, Hfetch.
  unfold bind at 1. unfold liftR at 1. rewrite Hmsg.
  cbn [truthy negb]. unfold bind at 1. unfold liftR at 1. reflexivity.
Qed.

(** X4.  With an access token set, a list answered with an array of
    messages, and details that arrive and parse for each of them, both
    operations return one [Email] per listed message, and the requests
    made are the list request followed by one detail request per message,
    in the order of the list. *)
Theorem one_detail_request_per_message w (s : Store) (token : string) :
  accessToken s = Some token -> token <> "" ->
  (forall maxResults listData items,
      fetchJson w (listRequest "is:unread" maxResults token) = Some listData ->
      member (Some listData) "messages" = Ok (Some (JArr items)) ->
      Forall (readable w token) items ->
      exists emails,
        fst (Gmail.getUnreadEmails w maxResults s) = Ok emails /\
        List.length emails = List.length items /\
        requests (emittedBy s (exec (Gmail.getUnreadEmails w maxResults) s))
        = listRequest "is:unread" maxResults token
          :: map (detailRequest token) items) /\
  (forall query maxResults listData items,
      fetchJson w (listRequest (template query) maxResults token) = Some listData ->
      member (Some listData) "messages" = Ok (Some (JArr items)) ->
      Forall (readable w token) items ->
      exists emails,
        fst (Gmail.searchEmails w query maxResults s) = Ok emails /\
        List.length emails = List.length items /\
        requests (emittedBy s (exec (Gmail.searchEmails w query maxResults) s))
        = listRequest (template query) maxResults token
          :: map (detailRequest token) items).
Proof.
  intros Htok Hne.
  assert (Hl : forall q maxResults logged listData items,
             fetchJson w (listRequest q maxResults token) = Some listData ->
             member (Some listData) "messages" = Ok (Some (JArr items)) ->
             Forall (readable w token) items ->
             exists emails,
               fst (Gmail.listEmails w q maxResults logged s) = Ok emails /\
               List.length emails = List.length items /\
               requests (emittedBy s (exec (Gmail.listEmails w q maxResults logged) s))
               = listRequest q maxResults token :: map (detailRequest token) items).
  { intros q maxResults logged listData items Hfetch Hmsg Hall.
    unfold exec.
    rewrite (listEmails_listed w q maxResults logged s token listData items
               Htok Hne Hfetch Hmsg).
    destruct (fetchDetails_readable w token items
                (set_trace (trace s ++ [E_fetch (listRequest q maxResults token)]) s)
                Hall) as (emails & Hrun & Hlen).
    exists emails. unfold tryCatch. rewrite Hrun. cbn [fst snd].
    repeat split; auto.
    rewrite (set_trace_twice s [_]).
    match goal with
    | |- context [set_trace (trace s ++ ?x) s] =>
        rewrite (emittedBy_app s (set_trace (trace s ++ x) s) x eq_refl)
    end.
    rewrite requests_app, requests_fetches. reflexivity. }
  split; intros; eapply Hl; eauto.
Qed.

Lemma oneMessage_requests_witness :
  accessToken signedInStore = Some "token" /\
  Forall (readable (mailWorld oneMessage) "token") [JObj [("id", JStr "m1")]] /\
  exists emails,
    fst (Gmail.getUnreadEmails (mailWorld oneMessage) None signedInStore)
    = Ok emails /\
    List.length emails = 1.
Proof.
  assert (Hne : "token" <> "") by discriminate.
  assert (Hall : Forall (readable (mailWorld oneMessage) "token")
                   [JObj [("id", JStr "m1")]]).
  { constructor; [ | constructor]. split; [discriminate | ].
    eexists. eexists. split; [reflexivity | vm_compute; reflexivity]. }
  split; [reflexivity | split; [exact Hall | ] ].
  destruct (proj1 (one_detail_request_per_message
                     (mailWorld oneMessage) signedInStore "token" eq_refl Hne)
              None _ _ eq_refl eq_refl Hall) as (emails & Hrun & Hlen & _).
  exists emails. split; assumption.
Defined.

(** X5.  With an access token set, when the details of one listed message
    do not arrive while those of the messages before it did, both
    operations throw: no partial list is returned, and no request is made
    for the messages after it. *)
Theorem missing_detail_fails_the_whole_call w (s : Store) (token : string)
  (pre post : list JSON) (m : JSON) :
  accessToken s = Some token -> token <> "" ->
  Forall (readable w token) pre ->
  m <> JNull ->
  fetchJson w (detailRequest token m) = None ->
  (forall maxResults listData,
      fetchJson w (listRequest "is:unread" maxResults token) = Some listData ->
      member (Some listData) "messages" = Ok (Some (JArr (pre ++ m :: post))) ->
      fst (Gmail.getUnreadEmails w maxResults s) = Throw (Rejected "fetch") /\
      requests (emittedBy s (exec (Gmail.getUnreadEmails w maxResults) s))
      = listRequest "is:unread" maxResults token
        :: map (detailRequest token) (pre ++ [m])) /\
  (forall query maxResults listData,
      fetchJson w (listRequest (template query) maxResults token) = Some listData ->
      member (Some listData) "messages" = Ok (Some (JArr (pre ++ m :: post))) ->
      fst (Gmail.searchEmails w query maxResults s) = Throw (Rejected "fetch") /\
      requests (emittedBy s (exec (Gmail.searchEmails w query maxResults) s))
      = listRequest (template query) maxResults token
        :: map (detailRequest token) (pre ++ [m])).
Proof.
  intros Htok Hne Hpre Hm Hnone.
  assert (Hl : forall q maxResults logged listData,
             fetchJson w (listRequest q maxResults token) = Some listData ->
             member (Some listData) "messages" = Ok (Some (JArr (pre ++ m :: post))) ->
             fst (Gmail.listEmails w q maxResults logged s) = Throw (Rejected "fetch") /\
             requests (emittedBy s (exec (Gmail.listEmails w q maxResults logged) s))
             = listRequest q maxResults token
               :: map (detailRequest token) (pre ++ [m])).
  { intros q maxResults logged listData Hfetch Hmsg. unfold exec.
    rewrite (listEmails_listed w q maxResults logged s token listData _
               Htok Hne Hfetch Hmsg).
    unfold tryCatch. rewrite (fetchDetails_stops w token pre m post _ Hpre Hm Hnone).
    rewrite (set_trace_twice s [_]).
    unfold bind, emit, modify, throw. cbn [fst snd].
    rewrite (set_trace_twice s).
    split; [reflexivity | ].
    match goal with
    | |- context [set_trace (trace s ++ ?x) s] =>
        rewrite (emittedBy_app s (set_trace (trace s ++ x) s) x eq_refl)
    end.
    rewrite !requests_app, requests_fetches. simpl. now rewrite app_nil_r. }
  split; intros; eapply Hl; eauto.
Qed.

Lemma secondFails_witness :
  fst (Gmail.getUnreadEmails (mailWorld secondFails) None signedInStore)
  = Throw (Rejected "fetch") /\
  requests (emittedBy signedInStore
              (exec (Gmail.getUnreadEmails (mailWorld secondFails) None)
                    signedInStore))
  = [ListMessages "is:unread" "10" "token"; GetMessage "m1" "token";
     GetMessage "m2" "token"].
Proof.
  assert (Hne : "token" <> "") by discriminate.
  assert (Hpre : Forall (readable (mailWorld secondFails) "token")
                   [JObj [("id", JStr "m1")]]).
  { constructor; [ | constructor]. split; [discriminate | ].
    eexists. eexists. split; [reflexivity | vm_compute; reflexivity]. }
  assert (Hm : JObj [("id", JStr "m2")] <> JNull) by discriminate.
  exact (proj1 (missing_detail_fails_the_whole_call
                  (mailWorld secondFails) signedInStore "token"
                  [JObj [("id", JStr "m1")]] [JObj [("id", JStr "m3")]]
                  (JObj [("id", JStr "m2")]) eq_refl Hne Hpre Hm eq_refl)
           None _ eq_refl eq_refl).
Defined.

(** *** The summary *)

Lemma summaryLines_ok (l : list Email) : forall index,
  Forall senderIsString l ->
  exists lines, Gmail.summaryLines index l = Ok lines /\
                List.length lines = List.length l.
Proof.
  induction l as [|e l IH]; intros index Hall; cbn [Gmail.summaryLines].
  - now exists [].
  - inversion Hall as [|x y [f Hf] Hl]; subst.
    destruct (IH (S index) Hl) as (lines & Hrun & Hlen).
    unfold Gmail.summaryLine. rewrite Hf. cbn [andThen]. rewrite Hrun.
    cbn [andThen]. eexists. split; [reflexivity | simpl; congruence].
Qed.

Lemma summaryLines_sender (l : list Email) : forall index lines,
  Gmail.summaryLines index l = Ok lines -> Forall senderIsString l.
Proof.
  induction l as [|e l IH]; intros index lines H; cbn [Gmail.summaryLines] in H.
  - constructor.
  - unfold Gmail.summaryLine in H.
    destruct (email_from e) as [[ | | | f | | ]|] eqn:Hf; try discriminate.
    cbn [andThen] in H.
    destruct (Gmail.summaryLines (S index) l) as [rest|] eqn:Hr;
      [ | discriminate].
    constructor; [now exists f | eapply IH; eauto].
Qed.

(** X6.  [summarizeEmails] returns a summary exactly when the sender of
    every email is a string; otherwise it throws.  The empty list gives
    the fixed sentence. *)
Theorem summary_needs_string_senders (l : list Email) :
  ((exists summary, Gmail.summarizeEmails l = Ok summary)
   <-> Forall senderIsString l) /\
  Gmail.summarizeEmails [] = Ok "You have no unread emails.".
Proof.
  split; [ | reflexivity]. unfold Gmail.summarizeEmails. split.
  - intros [summary H]. destruct l as [|e l]; [constructor | ].
    cbn [List.length Nat.eqb] in H.
    destruct (Gmail.summaryLines 0 (e :: l)) as [lines|] eqn:Hl;
      [ | discriminate].
    eapply summaryLines_sender; eauto.
  - intros Hall. destruct l as [|e l]; [eexists; reflexivity | ].
    cbn [List.length Nat.eqb].
    destruct (summaryLines_ok (e :: l) 0 Hall) as (lines & Hrun & _).
    rewrite Hrun. cbn [andThen]. eexists. reflexivity.
Qed.

Lemma list_ascii_app (a b : string) :
  list_ascii_of_string (a ++ b)
  = list_ascii_of_string a ++ list_ascii_of_string b.
Proof. induction a as [|c a IH]; simpl; congruence. Qed.

Lemma after_last_gt_closing (addr : list ascii) :
  existsb is_line_terminator addr = false ->
  after_last_gt (addr ++ [">"%char]) = Some [].
Proof.
  induction addr as [|c addr IH]; intros H.
  - reflexivity.
  - cbn [existsb] in H. apply orb_false_iff in H. destruct H as [Hc Hr].
    cbn [app after_last_gt]. rewrite Hc, (IH Hr). reflexivity.
Qed.

Lemma strip_angle_name (name rest : list ascii) :
  existsb (Ascii.eqb "<"%char) name = false ->
  after_last_gt rest = Some [] ->
  strip_angle (name ++ "<"%char :: rest) = name.
Proof.
  intros Hn Hr. induction name as [|c name IH].
  - cbn [app strip_angle]. rewrite Ascii.eqb_refl, Hr. reflexivity.
  - cbn [existsb] in Hn. apply orb_false_iff in Hn. destruct Hn as [Hc Hn].
    cbn [app strip_angle]. rewrite Ascii.eqb_sym, Hc, (IH Hn). reflexivity.
Qed.

(** X7.  For a sender written as a name followed by an address between
    angle brackets, the line of the summary shows the trimmed name and
    nothing of the address. *)
Theorem summary_shows_the_name_only (index : nat) (e : Email)
  (name addr : string) :
  email_from e = Some (JStr (name ++ "<" ++ addr ++ ">")) ->
  hasChar "<" name = false ->
  hasLineTerminator addr = false ->
  Gmail.summaryLine index e
  = Ok (string_of_nat (index + 1) ++ ". From " ++ trim name ++ ": "
        ++ template (email_subject e))%string.
Proof.
  intros Hf Hn Ha. unfold Gmail.summaryLine. rewrite Hf.
  assert (Hr : remove_angle (name ++ "<" ++ addr ++ ">") = name).
  { unfold remove_angle. rewrite !list_ascii_app. cbn [list_ascii_of_string app].
    rewrite strip_angle_name.
    - apply string_of_list_ascii_of_string.
    - exact Hn.
    - apply after_last_gt_closing. exact Ha. }
  rewrite Hr. reflexivity.
Qed.

Lemma sampleSender_witness :
  Gmail.summaryLine 0
    (mkEmail None (Some (JStr ("Ann " ++ "<" ++ "ann@example.com" ++ ">")))
       (Some (JStr "Lunch")) None "" None true)
  = Ok "1. From Ann: Lunch".
Proof.
  apply (summary_shows_the_name_only 0
           (mkEmail None (Some (JStr ("Ann " ++ "<" ++ "ann@example.com" ++ ">")))
              (Some (JStr "Lunch")) None "" None true)
           "Ann " "ann@example.com"); reflexivity.
Defined.

(** ** Frames *)

(** A list operation changes nothing but the trace. *)
Lemma listEmails_only_trace w q maxResults logged s :
  exists t, snd (Gmail.listEmails w q maxResults logged s) = set_trace t s.
Proof.
  destruct (accessToken s) as [token|] eqn:Htok.
  - destruct (String.eqb token "") eqn:Hne.
    + apply String.eqb_eq in Hne. subst token. exists (trace s).
      unfold Gmail.listEmails, bind, gets. rewrite Htok. cbn [String.eqb snd throw].
      destruct s; reflexivity.
    + apply String.eqb_neq in Hne.
      destruct (Gmail.listEmails w q maxResults logged s) as [r s'] eqn:Hrun.
      destruct (listEmails_run w q maxResults logged s token Htok Hne r s' Hrun)
        as (t & _ & ->).
      eexists. reflexivity.
  - exists (trace s). unfold Gmail.listEmails, bind, gets. rewrite Htok.
    cbn [snd throw]. destruct s; reflexivity.
Qed.

Lemma getUnreadEmails_only_trace w maxResults s :
  exists t, snd (Gmail.getUnreadEmails w maxResults s) = set_trace t s.
Proof. apply listEmails_only_trace. Qed.

Lemma searchEmails_only_trace w query maxResults s :
  exists t, snd (Gmail.searchEmails w query maxResults s) = set_trace t s.
Proof. apply listEmails_only_trace. Qed.

Lemma lookup_obj_set {A} (k k' : string) (v : A) (o : list (string * A)) :
  lookup k (obj_set k' v o) = if String.eqb k k' then Some v else lookup k o.
Proof.
  induction o as [|[k0 v0] o IH]; cbn [obj_set lookup].
  - reflexivity.
  - destruct (String.eqb k' k0) eqn:E0; cbn [lookup].
    + apply String.eqb_eq in E0. subst k0.
      destruct (String.eqb k k'); reflexivity.
    + rewrite IH. destruct (String.eqb k k') eqn:E1; auto.
      apply String.eqb_eq in E1. subst k'. now rewrite E0.
Qed.

(** ** The notebook: memories, tasks and drafts *)

Lemma listEmails_notebook w q maxResults logged :
  preserves (keeps notebook) (Gmail.listEmails w q maxResults logged).
Proof.
  intros s. destruct (listEmails_only_trace w q maxResults logged s) as [t ->].
  reflexivity.
Qed.

Lemma synced_kept s s' : keeps notebook s s' -> synced s -> synced s'.
Proof.
  unfold keeps, notebook. intros H. injection H; intros.
  unfold synced, stored in *.
  repeat match goal with E : _ s' = _ s |- _ => rewrite E; clear E end. auto.
Qed.

Lemma keeps_carries_sync {A} (m : M A) :
  preserves (keeps notebook) m ->
  preserves (fun s s' => synced s -> synced s') m.
Proof. intros H s. apply synced_kept, H. Qed.

Lemma sync_refl (s : Store) : synced s -> synced s.
Proof. auto. Qed.

Lemma sync_trans (a b c : Store) :
  (synced a -> synced b) -> (synced b -> synced c) -> synced a -> synced c.
Proof. auto. Qed.

(** [save_memory] only queues the update. *)
Lemma persistMemory_run content s :
  persistMemory content s
  = (Ok (JStr "Memory saved successfully."),
     set_pendingMemories (pendingMemories s ++ [content]) s).
Proof. reflexivity. Qed.

(** Storing a record under the tasks or the drafts key, as [write_email]
    and [create_task] do before they build their answer: state and
    storage agree afterwards as they did before, also when the stored text
    cannot be used or the write is refused. *)
Lemma store_record_synced {A} w key (set : JSON -> Store -> Store)
  (record : string -> JSON) (rest : M A) :
  (key = TASKS_KEY /\ set = set_tasks) \/ (key = DRAFTS_KEY /\ set = set_drafts) ->
  preserves (keeps notebook) rest ->
  preserves (fun s s' => synced s -> synced s')
    (id <- freshUUID w ;;
     stored <- getItems key ;;
     items <- liftR (push stored (record id)) ;;
     setItem w key (JArr items) ;;
     modify (set (JArr items)) ;;
     rest).
Proof.
  intros Hk Hrest s (S1 & S2 & S3).
  assert (Hend : forall s1, synced s1 -> synced (snd (rest s1)))
    by (intros s1; apply synced_kept, Hrest).
  destruct s as [st sp me ci co ta dr em ac nx so se sr an ls tk fr tr pm].
  unfold synced, stored in S1, S2, S3.
  cbn [localStorage memories tasks drafts] in S1, S2, S3.
  assert (Hsame : forall fr', synced (mkStore st sp me ci co ta dr em ac nx so se
                                       sr an ls tk fr' tr pm))
    by (intros fr'; repeat split; assumption).
  unfold freshUUID, getItems, push, setItem, parse. run_norm.
  destruct Hk as [[-> ->] | [-> ->]].
  - destruct (lookup TASKS_KEY ls) as [[v | | ] | ] eqn:E; run_norm;
      try apply Hsame; try discriminate;
      [ injection S2 as <-; destruct v; run_norm; try apply Hsame | | ];
      (destruct (setItemThrows w TASKS_KEY); run_norm; [apply Hsame | ]);
      apply Hend; unfold synced, stored;
      cbn [localStorage memories tasks drafts set_tasks];
      rewrite !lookup_obj_set; eval_names; auto.
  - destruct (lookup DRAFTS_KEY ls) as [[v | | ] | ] eqn:E; run_norm;
      try apply Hsame; try discriminate;
      [ injection S3 as <-; destruct v; run_norm; try apply Hsame | | ];
      (destruct (setItemThrows w DRAFTS_KEY); run_norm; [apply Hsame | ]);
      apply Hend; unfold synced, stored;
      cbn [localStorage memories tasks drafts set_drafts];
      rewrite !lookup_obj_set; eval_names; auto.
Qed.

Lemma toolResult_synced w auth fc :
  preserves (fun s s' => synced s -> synced s') (toolResult w auth fc).
Proof.
  unfold toolResult.
  destruct (String.eqb (fc_name fc) "save_memory").
  { intros s H. unfold bind, liftR. destruct (arg fc "content"); [ | exact H].
    rewrite persistMemory_run. destruct s. exact H. }
  destruct (String.eqb (fc_name fc) "get_memories").
  { apply keeps_carries_sync. repeat keeps_step. }
  destruct (String.eqb (fc_name fc) "write_email").
  { apply (store_record_synced w DRAFTS_KEY set_drafts
             (fun id => JObj (obj_set "timestamp" (JNum (dateNow w))
                                (obj_spread [("id", JStr id)] (spreadArgs fc)))));
      [right; split; reflexivity | repeat keeps_step]. }
  destruct (String.eqb (fc_name fc) "create_task").
  { apply (store_record_synced w TASKS_KEY set_tasks
             (fun id => JObj (obj_set "timestamp" (JNum (dateNow w))
                                (obj_set "completed" (JBool false)
                                   (obj_spread [("id", JStr id)]
                                      (spreadArgs fc))))));
      [left; split; reflexivity | repeat keeps_step]. }
  destruct (String.eqb (fc_name fc) "read_emails").
  { apply keeps_carries_sync. destruct (negb auth); repeat keeps_step.
    apply listEmails_notebook. }
  destruct (String.eqb (fc_name fc) "search_emails").
  { apply keeps_carries_sync. destruct (negb auth); repeat keeps_step.
    apply listEmails_notebook. }
  apply keeps_carries_sync. repeat keeps_step.
Qed.

(** One queued update of the memories: the state and the text under the
    memories key are the same list afterwards, or both are as they were. *)
Lemma memoryUpdater_memories w content s :
  let s' := snd (memoryUpdater w content s) in
  (stored MEMORY_KEY s' = Some (memories s') \/
   (memories s' = memories s /\ localStorage s' = localStorage s)) /\
  tasks s' = tasks s /\ drafts s' = drafts s /\
  (forall k, k <> MEMORY_KEY -> stored k s' = stored k s).
Proof.
  destruct s as [st sp me ci co ta dr em ac nx so se sr an ls tk fr tr pm].
  unfold memoryUpdater, freshUUID, setItem. run_norm.
  destruct (Gmail.iterate (Some me)) as [items | e]; run_norm;
    [ | repeat split; auto].
  destruct (setItemThrows w MEMORY_KEY); run_norm; [repeat split; auto | ].
  repeat split.
  - left. unfold stored. cbn [localStorage memories].
    rewrite lookup_obj_set. reflexivity.
  - intros k Hk. unfold stored. cbn [localStorage].
    rewrite lookup_obj_set. apply String.eqb_neq in Hk. now rewrite Hk.
Qed.

Lemma updaters_synced w (queue : list Value) : forall s,
  synced s -> synced (snd (forEach (memoryUpdater w) queue s)).
Proof.
  induction queue as [|content queue IH]; intros s H; [exact H | ].
  cbn [forEach]. unfold bind.
  pose proof (memoryUpdater_memories w content s) as (Hm & Ht & Hd & Hk).
  cbv zeta in Hm, Ht, Hd, Hk.
  assert (Hs : synced (snd (memoryUpdater w content s))).
  { destruct H as (S1 & S2 & S3). repeat split.
    - destruct Hm as [Hm | [Hm Hl]]; [exact Hm | ].
      unfold stored in *. now rewrite Hm, Hl.
    - rewrite Ht, Hk by discriminate. exact S2.
    - rewrite Hd, Hk by discriminate. exact S3. }
  destruct (memoryUpdater w content s) as [[[]|e] s1]; cbn [snd] in *.
  - now apply IH.
  - exact Hs.
Qed.

Lemma render_synced w s : synced s -> synced (exec (render w) s).
Proof.
  intros H. unfold exec, render. unfold bind at 1. unfold gets at 1.
  unfold bind at 1. unfold modify at 1.
  apply updaters_synced. destruct s. exact H.
Qed.

(** X8.  When the memories, tasks and drafts of the state are what
    [localStorage] holds, they still are after any message has been
    handled, whether the handler returned or threw, and after the render
    that runs the queued updates of the memories. *)
Theorem state_and_storage_stay_in_sync w auth m (s : Store) :
  synced s ->
  synced (exec (handleSessionMessage w auth m) s) /\
  synced (exec (render w) (exec (handleSessionMessage w auth m) s)).
Proof.
  assert (H : forall s, synced s -> synced (exec (handleSessionMessage w auth m) s)).
  { clear s.
    change (preserves (fun s s' => synced s -> synced s')
              (handleSessionMessage w auth m)).
    unfold handleSessionMessage.
    apply preserves_bind; [exact sync_trans | | intros _].
    { apply keeps_carries_sync, handleTranscriptions_notebook. }
    apply preserves_bind; [exact sync_trans | | intros _].
    { apply keeps_carries_sync, handleInterruption_notebook. }
    apply preserves_bind; [exact sync_trans | | intros _].
    { apply keeps_carries_sync, handleAudioOutput_notebook. }
    unfold handleFunctionCalls, handleToolCalls.
    destruct (toolCall m) as [tc|]; [ | apply preserves_ret; exact sync_refl].
    destruct (functionCalls tc) as [calls|];
      [ | apply preserves_throw; exact sync_refl].
    apply preserves_forEach; [exact sync_refl | exact sync_trans | intros fc].
    unfold answerCall.
    apply preserves_bind; [exact sync_trans | | intros result].
    - apply toolResult_synced.
    - apply keeps_carries_sync. repeat keeps_step. }
  intros Hs. split; [ | apply render_synced]; apply H, Hs.
Qed.

Lemma mixedCalls_synced_witness :
  synced connectedStore /\
  synced (exec (handleSessionMessage (calmWorld 0) false (callsMessage mixedCalls))
               connectedStore).
Proof.
  assert (H : synced connectedStore) by (repeat split).
  split; [exact H | ].
  apply state_and_storage_stay_in_sync. exact H.
Defined.

(** X9.  The mount effect, run on the state of the first render (the
    three lists empty, no update queued).  When each of the three keys is
    absent or holds a text that [JSON.parse] accepts, the effect returns,
    the state agrees with the storage, and the wake word detector has been
    made and started.  When one of the texts is not JSON, the effect
    throws the [SyntaxError] and no detector is made. *)
Theorem mount_reads_storage_then_listens (b : WakeWord.Browser) (s : Store) :
  memories s = JArr [] -> tasks s = JArr [] -> drafts s = JArr [] ->
  pendingMemories s = [] ->
  (stored MEMORY_KEY s <> None -> stored TASKS_KEY s <> None ->
   stored DRAFTS_KEY s <> None ->
   fst (fst (mountEffect b s)) = Ok tt /\
   synced (snd (fst (mountEffect b s))) /\
   snd (mountEffect b s) = Some (WakeWord.start b WakeWord.newDetector)) /\
  (stored MEMORY_KEY s = None \/ stored TASKS_KEY s = None \/
   stored DRAFTS_KEY s = None ->
   fst (fst (mountEffect b s)) = Throw SyntaxError /\
   snd (mountEffect b s) = None).
Proof.
  intros Hm Ht Hd _.
  destruct s as [st sp me ci co ta dr em ac nx so se sr an ls tk fr tr pm].
  cbn [memories tasks drafts] in Hm, Ht, Hd. subst me ta dr.
  unfold mountEffect, loadPersisted, loadKey, parse, synced, stored.
  run_norm. cbv zeta.
  destruct (lookup MEMORY_KEY ls) as [[v1 | | ] | ] eqn:E1;
    destruct (lookup TASKS_KEY ls) as [[v2 | | ] | ] eqn:E2;
    destruct (lookup DRAFTS_KEY ls) as [[v3 | | ] | ] eqn:E3;
    run_norm; cbn [negb]; rewrite ?E1, ?E2, ?E3;
    (split;
     [ intros H1 H2 H3; try congruence; auto
     | intros [H | [H | H]]; try discriminate; split; reflexivity ]).
Qed.

Lemma returning_visit_witness :
  synced (snd (fst (mountEffect (WakeWord.mkBrowser true 1 false) returningStore)))
  /\
  memories (snd (fst (mountEffect (WakeWord.mkBrowser true 1 false) returningStore)))
  = JArr [JObj [("content", JStr "likes green tea")]] /\
  option_map WakeWord.recognition
    (snd (mountEffect (WakeWord.mkBrowser true 1 false) returningStore))
  = Some (Some 1).
Proof.
  split; [ | split; reflexivity].
  apply (mount_reads_storage_then_listens
           (WakeWord.mkBrowser true 1 false) returningStore);
    try reflexivity; discriminate.
Defined.

(** A text under the tasks key that is not JSON: the memories have been
    read, the effect throws, and the page has no wake word detector. *)
Example broken_text_ends_the_mount_effect :
  mountEffect (WakeWord.mkBrowser true 1 false) brokenTasks
  = (Throw SyntaxError, brokenTasks, None).
Proof. reflexivity. Qed.

Lemma toolResult_save w auth fc s content :
  fc_name fc = "save_memory" ->
  arg fc "content" = Ok content ->
  toolResult w auth fc s = persistMemory content s.
Proof.
  intros H Ha. unfold toolResult. rewrite H. eval_names.
  unfold bind, liftR. now rewrite Ha.
Qed.

Lemma toolResult_get w auth fc s :
  fc_name fc = "get_memories" -> toolResult w auth fc s = getItems MEMORY_KEY s.
Proof. intros H. unfold toolResult. rewrite H. reflexivity. Qed.

(** The render after one [save_memory]. *)
Lemma save_then_render w wr auth save (s : Store) (l : list JSON) content :
  fc_name save = "save_memory" ->
  arg save "content" = Ok content ->
  memories s = JArr l ->
  pendingMemories s = [] ->
  setItemThrows wr MEMORY_KEY = false ->
  render wr (exec (toolResult w auth save) s)
  = (Ok tt,
     let updated :=
       JArr (l ++ [JObj (object [("id", Some (JStr (randomUUID wr (fresh s))));
                                 ("content", content);
                                 ("timestamp", Some (JNum (dateNow wr)))])]) in
     set_memories updated
       (set_localStorage (obj_set MEMORY_KEY (TextOf updated) (localStorage s))
          (set_fresh (S (fresh s)) s))).
Proof.
  intros Hs Ha Hm Hp Hw. unfold exec.
  rewrite (toolResult_save w auth save s content Hs Ha), persistMemory_run.
  destruct s as [st sp me ci co ta dr em ac nx so se sr an ls tk fr tr pm].
  cbn [memories pendingMemories] in Hm, Hp. subst me pm.
  unfold render, memoryUpdater, freshUUID, setItem.
  cbn [snd app forEach]. run_norm. cbn [app forEach].
  unfold Gmail.iterate. run_norm. rewrite Hw. run_norm. reflexivity.
Qed.

(** X10.  A [get_memories] call of the same batch is answered as if the
    [save_memory] call before it had not been made: the memory is stored
    by the update that React runs at the next render.  After that render
    (the memories of the state an array, nothing else queued, the write
    accepted) the answer is the memories of the state as they were,
    followed by the new one, which carries the content given, the time of
    the render and an identifier drawn then. *)
Theorem saved_memory_is_retrieved w w' wr auth auth' save get (s : Store)
  (l : list JSON) content :
  fc_name save = "save_memory" ->
  fc_name get = "get_memories" ->
  arg save "content" = Ok content ->
  memories s = JArr l ->
  pendingMemories s = [] ->
  setItemThrows wr MEMORY_KEY = false ->
  fst (toolResult w auth save s) = Ok (JStr "Memory saved successfully.") /\
  fst (toolResult w' auth' get (exec (toolResult w auth save) s))
  = fst (toolResult w' auth' get s) /\
  exists memory,
    fst (toolResult w' auth' get
           (exec (render wr) (exec (toolResult w auth save) s)))
    = Ok (JArr (l ++ [JObj memory])) /\
    lookup "content" memory = content /\
    lookup "timestamp" memory = Some (JNum (dateNow wr)) /\
    lookup "id" memory = Some (JStr (randomUUID wr (fresh s))).
Proof.
  intros Hs Hg Ha Hm Hp Hw.
  split; [now rewrite (toolResult_save w auth save s content Hs Ha) | ].
  destruct s as [st sp me ci co ta dr em ac nx so se sr an ls tk fr tr pm].
  split.
  - unfold exec.
    rewrite (toolResult_save w auth save _ content Hs Ha), persistMemory_run.
    rewrite !(toolResult_get _ _ get _ Hg).
    unfold getItems, parse. run_norm.
    match goal with
    | |- context [lookup MEMORY_KEY ?ls] =>
        destruct (lookup MEMORY_KEY ls) as [[v | | ] | ]; reflexivity
    end.
  - unfold exec at 1.
    rewrite (save_then_render w wr auth save _ l content Hs Ha Hm Hp Hw).
    cbv zeta. cbn [snd]. rewrite (toolResult_get _ _ get _ Hg).
    eexists. split.
    + unfold getItems, parse. run_norm.
      rewrite lookup_obj_set. reflexivity.
    + destruct content; repeat split.
Qed.

Lemma remember_witness :
  fst (toolResult (calmWorld 0) false (mkCall "g" "get_memories" (Some []))
         (exec (toolResult (calmWorld 0) false
                  (mkCall "s" "save_memory"
                     (Some [("content", JStr "likes green tea")])))
               connectedStore))
  = Ok (JArr []) /\
  exists memory,
    fst (toolResult (calmWorld 0) false (mkCall "g" "get_memories" (Some []))
           (exec (render (calmWorld 1))
              (exec (toolResult (calmWorld 0) false
                       (mkCall "s" "save_memory"
                          (Some [("content", JStr "likes green tea")])))
                    connectedStore)))
    = Ok (JArr [JObj memory]) /\
    lookup "content" memory = Some (JStr "likes green tea").
Proof.
  destruct (saved_memory_is_retrieved (calmWorld 0) (calmWorld 0) (calmWorld 1)
              false false
              (mkCall "s" "save_memory" (Some [("content", JStr "likes green tea")]))
              (mkCall "g" "get_memories" (Some [])) connectedStore []
              (Some (JStr "likes green tea"))
              eq_refl eq_refl eq_refl eq_refl eq_refl eq_refl)
    as (_ & Hsame & memory & Hrun & Hcontent & _).
  split; [exact Hsame | ].
  exists memory. split; [exact Hrun | exact Hcontent].
Defined.

Lemma lookup_absent {A} (k : string) (o : list (string * A)) :
  ~ In k (map fst o) -> lookup k o = None.
Proof.
  induction o as [|[k0 v0] o IH]; cbn [map fst In lookup]; intros H; auto.
  destruct (String.eqb k k0) eqn:E.
  - apply String.eqb_eq in E. subst. tauto.
  - apply IH. tauto.
Qed.

(** [{...o, ...extra}] read at a key: what [extra] gives, else what [o]
    gives. *)
Lemma lookup_obj_spread {A} (k : string) (extra : list (string * A)) :
  NoDup (map fst extra) ->
  forall o,
    lookup k (obj_spread o extra)
    = match lookup k extra with
      | Some v => Some v
      | None => lookup k o
      end.
Proof.
  unfold obj_spread.
  induction extra as [|[k1 v1] extra IH]; intros Hnd o; cbn [fold_left lookup].
  - reflexivity.
  - cbn [map fst] in Hnd. inversion Hnd as [|x l Hnotin Hrest]; subst.
    rewrite (IH Hrest). cbn [fst snd]. rewrite lookup_obj_set.
    destruct (String.eqb k k1) eqn:E.
    + apply String.eqb_eq in E. subst k1.
      now rewrite (lookup_absent k extra Hnotin).
    + reflexivity.
Qed.

(** The store after [create_task], whether or not the answer could be
    built afterwards. *)
Lemma create_task_run w auth fc (s : Store) (l : list JSON) :
  fc_name fc = "create_task" ->
  stored TASKS_KEY s = Some (JArr l) ->
  setItemThrows w TASKS_KEY = false ->
  exec (toolResult w auth fc) s
  = let task :=
      JObj (obj_set "timestamp" (JNum (dateNow w))
              (obj_set "completed" (JBool false)
                 (obj_spread [("id", JStr (randomUUID w (fresh s)))]
                    (spreadArgs fc)))) in
    set_tasks (JArr (l ++ [task]))
      (set_localStorage
         (obj_set TASKS_KEY (TextOf (JArr (l ++ [task]))) (localStorage s))
         (set_fresh (S (fresh s)) s)).
Proof.
  intros Hn Hst Hw. unfold exec, toolResult. rewrite Hn. eval_names.
  destruct s as [st sp me ci co ta dr em ac nx so se sr an ls tk fr tr pm].
  unfold stored in Hst. cbn [localStorage] in Hst.
  unfold freshUUID, getItems, push, setItem, parse. rewrite Hw. run_norm.
  destruct (lookup TASKS_KEY ls) as [[v | | ] | ]; run_norm;
    try discriminate; injection Hst as Hst; subst; run_norm;
    destruct (arg fc "title"); reflexivity.
Qed.

(** [create_task] when the stored text cannot be used or the write is
    refused: the call throws and nothing is stored. *)
Lemma create_task_refused w auth fc (s : Store) :
  fc_name fc = "create_task" ->
  (forall l, stored TASKS_KEY s <> Some (JArr l)) \/
  setItemThrows w TASKS_KEY = true ->
  (exists e, fst (toolResult w auth fc s) = Throw e) /\
  tasks (exec (toolResult w auth fc) s) = tasks s /\
  localStorage (exec (toolResult w auth fc) s) = localStorage s.
Proof.
  intros Hn Hbad. unfold exec, toolResult. rewrite Hn. eval_names.
  destruct s as [st sp me ci co ta dr em ac nx so se sr an ls tk fr tr pm].
  unfold stored in Hbad. cbn [localStorage] in Hbad.
  unfold freshUUID, getItems, push, setItem, parse. run_norm.
  destruct (lookup TASKS_KEY ls) as [[v | | ] | ]; run_norm;
    try (destruct v; run_norm);
    try (split; [eexists; reflexivity | split; reflexivity]);
    (destruct Hbad as [Hbad | Hbad];
     [exfalso; eapply Hbad; reflexivity | rewrite Hbad; run_norm]);
    (split; [eexists; reflexivity | split; reflexivity]).
Qed.

(** X11.  With an array under the tasks key and the write accepted, the
    task that [create_task] stores goes last under the tasks key and into
    the state, also when the call came without arguments; whatever the
    arguments say it is not completed and carries the time of the call.
    With arguments that are an object (no key twice), every other argument
    is stored as given, an [id] among them replacing the generated
    identifier.  When what is under the tasks key is not an array, or the
    write is refused, the call throws and stores nothing. *)
Theorem stored_task_fields w auth fc (s : Store) :
  fc_name fc = "create_task" ->
  (forall l,
      stored TASKS_KEY s = Some (JArr l) ->
      setItemThrows w TASKS_KEY = false ->
      NoDup (map fst (spreadArgs fc)) ->
      exists task,
        stored TASKS_KEY (exec (toolResult w auth fc) s)
        = Some (JArr (l ++ [JObj task])) /\
        tasks (exec (toolResult w auth fc) s) = JArr (l ++ [JObj task]) /\
        lookup "completed" task = Some (JBool false) /\
        lookup "timestamp" task = Some (JNum (dateNow w)) /\
        forall k, k <> "completed" -> k <> "timestamp" ->
          lookup k task
          = match lookup k (spreadArgs fc) with
            | Some v => Some v
            | None => if String.eqb k "id"
                      then Some (JStr (randomUUID w (fresh s))) else None
            end) /\
  ((forall l, stored TASKS_KEY s <> Some (JArr l)) \/
   setItemThrows w TASKS_KEY = true ->
   (exists e, fst (toolResult w auth fc s) = Throw e) /\
   tasks (exec (toolResult w auth fc) s) = tasks s /\
   localStorage (exec (toolResult w auth fc) s) = localStorage s).
Proof.
  intros Hn. split; [ | now apply create_task_refused].
  intros l Hst Hw Hnd.
  rewrite (create_task_run w auth fc s l Hn Hst Hw). cbv zeta.
  destruct s as [st sp me ci co ta dr em ac nx so se sr an ls tk fr tr pm].
  unfold stored. store_norm.
  eexists. split; [ | split; [ | split; [ | split ] ] ].
  - rewrite lookup_obj_set. reflexivity.
  - reflexivity.
  - rewrite !lookup_obj_set. reflexivity.
  - rewrite lookup_obj_set. reflexivity.
  - intros k Hc Ht. apply String.eqb_neq in Hc, Ht.
    rewrite !lookup_obj_set, Ht, Hc, (lookup_obj_spread k _ Hnd).
    cbn [lookup]. destruct (lookup k (spreadArgs fc)); reflexivity.
Qed.

Lemma completed_task_witness :
  exists task,
    lastStored TASKS_KEY
      (exec (toolResult (calmWorld 0) false
               (mkCall "a" "create_task"
                  (Some [("title", JStr "Buy milk"); ("completed", JBool true);
                         ("id", JStr "mine")])))
            connectedStore)
    = Some (JObj task) /\
    lookup "completed" task = Some (JBool false) /\
    lookup "id" task = Some (JStr "mine") /\
    lookup "title" task = Some (JStr "Buy milk").
Proof.
  assert (Hnd : NoDup (map fst [("title", JStr "Buy milk");
                                ("completed", JBool true);
                                ("id", JStr "mine")])).
  { repeat constructor; simpl; intuition discriminate. }
  destruct (proj1 (stored_task_fields (calmWorld 0) false
                     (mkCall "a" "create_task"
                        (Some [("title", JStr "Buy milk");
                               ("completed", JBool true);
                               ("id", JStr "mine")]))
                     connectedStore eq_refl)
              [] eq_refl eq_refl Hnd)
    as (task & Hst & _ & Hc & _ & Hk).
  exists task. unfold lastStored. rewrite Hst.
  split; [reflexivity | split; [exact Hc | split ] ].
  - rewrite Hk by discriminate. reflexivity.
  - rewrite Hk by discriminate. reflexivity.
Defined.

(** A [create_task] call that came without arguments stores its task and
    then throws, where the answer reads [fc.args.title]. *)
Example task_without_arguments_is_stored :
  fst (toolResult (calmWorld 0) false (mkCall "a" "create_task" None)
         connectedStore)
  = Throw TypeError /\
  exists id,
    tasks (exec (toolResult (calmWorld 0) false (mkCall "a" "create_task" None))
                connectedStore)
    = JArr [JObj [("id", JStr id); ("completed", JBool false);
                  ("timestamp", JNum 0)]].
Proof. split; [reflexivity | eexists; reflexivity]. Qed.

(** X12.  The message handler is made once, in the first render, where
    [isGmailAuthenticated] is [false], and that is the handler the
    transport calls: also after [handleGmailAuth] has stored a token, a
    [read_emails] or [search_emails] call is answered with the sign-in
    advisory, and the response is the only thing the handler does; no
    request goes to Gmail. *)
Theorem registered_handler_asks_to_sign_in w (token : string) fc
  (s : Store) (x : Session) :
  isMailCall fc = true ->
  sessionRef s = Some x ->
  throws w (E_sendToolResponse (session_id x) (fc_id fc) (fc_name fc)
              (JStr (signInAdvisory fc))) = false ->
  accessToken (exec (handleGmailAuth token) s) = Some token /\
  onmessage w (callsMessage [fc]) (exec (handleGmailAuth token) s)
  = (Ok tt,
     set_trace
       (trace s ++ [E_sendToolResponse (session_id x) (fc_id fc) (fc_name fc)
                      (JStr (signInAdvisory fc))])
       (exec (handleGmailAuth token) s)).
Proof.
  intros Hmail Hx Hsend. split; [reflexivity | ].
  unfold onmessage, handleSessionMessage, handleTranscriptions,
    handleInterruption, handleAudioOutput, handleFunctionCalls, handleToolCalls,
    callsMessage.
  cbn [serverContent toolCall functionCalls opt flag audioDataOf when forEach].
  unfold answerCall.
  set (s1 := exec (handleGmailAuth token) s).
  assert (Hx1 : sessionRef s1 = Some x) by (destruct s; exact Hx).
  assert (Ht1 : trace s1 = trace s) by (destruct s; reflexivity).
  unfold bind, ret, liftR, gets.
  destruct (audioContextRef s1);
    rewrite (signIn_branch_eq w fc s1 Hmail),
      (sendToolResponse_present w fc _ s1 x Hx1 Hsend), Ht1; reflexivity.
Qed.

Lemma late_sign_in_witness :
  responses
    (emittedBy signedInStore
       (exec (onmessage (mailWorld oneMessage)
                (callsMessage [mkCall "r" "read_emails" (Some [])]))
             (exec (handleGmailAuth "token") connectedStore)))
  = [("r", "read_emails", JStr SIGN_IN_TO_READ)] /\
  requests
    (emittedBy signedInStore
       (exec (onmessage (mailWorld oneMessage)
                (callsMessage [mkCall "r" "read_emails" (Some [])]))
             (exec (handleGmailAuth "token") connectedStore)))
  = [].
Proof.
  destruct (registered_handler_asks_to_sign_in (mailWorld oneMessage) "token"
              (mkCall "r" "read_emails" (Some [])) connectedStore (mkSession 7)
              eq_refl eq_refl eq_refl) as [_ H].
  unfold exec at 1 3. rewrite H. split; reflexivity.
Defined.

(** ** The scheduler *)





(** X14.  A chunk whose payload does not decode is dropped and the rest of
    the message is handled: the failure is logged, no source is started,
    the active set is as it was and the cursor is at
    [max(cursor, deviceNow)]; the speaking flag has been set all the
    same. *)
Theorem undecodable_chunk_is_dropped w auth m (s : Store) (a : string) :
  flag interrupted m = false ->
  audioDataOf m = Ok (Some a) -> a <> "" ->
  audioContextRef s <> None ->
  decodeAudioData w a = None ->
  exists s3,
    handleSessionMessage w auth m s = handleFunctionCalls w auth m s3 /\
    emittedBy s s3 = [E_consoleError "Audio decoding error:"] /\
    sourcesRef s3 = sourcesRef s /\
    nextStartTimeRef s3 = Qmax (nextStartTimeRef s) (currentTime w) /\
    isSpeaking s3 = true.
Proof.
  intros Hni Ha Hne Hctx Hdec.
  destruct (handleTranscriptions_run m s) as (s1 & H1 & Q1).
  pose proof (handleInterruption_idle w m s1 Hni) as H2.
  destruct Q1 as [_ Qc Qn Qs _ _ _ _ Qt].
  pose proof (onlyEmits_nothing _ _ Qt) as Ht1.
  exists (set_trace (trace s1 ++ [E_consoleError "Audio decoding error:"])
            (set_nextStartTimeRef (Qmax (nextStartTimeRef s1) (currentTime w))
               (set_isSpeaking true s1))).
  split; [ | split; [ | split; [ | split ] ] ].
  - apply (handleSessionMessage_split w auth m s s1 s1); auto.
    unfold handleAudioOutput. unfold bind at 1. unfold liftR at 1. rewrite Ha.
    unfold bind at 1. unfold gets at 1.
    destruct (audioContextRef s1) as [c|]; [ | congruence].
    apply String.eqb_neq in Hne. rewrite Hne. cbn [negb when].
    unfold playAudio, setIsSpeaking. unfold tryCatch.
    unfold bind at 1. unfold modify at 1.
    unfold bind at 1. unfold modify at 1.
    unfold bind at 1. rewrite Hdec. unfold throw at 1.
    unfold emit, modify. reflexivity.
  - apply emittedBy_app. cbn [trace set_trace]. now rewrite Ht1.
  - cbn. exact Qs.
  - cbn. now rewrite Qn.
  - reflexivity.
Qed.

Lemma deaf_witness :
  exists s3,
    handleSessionMessage (deafWorld 3) false audioMessage connectedStore
    = handleFunctionCalls (deafWorld 3) false audioMessage s3 /\
    sourcesRef s3 = [] /\
    (nextStartTimeRef s3 == 3)%Q /\
    isSpeaking s3 = true.
Proof.
  assert (Hne : "AAAA" <> "") by discriminate.
  assert (Hctx : audioContextRef connectedStore <> None) by discriminate.
  destruct (undecodable_chunk_is_dropped (deafWorld 3) false audioMessage
              connectedStore "AAAA" eq_refl eq_refl Hne Hctx eq_refl)
    as (s3 & Hrun & _ & Hs & Hn & Hsp).
  exists s3. split; [exact Hrun | split; [exact Hs | split; [ | exact Hsp] ] ].
  rewrite Hn. reflexivity.
Defined.

Lemma onended_run n s :
  onended n s
  = (Ok tt,
     let rest := deleteNode n (sourcesRef s) in
     if Nat.eqb (List.length rest) 0
     then set_isSpeaking false (set_sourcesRef rest s)
     else set_sourcesRef rest s).
Proof.
  unfold onended, setIsSpeaking. run_norm. cbv zeta.
  destruct (Nat.eqb (List.length (deleteNode n _)) 0); reflexivity.
Qed.

(** X15.  Once the playback of every handle of the active set has ended,
    in whatever order and with whatever other end events among them, the
    set is empty and the speaking flag is off. *)
Theorem all_ended_stops_speaking (nodes : list nat) : forall s : Store,
  nodes <> [] ->
  (forall x, In x (sourcesRef s) -> In (node_id x) nodes) ->
  sourcesRef (runEnded nodes s) = [] /\ isSpeaking (runEnded nodes s) = false.
Proof.
  induction nodes as [|n nodes IH]; intros s Hne Hcov; [congruence | ].
  cbn [runEnded]. unfold exec. rewrite onended_run. cbv zeta. cbn [snd].
  assert (Hrest : forall x, In x (deleteNode n (sourcesRef s)) ->
                            In (node_id x) nodes).
  { intros x Hx. unfold deleteNode in Hx. apply filter_In in Hx.
    destruct Hx as [Hin Hneq]. apply negb_true_iff, Nat.eqb_neq in Hneq.
    destruct (Hcov x Hin) as [E | E]; [congruence | exact E]. }
  destruct nodes as [|n' nodes].
  - assert (Hempty : deleteNode n (sourcesRef s) = []).
    { destruct (deleteNode n (sourcesRef s)) as [|x l]; auto.
      destruct (Hrest x (or_introl eq_refl)). }
    rewrite Hempty. split; reflexivity.
  - destruct (Nat.eqb (List.length (deleteNode n (sourcesRef s))) 0);
      apply IH; try discriminate; exact Hrest.
Qed.

Lemma playing_then_ended_witness :
  sourcesRef playingStore <> [] /\
  sourcesRef (runEnded [5; 0] playingStore) = [] /\
  isSpeaking (runEnded [5; 0] playingStore) = false.
Proof.
  split; [discriminate | ].
  apply (all_ended_stops_speaking [5; 0] playingStore); [discriminate | ].
  intros x [<- | []]. right. left. reflexivity.
Defined.

(** ** Transcripts *)

Lemma listEmails_transcripts w q maxResults logged :
  preserves (keeps transcripts) (Gmail.listEmails w q maxResults logged).
Proof.
  intros s. destruct (listEmails_only_trace w q maxResults logged s) as [t ->].
  reflexivity.
Qed.

Lemma toolResult_transcripts w auth fc :
  preserves (keeps transcripts) (toolResult w auth fc).
Proof.
  unfold toolResult.
  repeat keeps_step; apply listEmails_transcripts.
Qed.

(** Steps 2 to 4 of the handler do not touch the transcript buffers. *)
Lemma after_transcriptions_kept w auth m :
  preserves (keeps transcripts)
    (handleInterruption w m ;; handleAudioOutput w m ;;
     handleFunctionCalls w auth m).
Proof.
  unfold handleInterruption, handleAudioOutput, playAudio, handleFunctionCalls,
    handleToolCalls, answerCall.
  repeat keeps_step. apply toolResult_transcripts.
Qed.

Lemma append_empty (s : string) : (s ++ "")%string = s.
Proof. induction s as [|c s IH]; simpl; congruence. Qed.

(** The buffers after step 1. *)
Lemma handleTranscriptions_buffers m s :
  exists s1,
    handleTranscriptions m s = (Ok tt, s1) /\
    currentInput s1
    = (if flag turnComplete m then ""
       else (currentInput s ++ inputDelta m)%string) /\
    currentOutput s1
    = (if flag turnComplete m then ""
       else (currentOutput s ++ outputDelta m)%string).
Proof.
  unfold handleTranscriptions, flag, inputDelta, outputDelta.
  destruct m as [[[i o tc intr mt]|] calls]; cbn [serverContent opt];
    [destruct i, o, tc | ];
    cbn [inputTranscription outputTranscription turnComplete when];
    run_norm; eexists; (split; [reflexivity | ]);
    cbn [currentInput currentOutput]; rewrite ?append_empty; split; reflexivity.
Qed.

Lemma handler_buffers w auth m s :
  currentInput (exec (handleSessionMessage w auth m) s)
  = (if flag turnComplete m then ""
     else (currentInput s ++ inputDelta m)%string) /\
  currentOutput (exec (handleSessionMessage w auth m) s)
  = (if flag turnComplete m then ""
     else (currentOutput s ++ outputDelta m)%string).
Proof.
  destruct (handleTranscriptions_buffers m s) as (s1 & H1 & Hi & Ho).
  pose proof (after_transcriptions_kept w auth m s1) as Hk.
  unfold exec, handleSessionMessage. rewrite (bind_Ok _ _ _ _ _ H1).
  unfold keeps, transcripts in Hk. injection Hk as Hki Hko.
  rewrite Hki, Hko. split; assumption.
Qed.

(** X16.  After a run of messages each transcript buffer holds the deltas
    received since the last message that completed a turn, in arrival
    order; a delta carried by the completing message itself is dropped.
    Nothing else the handler does (interruption, audio, tool calls, a
    thrown exception) changes the buffers. *)
Theorem transcripts_follow_the_turn auth
  (l : list (World * LiveServerMessage)) : forall s : Store,
  currentInput (runMessages auth l s)
  = transcriptAfter inputDelta l (currentInput s) /\
  currentOutput (runMessages auth l s)
  = transcriptAfter outputDelta l (currentOutput s).
Proof.
  induction l as [|[w m] l IH]; intros s; cbn [runMessages transcriptAfter].
  - split; reflexivity.
  - destruct (handler_buffers w auth m s) as [Hi Ho].
    destruct (IH (exec (handleSessionMessage w auth m) s)) as [IHi IHo].
    rewrite IHi, IHo, Hi, Ho. split; reflexivity.
Qed.

Example two_deltas_then_turn_end :
  currentInput
    (runMessages false
       [(calmWorld 0, deltaMessage "good " "hello ");
        (calmWorld 0, deltaMessage "morning" "there")] connectedStore)
  = "good morning" /\
  currentOutput
    (runMessages false
       [(calmWorld 0, deltaMessage "good " "hello ");
        (calmWorld 0, deltaMessage "morning" "there");
        (calmWorld 0, turnCompleteMessage)] connectedStore)
  = "".
Proof. split; vm_compute; reflexivity. Qed.

(** ** The session lifecycle *)

Lemma set_audioNodes_none s :
  audioNodesRef s = None -> set_audioNodesRef None s = s.
Proof. destruct s. cbn. intros ->. reflexivity. Qed.

Lemma filter_app_nil {A} (f : A -> bool) (a b : list A) :
  filter f a = [] -> filter f b = [] -> filter f (a ++ b) = [].
Proof. intros Ha Hb. now rewrite filter_app, Ha, Hb. Qed.

Lemma no_release_in_stops (l : list SourceNode) :
  filter isRelease (map (fun x => E_sourceStop (node_id x)) l) = [].
Proof. induction l; simpl; auto. Qed.

Lemma cleanupAudioNodes_trace w s :
  exists t,
    cleanupAudioNodes w s
    = (Ok tt, set_audioNodesRef None (set_trace (trace s ++ t) s)) /\
    filter isRelease t = [] /\ filter isStopEffect t = [].
Proof.
  rewrite cleanupAudioNodes_run.
  destruct (audioNodesRef s) as [n|] eqn:Hn.
  - eexists. split; [reflexivity | ].
    destruct (throws w (E_disconnect (nodes_processor n))); split; reflexivity.
  - exists []. split; [ | split; reflexivity].
    rewrite set_trace_same. now rewrite set_audioNodes_none.
Qed.

(** X17.  The transport's close callback never throws: it disconnects the
    capture nodes, interrupts the scheduler and sets the status to IDLE.
    It releases neither the microphone nor the session handle: no track is
    stopped, [close()] is not called, and [streamRef], [sessionRef] and
    [audioContextRef] are as they were. *)
Theorem onclose_keeps_microphone_and_session w (s : Store) :
  fst (onclose w s) = Ok tt /\
  status (exec (onclose w) s) = IDLE /\
  audioNodesRef (exec (onclose w) s) = None /\
  sourcesRef (exec (onclose w) s) = [] /\
  nextStartTimeRef (exec (onclose w) s) = 0%Q /\
  streamRef (exec (onclose w) s) = streamRef s /\
  sessionRef (exec (onclose w) s) = sessionRef s /\
  audioContextRef (exec (onclose w) s) = audioContextRef s /\
  filter isRelease (emittedBy s (exec (onclose w) s)) = [].
Proof.
  destruct (cleanupAudioNodes_trace w s) as (t & Hrun & Hrel & _).
  unfold exec, onclose. rewrite (bind_Ok _ _ _ _ _ Hrun).
  rewrite (bind_Ok _ _ _ _ _ (stopAllAudio_run w _)).
  unfold setStatus, bind, emit, modify. cbn [fst snd].
  repeat split.
  match goal with
  | |- filter _ (emittedBy s ?x) = _ =>
      rewrite (emittedBy_app s x
                 (t ++ map (fun n => E_sourceStop (node_id n)) (sourcesRef s)
                    ++ [E_setStatus IDLE]))
  end.
  - apply filter_app_nil; [exact Hrel | ].
    apply filter_app_nil; [apply no_release_in_stops | reflexivity].
  - destruct s. cbn. now rewrite <- !app_assoc.
Qed.

Lemma onerror_run w s :
  exists t,
    onerror w s
    = (Ok tt,
       set_status ERROR
         (set_audioNodesRef None
            (set_trace
               (trace s ++ E_consoleError "Live session error:" :: t
                ++ [E_setStatus ERROR]) s))) /\
    filter isRelease t = [] /\ filter isStopEffect t = [].
Proof.
  destruct (cleanupAudioNodes_trace w
              (set_trace (trace s ++ [E_consoleError "Live session error:"]) s))
    as (t & Hrun & Hrel & Hstop).
  exists t. split; [ | split; assumption].
  unfold onerror. unfold bind at 1. unfold emit at 1. unfold modify at 1.
  rewrite (bind_Ok _ _ _ _ _ Hrun).
  unfold setStatus, bind, emit, modify. f_equal.
  destruct s. cbn. now rewrite <- !app_assoc.
Qed.

(** X18.  The transport's error callback never throws: it logs, disconnects
    the capture nodes and sets the status to ERROR.  It does not touch the
    scheduler, the microphone or the session handle: playback that was
    scheduled goes on and nothing is released. *)
Theorem onerror_leaves_playback_and_handles w (s : Store) :
  fst (onerror w s) = Ok tt /\
  status (exec (onerror w) s) = ERROR /\
  audioNodesRef (exec (onerror w) s) = None /\
  sourcesRef (exec (onerror w) s) = sourcesRef s /\
  nextStartTimeRef (exec (onerror w) s) = nextStartTimeRef s /\
  isSpeaking (exec (onerror w) s) = isSpeaking s /\
  streamRef (exec (onerror w) s) = streamRef s /\
  sessionRef (exec (onerror w) s) = sessionRef s /\
  filter isRelease (emittedBy s (exec (onerror w) s)) = [] /\
  filter isStopEffect (emittedBy s (exec (onerror w) s)) = [].
Proof.
  destruct (onerror_run w s) as (t & Hrun & Hrel & Hstop).
  unfold exec. rewrite Hrun. cbn [fst snd].
  match goal with
  | |- context [emittedBy s ?x] =>
      rewrite (emittedBy_app s x
                 (E_consoleError "Live session error:" :: t
                  ++ [E_setStatus ERROR]) eq_refl)
  end.
  repeat split.
  - cbn [filter isRelease]. now apply filter_app_nil.
  - cbn [filter isStopEffect]. now apply filter_app_nil.
Qed.


(** The open callback when no node call throws. *)
Lemma onopen_run w (s : Store) :
  (forall e, throws w e = false) ->
  onopen w s
  = (Ok tt,
     set_audioNodesRef (Some (mkNodes (fresh s) (S (fresh s))))
       (set_fresh (S (S (fresh s)))
          (set_status CONNECTED
             (set_trace
                (trace s ++
                 [E_setStatus CONNECTED;
                  E_createMediaStreamSource (fresh s);
                  E_createScriptProcessor (S (fresh s));
                  E_connect (fresh s) (S (fresh s));
                  E_connectDestination (S (fresh s))]) s)))).
Proof.
  intros Hok. unfold onopen, setStatus, freshId, call.
  destruct s as [st sp me ci co ta dr em ac nx so se sr an ls tk fr tr pm].
  run_norm. rewrite !Hok. run_norm. rewrite <- !app_assoc. reflexivity.
Qed.

(** [startConnection] when everything it asks for is granted, with the
    callbacks the transport fires while the connection is awaited. *)
Lemma startConnection_granted_run w (callbacks : M unit) (s : Store)
  (key : string) (stream : MediaStream) (session : Session) :
  VITE_API_KEY w = Some key ->
  grants w stream session ->
  startConnectionDuring w callbacks s
  = (Ok tt,
     set_sessionRef (Some session)
       (exec callbacks
          (set_audioContextRef (Some (mkContexts (fresh s) (S (fresh s))))
             (set_fresh (S (S (fresh s)))
                (set_streamRef (Some stream)
                   (set_status CONNECTING
                      (set_trace
                         (trace s ++
                          [E_setStatus CONNECTING; E_getUserMedia;
                           E_newAudioContext 16000; E_newAudioContext 24000;
                           E_liveConnect key]) s))))))).
Proof.
  intros Hkey (Hvalid & Hmic & Hctx & Hconn).
  unfold startConnectionDuring, setStatus, freshId, call, exec.
  rewrite Hvalid, Hmic, Hconn, !Hctx, Hkey.
  destruct s as [st sp me ci co ta dr em ac nx so se sr an ls tk fr tr pm].
  run_norm. rewrite <- !app_assoc.
  destruct (callbacks _) as [[[]|e] s1]; reflexivity.
Qed.

(** X19.  When the key is usable, the microphone is granted, the two audio
    contexts are created and the connection resolves, [startConnection]
    returns with the session in its ref, whatever callbacks the transport
    fired while the connection was awaited; it has asked for the
    microphone first, then created the contexts, then connected, and the
    callbacks found the stream and the contexts in their refs and no
    session yet.  The status it returns with is the one the callbacks
    left: CONNECTING when none fired, and then the stream and the contexts
    are in their refs; CONNECTED when the open callback fired, and then
    the store is the one an open callback after the return gives. *)
Theorem startConnection_acquires_in_order w (s : Store)
  (key : string) (stream : MediaStream) (session : Session) :
  VITE_API_KEY w = Some key ->
  grants w stream session ->
  let acquired :=
    set_audioContextRef (Some (mkContexts (fresh s) (S (fresh s))))
      (set_fresh (S (S (fresh s)))
         (set_streamRef (Some stream)
            (set_status CONNECTING
               (set_trace
                  (trace s ++
                   [E_setStatus CONNECTING; E_getUserMedia;
                    E_newAudioContext 16000; E_newAudioContext 24000;
                    E_liveConnect key]) s)))) in
  (forall callbacks,
      startConnectionDuring w callbacks s
      = (Ok tt, set_sessionRef (Some session) (exec callbacks acquired))) /\
  sessionRef acquired = sessionRef s /\
  (fst (startConnection w s) = Ok tt /\
   status (exec (startConnection w) s) = CONNECTING /\
   streamRef (exec (startConnection w) s) = Some stream /\
   audioContextRef (exec (startConnection w) s)
   = Some (mkContexts (fresh s) (S (fresh s))) /\
   sessionRef (exec (startConnection w) s) = Some session /\
   emittedBy s (exec (startConnection w) s)
   = [E_setStatus CONNECTING; E_getUserMedia; E_newAudioContext 16000;
      E_newAudioContext 24000; E_liveConnect key]) /\
  (forall w2,
      (forall e, throws w2 e = false) ->
      status (exec (startConnectionDuring w (onopen w2)) s) = CONNECTED /\
      exec (startConnectionDuring w (onopen w2)) s
      = exec (onopen w2) (exec (startConnection w) s)).
Proof.
  intros Hkey Hgrants. cbv zeta.
  split; [intros callbacks; now apply startConnection_granted_run | ].
  split; [destruct s; reflexivity | ].
  unfold exec, startConnection.
  split.
  - rewrite (startConnection_granted_run w (ret tt) s key stream session
               Hkey Hgrants).
    unfold exec, ret. cbn [fst snd]. repeat split.
    apply emittedBy_app. destruct s. reflexivity.
  - intros w2 Hok.
    rewrite !(startConnection_granted_run w _ s key stream session Hkey Hgrants).
    unfold exec, ret. cbn [fst snd]. rewrite !(onopen_run w2 _ Hok). cbn [snd].
    destruct s as [st sp me ci co ta dr em ac nx so se sr an ls tk fr tr pm].
    split; reflexivity.
Qed.

Lemma keyedWorld_witness :
  grants (keyedWorld (Some (mkSession 7))) (mkStream [3; 4]) (mkSession 7) /\
  streamRef (exec (startConnection (keyedWorld (Some (mkSession 7)))) initialStore)
  = Some (mkStream [3; 4]) /\
  sessionRef (exec (startConnection (keyedWorld (Some (mkSession 7)))) initialStore)
  = Some (mkSession 7) /\
  status
    (exec (startConnectionDuring (keyedWorld (Some (mkSession 7)))
             (onopen (calmWorld 0)))
          initialStore)
  = CONNECTED.
Proof.
  assert (H : grants (keyedWorld (Some (mkSession 7))) (mkStream [3; 4])
                (mkSession 7)) by (repeat split).
  destruct (startConnection_acquires_in_order
              (keyedWorld (Some (mkSession 7))) initialStore
              "AIza-key" (mkStream [3; 4]) (mkSession 7) eq_refl H)
    as (_ & _ & (_ & _ & Hstream & _ & Hsession & _) & Hopen).
  split; [exact H | ].
  split; [exact Hstream | ].
  split; [exact Hsession | ].
  exact (proj1 (Hopen (calmWorld 0) (fun _ => eq_refl))).
Defined.


Example rejected_connection_keeps_the_microphone :
  status (exec (startConnection (keyedWorld None)) initialStore) = ERROR /\
  streamRef (exec (startConnection (keyedWorld None)) initialStore)
  = Some (mkStream [3; 4]) /\
  emittedBy initialStore (exec (startConnection (keyedWorld None)) initialStore)
  = [E_setStatus CONNECTING; E_getUserMedia; E_newAudioContext 16000;
     E_newAudioContext 24000; E_liveConnect "AIza-key";
     E_consoleError "Failed to start session:"; E_setStatus ERROR].
Proof. repeat split. Qed.

(** X21.  After an end-connection path that ran through, a second one
    makes no device call at all: it only sets the status to IDLE again.
    The audio contexts are not part of the cleanup: [audioContextRef]
    is as it was before the first. *)
Theorem second_endConnection_only_sets_status w w' (s : Store) :
  (forall x, sessionRef s = Some x ->
             throws w (E_sessionClose (session_id x)) = false) ->
  (forall st k, streamRef s = Some st -> In k (tracks st) ->
                throws w (E_trackStop k) = false) ->
  endConnection w' (exec (endConnection w) s)
  = (Ok tt, set_trace (trace (exec (endConnection w) s) ++ [E_setStatus IDLE])
              (exec (endConnection w) s)) /\
  audioContextRef (exec (endConnection w) s) = audioContextRef s.
Proof.
  intros Hclose Htracks. unfold exec.
  rewrite (endConnection_run w s Hclose Htracks). cbn [snd].
  split; [ | reflexivity].
  rewrite endConnection_run.
  - unfold cleanupCalls.
    destruct s as [st sp me ci co ta dr em ac nx so se sr an ls tk fr tr pm].
    store_norm. reflexivity.
  - store_norm. discriminate.
  - store_norm. discriminate.
Qed.

Lemma busyStore_twice_witness :
  endConnection (faultyWorld closeThrows)
    (exec (endConnection (calmWorld 0)) busyStore)
  = (Ok tt,
     set_trace (trace (exec (endConnection (calmWorld 0)) busyStore)
                ++ [E_setStatus IDLE])
       (exec (endConnection (calmWorld 0)) busyStore)) /\
  audioContextRef (exec (endConnection (calmWorld 0)) busyStore)
  = audioContextRef busyStore.
Proof.
  apply (second_endConnection_only_sets_status (calmWorld 0)
           (faultyWorld closeThrows) busyStore);
    intros; reflexivity.
Defined.

(** X22.  A connection that was granted, opened and then ended by the
    user gives back what it acquired: the end-connection path disconnects
    the two capture nodes the open callback created, closes the session
    [startConnection] obtained and stops every track of the stream it was
    granted, and leaves the status IDLE with no handle in the refs.  The
    two audio contexts [startConnection] created stay in
    [audioContextRef]. *)
Theorem granted_connection_is_given_back w1 w2 w3 (s : Store)
  (key : string) (stream : MediaStream) (session : Session) :
  VITE_API_KEY w1 = Some key ->
  grants w1 stream session ->
  (forall e, throws w2 e = false) ->
  (forall e, throws w3 e = false) ->
  let s1 := exec (startConnection w1) s in
  let s2 := exec (onopen w2) s1 in
  let s3 := exec (endConnection w3) s2 in
  fst (endConnection w3 s2) = Ok tt /\
  filter isCleanup (emittedBy s2 s3)
  = [E_disconnect (S (S (S (fresh s)))); E_disconnect (S (S (fresh s)));
     E_sessionClose (session_id session)]
    ++ map E_trackStop (tracks stream)
    ++ map (fun x => E_sourceStop (node_id x)) (sourcesRef s) /\
  status s3 = IDLE /\
  audioNodesRef s3 = None /\ sessionRef s3 = None /\ streamRef s3 = None /\
  sourcesRef s3 = [] /\
  audioContextRef s3 = Some (mkContexts (fresh s) (S (fresh s))).
Proof.
  intros Hkey Hgrants Hopen Hend. cbv zeta. unfold exec.
  unfold startConnection.
  rewrite (startConnection_granted_run w1 (ret tt) s key stream session
             Hkey Hgrants).
  unfold exec, ret. cbn [snd]. rewrite (onopen_run w2 _ Hopen). cbn [snd].
  rewrite endConnection_run by (intros; apply Hend).
  cbn [fst snd]. split; [reflexivity | ]. split; [ | repeat split].
  match goal with
  | |- filter _ (emittedBy ?a ?b) = ?l =>
      rewrite (emittedBy_app a b (l ++ [E_setStatus IDLE]))
  end.
  - rewrite filter_app. cbn [filter isCleanup app].
    rewrite !filter_app, app_nil_r.
    f_equal. f_equal. f_equal. f_equal.
    + induction (tracks stream) as [|k l IH]; cbn [map filter isCleanup];
        [reflexivity | now rewrite IH].
    + induction (sourcesRef s) as [|k l IH]; cbn [map filter isCleanup];
        [reflexivity | now rewrite IH].
  - unfold cleanupCalls.
    destruct s as [st sp me ci co ta dr em ac nx so se sr an ls tk fr tr pm].
    store_norm. rewrite Hend. cbn [nodes_processor nodes_source app].
    rewrite <- !app_assoc. reflexivity.
Qed.

Lemma keyedWorld_round_trip_witness :
  let s2 := exec (onopen (calmWorld 0))
              (exec (startConnection (keyedWorld (Some (mkSession 7))))
                 initialStore) in
  filter isCleanup (emittedBy s2 (exec (endConnection (calmWorld 0)) s2))
  = [E_disconnect 3; E_disconnect 2; E_sessionClose 7;
     E_trackStop 3; E_trackStop 4].
Proof.
  apply (granted_connection_is_given_back
           (keyedWorld (Some (mkSession 7))) (calmWorld 0) (calmWorld 0)
           initialStore "AIza-key" (mkStream [3; 4]) (mkSession 7)
           eq_refl ltac:(repeat split) (fun _ => eq_refl) (fun _ => eq_refl)).
Defined.

(** ** The wake word detector *)

Lemma substring_tail (p sub : string) : forall t,
  substring 0 (String.length p + String.length sub) t = (p ++ sub)%string ->
  substring (String.length p) (String.length sub) t = sub.
Proof.
  induction p as [|c p IH]; intros t H; cbn [String.length plus append] in *.
  - exact H.
  - destruct t as [|c' t]; cbn [substring] in H; [discriminate | ].
    injection H as _ H. cbn [substring]. now apply IH.
Qed.

Lemma substring_tail_at (p sub : string) : forall m t,
  substring m (String.length p + String.length sub) t = (p ++ sub)%string ->
  substring (m + String.length p) (String.length sub) t = sub.
Proof.
  induction m as [|m IH]; intros t H.
  - now apply substring_tail.
  - destruct t as [|c t].
    + destruct p; [ | destruct m; discriminate H].
      destruct sub; [ | destruct m; discriminate H].
      reflexivity.
    + cbn [substring plus] in *. now apply IH.
Qed.

(** A transcript that includes a phrase includes the end of the phrase. *)
Lemma includes_tail (p sub t : string) :
  sub <> ""%string ->
  includes (p ++ sub) t = true -> includes sub t = true.
Proof.
  intros Hne. unfold includes.
  destruct (index 0 (p ++ sub) t) as [m|] eqn:Hm; [intros _ | discriminate].
  apply index_correct1 in Hm.
  assert (Hlen : String.length (p ++ sub) = String.length p + String.length sub).
  { clear. induction p; cbn [append String.length plus]; auto. }
  rewrite Hlen in Hm. apply substring_tail_at in Hm.
  destruct (index 0 sub t) eqn:Hs; [reflexivity | ].
  exfalso.
  exact (index_correct3 0 (m + String.length p) sub t Hs Hne (Nat.le_0_l _) Hm).
Qed.

Lemma split_length (l : list ascii) :
  List.length (WakeWord.split l) = S (count_occ ascii_dec l " "%char).
Proof.
  induction l as [|c l IH]; cbn [WakeWord.split count_occ]; [reflexivity | ].
  destruct (WakeWord.split l) as [|piece pieces]; [discriminate IH | ].
  destruct (ascii_dec c " ") as [->|Hc].
  - cbn [Ascii.eqb Bool.eqb]. cbn [List.length] in *.
    destruct (ascii_dec " " " ") as [_|H]; [ | now elim H]. now rewrite IH.
  - destruct (Ascii.eqb c " ") eqn:E; [apply Ascii.eqb_eq in E; now elim Hc | ].
    destruct (ascii_dec c " ") as [->|_]; [now elim Hc | ].
    cbn [List.length] in *. exact IH.
Qed.

(** X23.  The detector takes a transcript for the wake word exactly when
    it includes [aura] and either has at most two spaces or includes
    one of [hey aura], [hi aura], [okay aura]: a transcript without
    [aura] never reports the wake word. *)
Theorem wake_word_needs_aura (transcript : string) :
  WakeWord.isWakeWord transcript = true <->
  includes "aura" transcript = true /\
  (includes "hey aura" transcript = true \/
   includes "hi aura" transcript = true \/
   includes "okay aura" transcript = true \/
   WakeWord.spaces transcript <= 2).
Proof.
  unfold WakeWord.isWakeWord, WakeWord.spaces. rewrite split_length.
  assert (Hhey := includes_tail "hey " "aura" transcript ltac:(discriminate)).
  assert (Hhi := includes_tail "hi " "aura" transcript ltac:(discriminate)).
  assert (Hokay := includes_tail "okay " "aura" transcript ltac:(discriminate)).
  cbn [append] in Hhey, Hhi, Hokay.
  destruct (includes "hey aura" transcript);
    [ split; [intros _; split; auto | reflexivity] | ].
  destruct (includes "hi aura" transcript);
    [ split; [intros _; split; auto | reflexivity] | ].
  destruct (includes "okay aura" transcript);
    [ split; [intros _; split; auto | reflexivity] | ].
  cbn [orb]. clear Hhey Hhi Hokay.
  destruct (includes "aura" transcript); cbn [andb].
  - split.
    + intros H. apply Nat.leb_le in H. split; [reflexivity | ].
      right. right. right. lia.
    + intros (_ & [H | [H | [H | H]]]); try discriminate H.
      apply Nat.leb_le. lia.
  - split; [discriminate | intros (H & _); discriminate H].
Qed.

Example a_word_that_holds_aura_wakes :
  WakeWord.isWakeWord (WakeWord.transcriptOf ["the Restaurant"]) = true /\
  WakeWord.isWakeWord
    (WakeWord.transcriptOf ["i would like to talk to "; "Aura now"]) = false.
Proof. split; reflexivity. Qed.

Lemma does_calls c d :
  WakeWord.calls (WakeWord.does c d) = WakeWord.calls d ++ [c].
Proof. reflexivity. Qed.

(** Once [recognition] is null it stays null, and [start()] is not called
    on any recognition object, whatever happens next. *)
Lemma stopped_stays_stopped (events : list WakeWord.Event) :
  forall d,
    WakeWord.recognition d = None ->
    WakeWord.recognition (WakeWord.run events d) = None /\
    filter WakeWord.isStart (WakeWord.calls (WakeWord.run events d))
    = filter WakeWord.isStart (WakeWord.calls d).
Proof.
  unfold WakeWord.run.
  induction events as [|e events IH]; intros d Hd; cbn [fold_left].
  - split; [exact Hd | reflexivity].
  - assert (Hstep : WakeWord.recognition (WakeWord.step e d) = None /\
                    filter WakeWord.isStart (WakeWord.calls (WakeWord.step e d))
                    = filter WakeWord.isStart (WakeWord.calls d)).
    { destruct d as [r l c]. cbn [WakeWord.recognition] in Hd. subst r.
      destruct e as [ | results | error | | b | ]; cbn [WakeWord.step].
      - unfold WakeWord.onstart. cbn. now rewrite !filter_app, !app_nil_r.
      - unfold WakeWord.onresult.
        destruct (WakeWord.isWakeWord _); cbn;
          [now rewrite !filter_app, !app_nil_r | auto].
      - unfold WakeWord.onerror.
        destruct (String.eqb error "no-speech"); cbn;
          now rewrite !filter_app, !app_nil_r.
      - unfold WakeWord.onend. cbn. now rewrite !filter_app, !app_nil_r.
      - split; reflexivity.
      - split; reflexivity. }
    destruct Hstep as (H1 & H2).
    destruct (IH _ H1) as (H3 & H4). split; [exact H3 | ].
    now rewrite H4.
Qed.

(** X24.  After [stop()] the detector never starts a recognition again:
    whatever callbacks and restart timers fire afterwards, no further
    [recognition.start()] is made and [recognition] stays null. *)
Theorem no_restart_after_stop (events : list WakeWord.Event)
  (d : WakeWord.Detector) :
  WakeWord.recognition (WakeWord.run events (WakeWord.stop d)) = None /\
  filter WakeWord.isStart
    (WakeWord.calls (WakeWord.run events (WakeWord.stop d)))
  = filter WakeWord.isStart (WakeWord.calls d).
Proof.
  assert (Hs : WakeWord.recognition (WakeWord.stop d) = None /\
               filter WakeWord.isStart (WakeWord.calls (WakeWord.stop d))
               = filter WakeWord.isStart (WakeWord.calls d)).
  { destruct d as [[r|] l c]; unfold WakeWord.stop; cbn;
      [now rewrite !filter_app, !app_nil_r | auto]. }
  destruct Hs as (H1 & H2).
  destruct (stopped_stays_stopped events _ H1) as (H3 & H4).
  split; [exact H3 | now rewrite H4].
Qed.

(** X25.  While the detector has a recognition object, the end of a
    recognition schedules a restart, and the timer starts the same object
    again, whether or not [start()] then throws; the listening state is
    reported as false in between. *)
Theorem ended_recognition_is_restarted (b : WakeWord.Browser)
  (d : WakeWord.Detector) (r : nat) :
  WakeWord.recognition d = Some r ->
  WakeWord.calls (WakeWord.run [WakeWord.Ended; WakeWord.TimerFired b] d)
  = WakeWord.calls d ++
    [WakeWord.listeningStateChange false; WakeWord.restartIn100ms;
     WakeWord.recognitionStart r] /\
  WakeWord.recognition (WakeWord.run [WakeWord.Ended; WakeWord.TimerFired b] d)
  = Some r.
Proof.
  destruct d as [r0 l c]. cbn [WakeWord.recognition]. intros ->.
  unfold WakeWord.run. cbn [fold_left WakeWord.step].
  unfold WakeWord.onend, WakeWord.restart, WakeWord.tryStart. cbn.
  destruct (WakeWord.startThrows b); cbn; now rewrite <- !app_assoc.
Qed.

Lemma running_detector_witness :
  WakeWord.recognition
    (WakeWord.run [WakeWord.Ended;
                   WakeWord.TimerFired (WakeWord.mkBrowser true 1 true)]
       (WakeWord.start (WakeWord.mkBrowser true 1 false) WakeWord.newDetector))
  = Some 1.
Proof.
  apply (ended_recognition_is_restarted (WakeWord.mkBrowser true 1 true)
           (WakeWord.start (WakeWord.mkBrowser true 1 false)
              WakeWord.newDetector) 1 eq_refl).
Defined.


(** X26.  What the listening-state callback reported last is the
    detector's [isListening], after [start()] and after every callback,
    timer and [stop()] that follows. *)
Theorem reported_state_is_the_state (b : WakeWord.Browser)
  (events : list WakeWord.Event) :
  WakeWord.lastReported
    (WakeWord.calls (WakeWord.run events (WakeWord.start b WakeWord.newDetector)))
  = WakeWord.getIsListening
      (WakeWord.run events (WakeWord.start b WakeWord.newDetector)).
Proof.
  unfold WakeWord.getIsListening.
  assert (Hstart :
            WakeWord.lastReported
              (WakeWord.calls (WakeWord.start b WakeWord.newDetector))
            = WakeWord.isListening (WakeWord.start b WakeWord.newDetector)).
  { unfold WakeWord.start, WakeWord.tryStart.
    destruct (WakeWord.supported b); cbn; [ | reflexivity].
    destruct (WakeWord.startThrows b); reflexivity. }
  revert Hstart. generalize (WakeWord.start b WakeWord.newDetector).
  unfold WakeWord.run.
  induction events as [|e events IH]; intros d Hd; cbn [fold_left];
    [exact Hd | ].
  apply IH.
  destruct d as [r l c]. cbn [WakeWord.calls WakeWord.isListening] in Hd.
  destruct e as [ | results | error | | b' | ]; cbn [WakeWord.step].
  - unfold WakeWord.onstart. cbn.
    unfold WakeWord.lastReported. now rewrite !fold_left_app.
  - unfold WakeWord.onresult. destruct (WakeWord.isWakeWord _); cbn; auto.
    unfold WakeWord.lastReported. rewrite <- app_assoc, fold_left_app. exact Hd.
  - unfold WakeWord.onerror.
    destruct (String.eqb error "no-speech"); cbn;
      unfold WakeWord.lastReported; rewrite <- ?app_assoc, fold_left_app;
      exact Hd.
  - unfold WakeWord.onend. cbn. destruct r; cbn;
      unfold WakeWord.lastReported; rewrite <- ?app_assoc, fold_left_app;
      reflexivity.
  - unfold WakeWord.restart, WakeWord.tryStart. cbn. destruct r; cbn; auto.
    destruct l; cbn; auto.
    destruct (WakeWord.startThrows b'); cbn;
      unfold WakeWord.lastReported; rewrite fold_left_app; exact Hd.
  - unfold WakeWord.stop. cbn. destruct r; cbn; auto.
    unfold WakeWord.lastReported. rewrite <- app_assoc, fold_left_app.
    reflexivity.
Qed.

(** ** The notebook view *)

(** X27.  The notebook shows at most four cards, the newest first: once
    the render after a [save_memory] call has run the queued update (the
    memories of the state an array, nothing else queued, the write
    accepted), the first card is the memory just saved, with the content
    given, followed by the three newest of the memories there were. *)
Theorem saved_memory_is_the_first_card w wr auth save (s : Store)
  (l : list JSON) content :
  fc_name save = "save_memory" ->
  arg save "content" = Ok content ->
  memories s = JArr l ->
  pendingMemories s = [] ->
  setItemThrows wr MEMORY_KEY = false ->
  exists memory,
    memories (exec (render wr) (exec (toolResult w auth save) s))
    = JArr (l ++ [JObj memory]) /\
    notebookCards (l ++ [JObj memory]) = JObj memory :: firstn 3 (rev l) /\
    lookup "content" memory = content /\
    List.length (notebookCards (l ++ [JObj memory])) <= 4.
Proof.
  intros Hs Ha Hm Hp Hw. unfold exec at 1.
  rewrite (save_then_render w wr auth save s l content Hs Ha Hm Hp Hw).
  cbv zeta. cbn [snd]. destruct s. cbn [memories set_memories].
  eexists. split; [reflexivity | ].
  unfold notebookCards. rewrite rev_app_distr. cbn [rev app].
  rewrite firstn_cons. split; [reflexivity | ]. split.
  - destruct content; reflexivity.
  - cbn [List.length]. pose proof (firstn_le_length 3 (rev l)). lia.
Qed.

Lemma first_card_witness :
  exists memory,
    memories
      (exec (render (calmWorld 1))
         (exec (toolResult (calmWorld 0) false
                  (mkCall "s" "save_memory"
                     (Some [("content", JStr "likes green tea")])))
               connectedStore))
    = JArr [JObj memory] /\
    notebookCards [JObj memory] = [JObj memory] /\
    lookup "content" memory = Some (JStr "likes green tea").
Proof.
  destruct (saved_memory_is_the_first_card (calmWorld 0) (calmWorld 1) false
              (mkCall "s" "save_memory"
                 (Some [("content", JStr "likes green tea")]))
              connectedStore [] (Some (JStr "likes green tea"))
              eq_refl eq_refl eq_refl eq_refl eq_refl)
    as (memory & Hm & Hcards & Hcontent & _).
  exists memory. split; [exact Hm | split; [exact Hcards | exact Hcontent]].
Defined.
